(** * The tournament battle engine ([battle_utils.py])

    A shallow embedding of [get_damage], [attack], [random_events],
    [gen_battle] and [simulate_tournament_battle], and the properties of the
    engine that are stated in the specification.

    Conventions of the embedding.

    - Python integers are [Z]; strings are [string].
    - A Python float is an IEEE 754 binary64 number, represented by the
      rational it denotes.  [attack * U] converts the integer to a float
      and rounds the product to the nearest float, as the interpreter
      does; the [OverflowError] of an integer too large for a float, and
      the one of [int()] on an infinite product, are outcomes of the
      damage roll.
    - The global [random] generator is an explicit [Random.RandomSource]: what
      the n-th call returns, for each of the three calls the engine makes.
      The state threaded through the code is the number of calls made so
      far.
    - The ball objects of a roster are mutated in place and are reached
      through several lists at once (the roster, the per-round snapshots of
      the living balls, the list handed to [random.choice]).  A roster is
      therefore a [list BattleBall.t] kept in the frame of the generator,
      and a reference to a ball is its position in its roster.  The balls
      of the two rosters are distinct objects, as the ones that
      [simulate_tournament_battle] builds are.
    - [gen_battle] is a generator that [simulate_tournament_battle] drains
      with [list(...)]; the embedding runs it to completion and collects
      the yielded lines in order.
    - The [while] loop may not terminate: it is given fuel, one unit per
      round. *)

From Stdlib Require Import ZArith QArith Qround String Ascii Bool Lia.
From Stdlib Require Import Decimal DecimalString.
From stdpp Require Import base tactics option list.

Local Open Scope string_scope.
Local Open Scope Z_scope.

(** ** Data model *)

Module BattleBall.
Record t := mk {
  name : string;
  owner : string;
  health : Z;
  attack : Z;
  emoji : string;
  dead : bool
}.

Definition set_health (h : Z) (b : t) : t :=
  mk (name b) (owner b) h (attack b) (emoji b) (dead b).

Definition set_dead (d : bool) (b : t) : t :=
  mk (name b) (owner b) (health b) (attack b) (emoji b) d.
End BattleBall.

Module BattleInstance.
Record t := mk {
  p1_balls : list BattleBall.t;
  p2_balls : list BattleBall.t;
  winner : string;
  turns : Z
}.
End BattleInstance.

(** The caller's ball ([TournamentBall] of the cog); only the four fields
    that [simulate_tournament_battle] reads. *)
Module TournamentBall.
Record t := mk {
  country : string;
  emoji : string;
  health : Z;
  attack : Z
}.
End TournamentBall.

(** The dictionary returned by [simulate_tournament_battle]. *)
Module BattleResult.
Record t := mk {
  winner : string;
  turns : Z;
  battle_log : list string
}.
End BattleResult.

(** ** Outcomes *)

Inductive exn := IndexError | OverflowError.

(** [Done] is a normal return and [Raise] a Python exception.  [OutOfFuel]
    says that the rounds allowed were not enough.  [Stuck] marks a
    position that is not a ball of its roster: no run reaches it
    (see [simulate_outcomes]). *)
Inductive outcome (A : Type) :=
| Done (a : A)
| Raise (e : exn)
| OutOfFuel
| Stuck.
Arguments Done {A} a.
Arguments Raise {A} e.
Arguments OutOfFuel {A}.
Arguments Stuck {A}.

Definition bind {A B : Type} (m : outcome A) (k : A -> outcome B) : outcome B :=
  match m with
  | Done a => k a
  | Raise e => Raise e
  | OutOfFuel => OutOfFuel
  | Stuck => Stuck
  end.

Notation "'let*' x ':=' m 'in' k" := (bind m (fun x => k))
  (at level 10, x pattern, m at level 100, k at level 200, only parsing).

(** ** The random source *)

Module Random.
Record RandomSource := mk {
  (** the value of the n-th call when it is [random.randint(0, 100)] *)
  randint_0_100 : nat -> Z;
  (** the raw pick of the n-th call when it is [random.choice(seq)];
      the element returned is at this position modulo [len(seq)] *)
  choice_pick : nat -> nat;
  (** the value of the n-th call when it is [random.uniform(0.8, 1.2)]:
      the rational that the float returned denotes *)
  uniform_08_12 : nat -> Q
}.

(** The ranges the library promises. *)
Definition in_range (rng : RandomSource) : Prop :=
  forall n, 0 <= randint_0_100 rng n <= 100 /\
            (8 # 10 <= uniform_08_12 rng n)%Q /\ (uniform_08_12 rng n <= 12 # 10)%Q.

(** [random.choice(seq)]: [IndexError] on an empty sequence. *)
Definition choice {A : Type} (rng : RandomSource) (pos : nat) (seq : list A) : outcome A :=
  match seq !! (choice_pick rng pos mod length seq)%nat with
  | Some x => Done x
  | None => Raise IndexError
  end.
End Random.

(** ** Text *)

(** [str(n)] for an integer. *)
Definition str (n : Z) : string := NilZero.string_of_int (Z.to_int n).

(** [int(x)] for a float: truncation toward zero. *)
Definition int (x : Q) : Z := Z.quot (Qnum x) (Z.pos (Qden x)).

(** ** Floats

    A float of Python is an IEEE 754 binary64 number, given here by the
    rational that it denotes.  The smallest positive float is
    [2 ^ -1074], the unit: every float is an integer number of units,
    [m * 2 ^ s] of them with [m < 2 ^ 53], and a real number rounds to
    the nearest float, a tie going to the one with an even [m]. *)
Module Float.

(** [a / b] rounded to the nearest integer, a tie going to the even one;
    [0 < b]. *)
Definition rne (a b : Z) : Z :=
  let f := a / b in
  match 2 * (a mod b) ?= b with
  | Lt => f
  | Gt => f + 1
  | Eq => if Z.even f then f else f + 1
  end.

(** The float nearest to [n / d], for [0 <= n] and [0 < d], is
    [m * 2 ^ s] units: [2 ^ s] units is the gap between the floats
    around [n / d] (which has [53] bits once divided by the gap, and the
    gap is one unit below [2 ^ -1022]), and [m] is [n / d] in gaps,
    rounded. *)
Definition nearest (n d : Z) : Z * Z :=
  let s := Z.max (Z.log2 (n * 2 ^ 1074 / d) - 52) 0 in
  let m := if s <=? 1074 then rne (n * 2 ^ (1074 - s)) d
           else rne n (d * 2 ^ (s - 1074)) in
  (m, s).

(** [m * 2 ^ s] units, as a rational. *)
Definition of_units (m s : Z) : Q :=
  if 1074 <=? s then inject_Z (m * 2 ^ (s - 1074))
  else m # Z.to_pos (2 ^ (1074 - s)).

(** The float that a real number rounds to; [None] when it is the
    infinity, for a number that rounds to [2 ^ 1024] or beyond. *)
Definition round (x : Q) : option Q :=
  let '(m, s) := nearest (Z.abs (Qnum x)) (Z.pos (Qden x)) in
  if 1024 + 1074 <=? Z.log2 m + s then None
  else Some (of_units (Z.sgn (Qnum x) * m) s).
End Float.

Arguments Float.round : simpl never.

(** [float(n)] for an integer, as [n * x] makes it of [n] before it
    multiplies: [OverflowError] when [n] is too large for a float. *)
Definition float_of_int (n : Z) : outcome Q :=
  match Float.round (inject_Z n) with
  | Some x => Done x
  | None => Raise OverflowError
  end.

(** [x * y] for two floats: the product, rounded; [None] is an infinity. *)
Definition float_mul (x y : Q) : option Q := Float.round (x * y).

(** [int(x)] for the result of a product: [OverflowError] on an
    infinity. *)
Definition int_of_float (x : option Q) : outcome Z :=
  match x with
  | Some x => Done (int x)
  | None => Raise OverflowError
  end.

(** ** The engine *)

(** [int(ball.attack * random.uniform(0.8, 1.2))]: the damage and the
    position of the random source.  The draw is made before the
    product. *)
Definition get_damage (rng : Random.RandomSource) (pos : nat) (ball : BattleBall.t)
  : outcome (Z * nat) :=
  let u := Random.uniform_08_12 rng pos in
  let* attack := float_of_int (BattleBall.attack ball) in
  let* damage := int_of_float (float_mul attack u) in
  Done (damage, S pos).

Arguments get_damage : simpl never.

(** An attack of this size or less is far from the largest float, and so
    is its product with a multiplier of the range. *)
Definition max_attack : Z := 2 ^ 1022.

Arguments max_attack : simpl never.

(** [[ball for ball in balls if not ball.dead]], as positions. *)
Fixpoint alive_from (i : nat) (balls : list BattleBall.t) : list nat :=
  match balls with
  | [] => []
  | ball :: rest =>
      if BattleBall.dead ball then alive_from (S i) rest
      else i :: alive_from (S i) rest
  end.

Definition alive (balls : list BattleBall.t) : list nat := alive_from 0 balls.

Definition killed_text (current_ball enemy : BattleBall.t) : string :=
  BattleBall.owner current_ball ++ "'s " ++ BattleBall.name current_ball
    ++ " has killed " ++ BattleBall.owner enemy ++ "'s " ++ BattleBall.name enemy.

Definition dealt_text (current_ball : BattleBall.t) (attack_dealt : Z)
    (enemy : BattleBall.t) : string :=
  BattleBall.owner current_ball ++ "'s " ++ BattleBall.name current_ball
    ++ " has dealt " ++ str attack_dealt ++ " damage to "
    ++ BattleBall.owner enemy ++ "'s " ++ BattleBall.name enemy.

(** What the two assignments of [attack] leave in the target. *)
Definition take_damage (attack_dealt : Z) (enemy : BattleBall.t) : BattleBall.t :=
  let enemy := BattleBall.set_health (BattleBall.health enemy - attack_dealt) enemy in
  if BattleBall.health enemy <=? 0
  then BattleBall.set_dead true (BattleBall.set_health 0 enemy)
  else enemy.

(** [attack(current_ball, enemy_balls)]: the roster after the blow, the text
    and the position of the random source. *)
Definition attack (rng : Random.RandomSource) (pos : nat)
    (current_ball : BattleBall.t) (enemy_balls : list BattleBall.t)
  : outcome (list BattleBall.t * string * nat) :=
  let alive_balls := alive enemy_balls in
  let* target := Random.choice rng pos alive_balls in
  match enemy_balls !! target with
  | None => Stuck
  | Some enemy =>
      let* (attack_dealt, pos) := get_damage rng (S pos) current_ball in
      let enemy := take_damage attack_dealt enemy in
      let gen_text :=
        if BattleBall.dead enemy then killed_text current_ball enemy
        else dealt_text current_ball attack_dealt enemy in
      Done (<[target := enemy]> enemy_balls, gen_text, pos)
  end.

Definition random_events (rng : Random.RandomSource) (pos : nat) : Z * nat :=
  if Random.randint_0_100 rng pos <=? 30 then (1, S pos) else (0, S pos).

(** The frame of the running generator: the two rosters of the battle
    (with the balls they hold), the local [turn], the position of the
    random source and the lines yielded so far. *)
Module Frame.
Record t := mk {
  p1_balls : list BattleBall.t;
  p2_balls : list BattleBall.t;
  turn : Z;
  pos : nat;
  yielded : list string
}.
End Frame.

Inductive player := Player1 | Player2.

Definition opponent (who : player) : player :=
  match who with Player1 => Player2 | Player2 => Player1 end.

Definition balls_of (who : player) (fr : Frame.t) : list BattleBall.t :=
  match who with
  | Player1 => Frame.p1_balls fr
  | Player2 => Frame.p2_balls fr
  end.

Definition with_balls (who : player) (balls : list BattleBall.t) (fr : Frame.t)
  : Frame.t :=
  match who with
  | Player1 => Frame.mk balls (Frame.p2_balls fr) (Frame.turn fr) (Frame.pos fr)
                 (Frame.yielded fr)
  | Player2 => Frame.mk (Frame.p1_balls fr) balls (Frame.turn fr) (Frame.pos fr)
                 (Frame.yielded fr)
  end.

Definition missed_text (ball other : BattleBall.t) : string :=
  BattleBall.owner ball ++ "'s " ++ BattleBall.name ball ++ " missed "
    ++ BattleBall.owner other ++ "'s " ++ BattleBall.name other.

Definition turn_line (turn : Z) (text : string) : string :=
  "Turn " ++ str turn ++ ": " ++ text.

(** How one of the two [if not ball.dead:] blocks of the loop body is left. *)
Inductive flow := Fallthrough | Continue | Break.

(** One of the two blocks of the body of the [for] loop: [who]'s ball at
    position [mine] is the attacker of the pair, the ball at [theirs] its
    counterpart. *)
Definition attempt (rng : Random.RandomSource) (who : player) (mine theirs : nat)
    (fr : Frame.t) : outcome (Frame.t * flow) :=
  match balls_of who fr !! mine, balls_of (opponent who) fr !! theirs with
  | Some ball, Some other =>
      if BattleBall.dead ball then Done (fr, Fallthrough)
      else
        let turn := Frame.turn fr + 1 in
        let '(event, pos) := random_events rng (Frame.pos fr) in
        if event =? 1 then
          Done (Frame.mk (Frame.p1_balls fr) (Frame.p2_balls fr) turn pos
                  (Frame.yielded fr ++ [turn_line turn (missed_text ball other)]),
                Continue)
        else
          let* (enemy_balls, gen_text, pos) :=
            attack rng pos ball (balls_of (opponent who) fr) in
          let fr :=
            with_balls (opponent who) enemy_balls
              (Frame.mk (Frame.p1_balls fr) (Frame.p2_balls fr) turn pos
                 (Frame.yielded fr ++ [turn_line turn gen_text])) in
          if forallb BattleBall.dead enemy_balls then Done (fr, Break)
          else Done (fr, Fallthrough)
  | _, _ => Stuck
  end.

(** The [for] loop over the zipped snapshots. *)
Fixpoint for_pairs (rng : Random.RandomSource) (pairs : list (nat * nat))
    (fr : Frame.t) : outcome Frame.t :=
  match pairs with
  | [] => Done fr
  | (p1_ball, p2_ball) :: rest =>
      (* Player 1 attacks first *)
      let* (fr, fl) := attempt rng Player1 p1_ball p2_ball fr in
      match fl with
      | Continue => for_pairs rng rest fr
      | Break => Done fr
      | Fallthrough =>
          (* Player 2 attacks *)
          let* (fr, fl) := attempt rng Player2 p2_ball p1_ball fr in
          match fl with
          | Break => Done fr
          | _ => for_pairs rng rest fr
          end
      end
  end.

(** [any(ball for ball in balls if not ball.dead)]: a ball object is truthy. *)
Definition any_alive (balls : list BattleBall.t) : bool :=
  existsb (fun ball => negb (BattleBall.dead ball)) balls.

Definition all_dead (balls : list BattleBall.t) : bool :=
  forallb BattleBall.dead balls.

(** The [while] loop, one unit of fuel per round. *)
Fixpoint while_loop (fuel : nat) (rng : Random.RandomSource) (fr : Frame.t)
  : outcome Frame.t :=
  if any_alive (Frame.p1_balls fr) && any_alive (Frame.p2_balls fr) then
    match fuel with
    | O => OutOfFuel
    | S fuel =>
        let alive_p1_balls := alive (Frame.p1_balls fr) in
        let alive_p2_balls := alive (Frame.p2_balls fr) in
        let* fr := for_pairs rng (zip alive_p1_balls alive_p2_balls) fr in
        while_loop fuel rng fr
    end
  else Done fr.

Definition stalemate_line : string :=
  "Everyone stared at each other, resulting in nobody winning.".

(** [all(ball.attack <= 0 for ball in battle.p1_balls + battle.p2_balls)] *)
Definition no_damage (battle : BattleInstance.t) : bool :=
  forallb (fun ball => BattleBall.attack ball <=? 0)
    (BattleInstance.p1_balls battle ++ BattleInstance.p2_balls battle).

(** [balls[0].owner] *)
Definition first_owner (balls : list BattleBall.t) : outcome string :=
  match balls with
  | [] => Raise IndexError
  | ball :: _ => Done (BattleBall.owner ball)
  end.

(** [gen_battle(battle)], drained: the battle as the generator leaves it,
    the lines it yielded and the position of the random source. *)
Definition gen_battle (fuel : nat) (rng : Random.RandomSource) (pos : nat)
    (battle : BattleInstance.t) : outcome (BattleInstance.t * list string * nat) :=
  (* Check if all balls do no damage *)
  if no_damage battle then Done (battle, [stalemate_line], pos)
  else
    let* fr :=
      while_loop fuel rng
        (Frame.mk (BattleInstance.p1_balls battle) (BattleInstance.p2_balls battle)
           0 pos []) in
    (* Determine the winner *)
    let* winner :=
      if all_dead (Frame.p1_balls fr) then first_owner (Frame.p2_balls fr)
      else if all_dead (Frame.p2_balls fr) then first_owner (Frame.p1_balls fr)
      else Done (BattleInstance.winner battle) in
    (* Set turns *)
    Done (BattleInstance.mk (Frame.p1_balls fr) (Frame.p2_balls fr) winner
            (Frame.turn fr),
          Frame.yielded fr, Frame.pos fr).

Definition to_battle_ball (owner : string) (ball : TournamentBall.t) : BattleBall.t :=
  BattleBall.mk (TournamentBall.country ball) owner (TournamentBall.health ball)
    (TournamentBall.attack ball) (TournamentBall.emoji ball) false.

(** [simulate_tournament_battle], with the number of calls made to the
    random source (which starts at 0). *)
Definition simulate_tournament_battle (fuel : nat) (rng : Random.RandomSource)
    (player1_balls player2_balls : list TournamentBall.t)
    (player1_name player2_name : string) : outcome (BattleResult.t * nat) :=
  let p1_battle_balls := map (to_battle_ball player1_name) player1_balls in
  let p2_battle_balls := map (to_battle_ball player2_name) player2_balls in
  let battle := BattleInstance.mk p1_battle_balls p2_battle_balls EmptyString 0 in
  let* (battle, battle_log, pos) := gen_battle fuel rng 0 battle in
  Done (BattleResult.mk (BattleInstance.winner battle) (BattleInstance.turns battle)
          battle_log, pos).

(** ** Events

    The two ways in which a block of the loop body changes the frame: a
    miss and a blow.  They are used to carry invariants through the loops. *)

Definition miss_frame (fr : Frame.t) (ball other : BattleBall.t) : Frame.t :=
  Frame.mk (Frame.p1_balls fr) (Frame.p2_balls fr) (Frame.turn fr + 1)
    (S (Frame.pos fr))
    (Frame.yielded fr ++ [turn_line (Frame.turn fr + 1) (missed_text ball other)]).

Definition blow_text (ball : BattleBall.t) (attack_dealt : Z) (enemy : BattleBall.t)
  : string :=
  if BattleBall.dead enemy then killed_text ball enemy
  else dealt_text ball attack_dealt enemy.

Definition blow_frame (who : player) (fr : Frame.t) (ball : BattleBall.t)
    (attack_dealt : Z) (target : nat) (enemy : BattleBall.t) : Frame.t :=
  let enemy := take_damage attack_dealt enemy in
  with_balls (opponent who) (<[target := enemy]> (balls_of (opponent who) fr))
    (Frame.mk (Frame.p1_balls fr) (Frame.p2_balls fr) (Frame.turn fr + 1)
       (S (S (S (Frame.pos fr))))
       (Frame.yielded fr
          ++ [turn_line (Frame.turn fr + 1) (blow_text ball attack_dealt enemy)])).

Inductive event (rng : Random.RandomSource) (who : player) (fr : Frame.t)
  : Frame.t -> Prop :=
| event_miss (ball other : BattleBall.t) :
    ball ∈ balls_of who fr ->
    BattleBall.dead ball = false ->
    Random.randint_0_100 rng (Frame.pos fr) <= 30 ->
    event rng who fr (miss_frame fr ball other)
| event_blow (ball : BattleBall.t) (attack_dealt : Z) (target : nat)
    (enemy : BattleBall.t) :
    ball ∈ balls_of who fr ->
    BattleBall.dead ball = false ->
    30 < Random.randint_0_100 rng (Frame.pos fr) ->
    balls_of (opponent who) fr !! target = Some enemy ->
    BattleBall.dead enemy = false ->
    get_damage rng (S (S (Frame.pos fr))) ball
    = Done (attack_dealt, S (S (S (Frame.pos fr)))) ->
    event rng who fr (blow_frame who fr ball attack_dealt target enemy).

(** ** The log *)

(** The lines of a miss, a blow or a kill, as opposed to the stalemate line. *)
Definition is_turn_line (line : string) : bool := String.prefix "Turn " line.

(** The lines yielded so far are the lines of turns 1, 2, ... in this
    order, and [turn] is their number. *)
Definition numbered (turn : Z) (lines : list string) : Prop :=
  turn = Z.of_nat (length lines) /\
  forall (k : nat) (line : string),
    lines !! k = Some line -> exists text, line = turn_line (Z.of_nat k + 1) text.

(** ** Invariants *)

(** What a battle may change in a ball: [health] and [dead] only, and a ball
    once dead stays dead. *)
Definition evolves (ball ball' : BattleBall.t) : Prop :=
  BattleBall.name ball' = BattleBall.name ball /\
  BattleBall.owner ball' = BattleBall.owner ball /\
  BattleBall.attack ball' = BattleBall.attack ball /\
  BattleBall.emoji ball' = BattleBall.emoji ball /\
  (BattleBall.dead ball = true -> ball' = ball).

(** The health of a ball that started at 0 or more stays at 0 or more and
    does not grow. *)
Definition wanes (ball ball' : BattleBall.t) : Prop :=
  BattleBall.attack ball' = BattleBall.attack ball /\
  (0 <= BattleBall.health ball ->
   0 <= BattleBall.health ball' <= BattleBall.health ball).

Definition both_alive (fr : Frame.t) : Prop :=
  any_alive (Frame.p1_balls fr) = true /\ any_alive (Frame.p2_balls fr) = true.

(** Exactly one side has no living ball. *)
Definition one_down (p1_balls p2_balls : list BattleBall.t) : Prop :=
  xorb (all_dead p1_balls) (all_dead p2_balls) = true.

(** The two positions of a pair are positions of the two rosters. *)
Definition in_rosters (fr : Frame.t) (pair : nat * nat) : Prop :=
  (pair.1 < length (Frame.p1_balls fr))%nat /\ (pair.2 < length (Frame.p2_balls fr))%nat.

(** Two random sources return the same values at their first [n] calls. *)
Definition agree_upto (n : nat) (rng rng' : Random.RandomSource) : Prop :=
  forall k, (k < n)%nat ->
    Random.randint_0_100 rng k = Random.randint_0_100 rng' k /\
    Random.choice_pick rng k = Random.choice_pick rng' k /\
    Random.uniform_08_12 rng k = Random.uniform_08_12 rng' k.

(** ** A measure of what is left of a battle *)



(** A damage roll of one of these balls raises [OverflowError] at some
    position of the random source. *)
Definition overflows (rng : Random.RandomSource) (balls : list BattleBall.t) : Prop :=
  ∃ pos ball, ball ∈ balls ∧ get_damage rng pos ball = Raise OverflowError.



(** ** Runs on concrete rosters *)

(** A source that never misses, always picks the first living target and
    always rolls the multiplier 1. *)
Definition steady : Random.RandomSource :=
  Random.mk (fun _ => 100) (fun _ => 0%nat) (fun _ => 1%Q).

(** Like [steady] from the [n]-th call on, and a miss before. *)
Definition late_steady (n : nat) : Random.RandomSource :=
  Random.mk (fun k => if (k <? n)%nat then 0 else 100) (fun _ => 0%nat) (fun _ => 1%Q).

(** Like [steady] for the first [n] calls, and a miss from then on. *)
Definition fading (n : nat) : Random.RandomSource :=
  Random.mk (fun k => if (k <? n)%nat then 100 else 0) (fun _ => 0%nat) (fun _ => 1%Q).

(** A source that always misses. *)
Definition always_miss : Random.RandomSource :=
  Random.mk (fun _ => 0) (fun _ => 0%nat) (fun _ => 1%Q).

(** A source whose miss roll is always [v]. *)
Definition rolling (v : Z) : Random.RandomSource :=
  Random.mk (fun _ => v) (fun _ => 0%nat) (fun _ => 1%Q).

(** A source whose multiplier is always [u]; it never misses. *)
Definition scaling (u : Q) : Random.RandomSource :=
  Random.mk (fun _ => 100) (fun _ => 0%nat) (fun _ => u).

(** A living ball, and a ball of the caller, without emoji. *)
Definition bball (owner name : string) (health attack : Z) : BattleBall.t :=
  BattleBall.mk name owner health attack EmptyString false.

Definition tball (country : string) (health attack : Z) : TournamentBall.t :=
  TournamentBall.mk country EmptyString health attack.

(** ** More invariants of the engine *)

(** A ball is dead exactly when it has no health left. *)
Definition settled (ball : BattleBall.t) : Prop :=
  (BattleBall.dead ball = false -> 0 < BattleBall.health ball) /\
  (BattleBall.dead ball = true -> BattleBall.health ball = 0).

(** ** Slugs ([_slugify] of [cog.py])

    A text is given by its UTF-8 bytes: a character of ASCII is one byte
    below 128, and every other character is two bytes or more, all of
    them above 127.  The patterns of the function tell the characters
    [a-z], [0-9] and [_] from all others, and no other character from
    another; a run of characters that are not of ASCII is a run of bytes
    above 127, and it becomes one underscore either way. *)

Definition is_upper (c : ascii) : bool :=
  (65 <=? nat_of_ascii c)%nat && (nat_of_ascii c <=? 90)%nat.

Definition is_lower (c : ascii) : bool :=
  (97 <=? nat_of_ascii c)%nat && (nat_of_ascii c <=? 122)%nat.

Definition is_digit (c : ascii) : bool :=
  (48 <=? nat_of_ascii c)%nat && (nat_of_ascii c <=? 57)%nat.

Definition is_underscore (c : ascii) : bool := Ascii.eqb c "_".

(** [str.lower()] on a character of ASCII: the letters [A-Z] change. *)
Definition lower_char (c : ascii) : ascii :=
  if is_upper c then ascii_of_nat (nat_of_ascii c + 32) else c.

(** [str.lower()] on a text.  Two characters beyond ASCII have a
    character of ASCII in their lower case: U+0130 (bytes 196, 176)
    becomes [i] followed by U+0307 (bytes 204, 135), and U+212A (bytes
    226, 132, 170) becomes [k].  Every other character beyond ASCII
    becomes characters beyond ASCII, if it changes at all, and is left
    in place here: its bytes are above 127 before and after. *)
Fixpoint lower (s : list ascii) : list ascii :=
  match s with
  | [] => []
  | c :: rest =>
      match rest with
      | c2 :: rest2 =>
          if Ascii.eqb c "196" && Ascii.eqb c2 "176"
          then "i"%char :: "204"%char :: "135"%char :: lower rest2
          else
            match rest2 with
            | c3 :: rest3 =>
                if Ascii.eqb c "226" && Ascii.eqb c2 "132" && Ascii.eqb c3 "170"
                then "k"%char :: lower rest3
                else lower_char c :: lower rest
            | [] => lower_char c :: lower rest
            end
      | [] => lower_char c :: lower rest
      end
  end.

(** The class [[a-z0-9_]]. *)
Definition slug_char (c : ascii) : bool := is_lower c || is_digit c || is_underscore c.

(** [re.sub(r'C+', '_', s)] for a class [C] of characters: every maximal
    run of characters of the class becomes one underscore.  [in_run] says
    that the character before was of the class. *)
Fixpoint sub_runs (in_class : ascii -> bool) (in_run : bool) (s : list ascii)
  : list ascii :=
  match s with
  | [] => []
  | c :: rest =>
      if in_class c then
        if in_run then sub_runs in_class true rest
        else "_"%char :: sub_runs in_class true rest
      else c :: sub_runs in_class false rest
  end.

(** [s.lstrip('_')], [s.rstrip('_')] and [s.strip('_')]. *)
Fixpoint lstrip (s : list ascii) : list ascii :=
  match s with
  | [] => []
  | c :: rest => if is_underscore c then lstrip rest else s
  end.

Fixpoint rstrip (s : list ascii) : list ascii :=
  match s with
  | [] => []
  | c :: rest =>
      match rstrip rest with
      | [] => if is_underscore c then [] else [c]
      | kept => c :: kept
      end
  end.

Definition strip (s : list ascii) : list ascii := rstrip (lstrip s).

(** The slug before the fallback. *)
Definition slug_of (text : option string) : list ascii :=
  let s := lower (list_ascii_of_string (default EmptyString text)) in
  let s := sub_runs (fun c => negb (slug_char c)) false s in
  let s := sub_runs is_underscore false s in
  strip s.

(** [_slugify(text)]; [draw] is what [random.randint(1000, 9999)] returns
    when the function calls it. *)
Definition _slugify (draw : Z) (text : option string) : string :=
  let s := slug_of text in
  match s with
  | [] => "tourney_" ++ str draw
  | _ => string_of_list_ascii s
  end.

(** No underscore at either end, and no two in a row. *)
Fixpoint no_double_underscore (s : list ascii) : Prop :=
  match s with
  | c1 :: ((c2 :: _) as rest) =>
      ~ (is_underscore c1 = true /\ is_underscore c2 = true) /\ no_double_underscore rest
  | _ => True
  end.

Definition slug_shaped (s : list ascii) : Prop :=
  s <> [] /\ Forall (fun c => slug_char c = true) s /\
  (forall c, head s = Some c -> is_underscore c = false) /\
  (forall c, last s = Some c -> is_underscore c = false) /\
  no_double_underscore s.

(** The letters and digits of a text, and those of a lowered text. *)
Definition is_alnum (c : ascii) : bool := is_upper c || is_lower c || is_digit c.

(** The bytes of the characters of ASCII. *)
Definition is_ascii (c : ascii) : bool := (nat_of_ascii c <? 128)%nat.

Definition is_lower_alnum (c : ascii) : bool := is_lower c || is_digit c.

Definition slug_shapedb (s : list ascii) : bool :=
  negb (bool_decide (s = [])) &&
  forallb slug_char s &&
  match head s with Some c => negb (is_underscore c) | None => true end &&
  match last s with Some c => negb (is_underscore c) | None => true end &&
  (fix no_double (s : list ascii) : bool :=
     match s with
     | c1 :: ((c2 :: _) as rest) =>
         negb (is_underscore c1 && is_underscore c2) && no_double rest
     | _ => true
     end) s.

(** ** The tournament ([models.py]) *)

Inductive TournamentType :=
| SINGLE_ELIMINATION | DOUBLE_ELIMINATION | ROUND_ROBIN | SWISS.

Inductive TournamentState := REGISTRATION | ACTIVE | FINISHED | CANCELLED.

(** A [discord.Member], as far as the code reads it. *)
Module Member.
Record t := mk {
  id : Z;
  display_name : string
}.
End Member.

Module TournamentPlayer.
Record t := mk {
  user : Member.t;
  player_id : Z;
  balls : list TournamentBall.t;
  eliminated : bool
}.

Definition set_eliminated (e : bool) (p : t) : t :=
  mk (user p) (player_id p) (balls p) e.

Definition set_balls (b : list TournamentBall.t) (p : t) : t :=
  mk (user p) (player_id p) b (eliminated p).
End TournamentPlayer.

(** The [Tournament] object.  [challonge_participants] is the dictionary
    from the id of a user to the Challonge participant made for it, of
    which the code reads the id; a dictionary keeps the order in which its
    keys were set.  [challonge_tournament] is read for the calls to
    Challonge only and is left out. *)
Module Tournament.
Record t := mk {
  name : string;
  guild_id : Z;
  channel_id : Z;
  organizer : Member.t;
  tournament_type : TournamentType;
  max_participants : Z;
  min_rarity : option Q;
  max_rarity : option Q;
  special_allowed : bool;
  duplicates_allowed : bool;
  balls_per_player : Z;
  state : TournamentState;
  participants : list TournamentPlayer.t;
  challonge_participants : list (Z * Z)
}.

Definition set_state (s : TournamentState) (tn : t) : t :=
  mk (name tn) (guild_id tn) (channel_id tn) (organizer tn) (tournament_type tn)
    (max_participants tn) (min_rarity tn) (max_rarity tn) (special_allowed tn)
    (duplicates_allowed tn) (balls_per_player tn) s (participants tn)
    (challonge_participants tn).

Definition set_participants (ps : list TournamentPlayer.t) (tn : t) : t :=
  mk (name tn) (guild_id tn) (channel_id tn) (organizer tn) (tournament_type tn)
    (max_participants tn) (min_rarity tn) (max_rarity tn) (special_allowed tn)
    (duplicates_allowed tn) (balls_per_player tn) (state tn) ps
    (challonge_participants tn).

Definition set_challonge_participants (d : list (Z * Z)) (tn : t) : t :=
  mk (name tn) (guild_id tn) (channel_id tn) (organizer tn) (tournament_type tn)
    (max_participants tn) (min_rarity tn) (max_rarity tn) (special_allowed tn)
    (duplicates_allowed tn) (balls_per_player tn) (state tn) (participants tn) d.
End Tournament.

(** [[p for p in participants if not p.eliminated]] *)
Definition active_players (participants : list TournamentPlayer.t)
  : list TournamentPlayer.t :=
  List.filter (fun p => negb (TournamentPlayer.eliminated p)) participants.

(** ** Matches ([_simulate_match] of [cog.py]) *)

(** What a match settles: the positions, among the participants, of the
    winner and of the loser, and the result of the battle. *)
Module MatchReport.
Record t := mk {
  winner : nat;
  loser : nat;
  battle_result : BattleResult.t
}.
End MatchReport.

(** [_simulate_match], up to its first [await]: the battle, the choice of
    the winner, the elimination of the loser and the end of the
    tournament.  [player1] and [player2] are two participants of the
    tournament, given by their positions.  When the battle raises, the
    [except] clause of the function logs the exception and the function
    returns with the tournament as it was: there is no report then.  What
    follows in the source (the completion message, the update of
    Challonge, the result message) reads the tournament and leaves it as
    it is. *)
Definition _simulate_match (fuel : nat) (rng : Random.RandomSource)
    (tournament : Tournament.t) (player1 player2 : nat)
  : outcome (Tournament.t * option MatchReport.t) :=
  match Tournament.participants tournament !! player1,
        Tournament.participants tournament !! player2 with
  | Some p1, Some p2 =>
      (* Run battle simulation *)
      match simulate_tournament_battle fuel rng (TournamentPlayer.balls p1)
              (TournamentPlayer.balls p2)
              (Member.display_name (TournamentPlayer.user p1))
              (Member.display_name (TournamentPlayer.user p2)) with
      | Done (battle_result, _) =>
          (* Determine winner *)
          let '(winner, loser) :=
            if String.eqb (BattleResult.winner battle_result)
                 (Member.display_name (TournamentPlayer.user p1))
            then (player1, player2) else (player2, player1) in
          (* Mark loser as eliminated *)
          let participants :=
            alter (TournamentPlayer.set_eliminated true) loser
              (Tournament.participants tournament) in
          let tournament := Tournament.set_participants participants tournament in
          let tournament :=
            if (length (active_players participants) =? 1)%nat
            then Tournament.set_state FINISHED tournament
            else tournament in
          Done (tournament, Some (MatchReport.mk winner loser battle_result))
      | Raise _ => Done (tournament, None)
      | OutOfFuel => OutOfFuel
      | Stuck => Stuck
      end
  | _, _ => Stuck
  end.

Definition entrant (id : Z) (display_name : string) (balls : list TournamentBall.t)
  : TournamentPlayer.t :=
  TournamentPlayer.mk (Member.mk id display_name) id balls false.

Definition cup (participants : list TournamentPlayer.t) : Tournament.t :=
  Tournament.mk "cup" 1 1 (Member.mk 0 "org") SINGLE_ELIMINATION 16 None None true false 1
    ACTIVE participants [].

(** ** The selection of the teams ([auto_select_balls_for_tournament] of
    [cog.py])

    [Ball] and [BallInstance] are the records of the collection, with the
    fields that the function reads; [special] is the name of the special
    of an instance, if it has one.  A rarity is the rational that the
    float denotes. *)

Module Ball.
Record t := mk {
  id : Z;
  country : string;
  rarity : Q;
  enabled : bool;
  tradeable : bool;
  emoji_id : Z
}.
End Ball.

Module BallInstance.
Record t := mk {
  ball : Ball.t;
  special : option string;
  health : Z;
  attack : Z
}.
End BallInstance.

Definition Qlt_bool (x y : Q) : bool := negb (Qle_bool y x).

(** The four checks of the loop over [ball_instances]: [true] when the
    instance is appended to [eligible_instances]. *)
Definition eligible (tournament : Tournament.t) (instance : BallInstance.t) : bool :=
  let ball := BallInstance.ball instance in
  (* Check rarity constraints *)
  if match Tournament.min_rarity tournament with
     | Some min_rarity => Qlt_bool (Ball.rarity ball) min_rarity
     | None => false
     end then false
  else if match Tournament.max_rarity tournament with
          | Some max_rarity => Qlt_bool max_rarity (Ball.rarity ball)
          | None => false
          end then false
  (* Check special constraint *)
  else if negb (Tournament.special_allowed tournament)
          && bool_decide (is_Some (BallInstance.special instance)) then false
  (* Check if ball is enabled and tradeable *)
  else if negb (Ball.enabled ball) || negb (Ball.tradeable ball) then false
  else true.

(** [ball_groups]: a dictionary from the id of a ball to the list of its
    instances, in the order in which the ids came first. *)
Fixpoint group_add (ball_groups : list (Z * list BallInstance.t))
    (instance : BallInstance.t) : list (Z * list BallInstance.t) :=
  let ball_id := Ball.id (BallInstance.ball instance) in
  match ball_groups with
  | [] => [(ball_id, [instance])]
  | (k, group) :: rest =>
      if k =? ball_id then (k, (group ++ [instance])%list) :: rest
      else (k, group) :: group_add rest instance
  end.

Definition stats (x : BallInstance.t) : Z := BallInstance.health x + BallInstance.attack x.

(** [max(group, key=...)]: the first of the instances with the highest
    key; [ValueError] on an empty group. *)
Fixpoint max_from (key : BallInstance.t -> Z) (best : BallInstance.t)
    (rest : list BallInstance.t) : BallInstance.t :=
  match rest with
  | [] => best
  | x :: rest => if key best <? key x then max_from key x rest else max_from key best rest
  end.

Definition py_max (key : BallInstance.t -> Z) (group : list BallInstance.t)
  : option BallInstance.t :=
  match group with
  | [] => None
  | x :: rest => Some (max_from key x rest)
  end.

(** [selected_instances] before the shuffle; [None] when [max] raises. *)
Definition candidates (tournament : Tournament.t) (ball_instances : list BallInstance.t)
  : option (list BallInstance.t) :=
  let eligible_instances := List.filter (eligible tournament) ball_instances in
  (* Handle duplicates *)
  if negb (Tournament.duplicates_allowed tournament) then
    (* Group by ball ID and select best instance of each *)
    let ball_groups := fold_left group_add eligible_instances [] in
    mapM (fun group => py_max stats group.2) ball_groups
  else Some eligible_instances.

(** [seq[:n]] *)
Definition slice_to {A : Type} (n : Z) (seq : list A) : list A :=
  if 0 <=? n then take (Z.to_nat n) seq
  else take (Z.to_nat (Z.of_nat (length seq) + n)) seq.

Definition basketball : string := "🏀".

(** The [TournamentBall] made of an instance, with the fields of the
    record [TournamentBall.t] (the Python object carries [rarity] and
    [special] as well, which the package reads nowhere).  [get_emoji]
    is what [str(bot.get_emoji(id))] gives, [None] when the bot has no
    such emoji or the call raises. *)
Definition tournament_ball (get_emoji : Z -> option string) (instance : BallInstance.t)
  : TournamentBall.t :=
  let ball := BallInstance.ball instance in
  let emoji := default basketball (get_emoji (Ball.emoji_id ball)) in
  TournamentBall.mk (Ball.country ball) emoji (BallInstance.health instance)
    (BallInstance.attack instance).

(** The body of the loop over the participants, for the participant at
    position [k]: the participant as the body leaves it, and the count
    that goes with it into [failed_participants] when it fails.
    [collection k] is what the database gives in this turn of the loop
    for the instances of a player, [None] when it raises; [shuffle k] is
    what [random.shuffle] makes of the list in this turn. *)
Definition select_balls (collection : nat -> Z -> option (list BallInstance.t))
    (get_emoji : Z -> option string)
    (shuffle : nat -> list BallInstance.t -> list BallInstance.t)
    (tournament : Tournament.t) (k : nat) (participant : TournamentPlayer.t)
  : TournamentPlayer.t * option Z :=
  match collection k (TournamentPlayer.player_id participant) with
  | None => (participant, Some 0)
  | Some ball_instances =>
      match candidates tournament ball_instances with
      | None => (participant, Some 0)
      | Some selected_instances =>
          (* Check if player has enough balls *)
          if Z.of_nat (length selected_instances) <? Tournament.balls_per_player tournament
          then (participant, Some (Z.of_nat (length selected_instances)))
          else
            (* Shuffle and select required number *)
            let selected_instances := shuffle k selected_instances in
            let selected_instances :=
              slice_to (Tournament.balls_per_player tournament) selected_instances in
            (* Convert to TournamentBall objects *)
            (TournamentPlayer.set_balls
               (map (tournament_ball get_emoji) selected_instances) participant,
             None)
      end
  end.

(** [==] on two balls and on two participants: the fields of the
    records, and for the [user] its id. *)
Definition ball_eqb (a b : TournamentBall.t) : bool :=
  String.eqb (TournamentBall.country a) (TournamentBall.country b)
  && String.eqb (TournamentBall.emoji a) (TournamentBall.emoji b)
  && (TournamentBall.health a =? TournamentBall.health b)
  && (TournamentBall.attack a =? TournamentBall.attack b).

Fixpoint balls_eqb (l k : list TournamentBall.t) : bool :=
  match l, k with
  | [], [] => true
  | a :: l, b :: k => ball_eqb a b && balls_eqb l k
  | _, _ => false
  end.

Definition participant_eqb (p q : TournamentPlayer.t) : bool :=
  (Member.id (TournamentPlayer.user p) =? Member.id (TournamentPlayer.user q))
  && (TournamentPlayer.player_id p =? TournamentPlayer.player_id q)
  && balls_eqb (TournamentPlayer.balls p) (TournamentPlayer.balls q)
  && Bool.eqb (TournamentPlayer.eliminated p) (TournamentPlayer.eliminated q).

(** [participants.remove(x)], where [x in participants]: the first
    participant equal to [x] goes. *)
Fixpoint remove_participant (x : TournamentPlayer.t) (participants : list TournamentPlayer.t)
  : list TournamentPlayer.t :=
  match participants with
  | [] => []
  | p :: rest => if participant_eqb p x then rest else p :: remove_participant x rest
  end.

Definition remove_failed (participants : list TournamentPlayer.t)
    (failed : TournamentPlayer.t * Z) : list TournamentPlayer.t :=
  if existsb (fun p => participant_eqb p failed.1) participants
  then remove_participant failed.1 participants
  else participants.

(** [auto_select_balls_for_tournament]: the tournament as it is left, and
    [failed_participants], for a run during which nothing else changes
    the tournament (the function awaits the database once for each
    participant). *)
Definition auto_select_balls_for_tournament
    (collection : nat -> Z -> option (list BallInstance.t))
    (get_emoji : Z -> option string)
    (shuffle : nat -> list BallInstance.t -> list BallInstance.t)
    (tournament : Tournament.t)
  : Tournament.t * list (TournamentPlayer.t * Z) :=
  let results :=
    imap (select_balls collection get_emoji shuffle tournament)
      (Tournament.participants tournament) in
  let failed_participants :=
    omap (fun r : TournamentPlayer.t * option Z => (fun n => (r.1, n)) <$> r.2) results in
  (* Remove failed participants *)
  let participants := fold_left remove_failed failed_participants (map fst results) in
  (Tournament.set_participants participants tournament, failed_participants).

Definition ball_of (id : Z) (country : string) : Ball.t :=
  Ball.mk id country 1 true true id.

Definition instance_of (id : Z) (country : string) (health attack : Z) : BallInstance.t :=
  BallInstance.mk (ball_of id country) None health attack.

(** Two entrants and what the database holds: three instances of two
    kinds for player 1, none for the others. *)
Definition league : Tournament.t :=
  cup [entrant 1 "ann" []; entrant 2 "bob" []].

Definition stock (k : nat) (player_id : Z) : option (list BallInstance.t) :=
  if player_id =? 1
  then Some [instance_of 7 "France" 100 50; instance_of 7 "France" 120 60;
             instance_of 8 "Spain" 90 90]
  else Some [].

Definition no_emoji (id : Z) : option string := None.

Definition ball_id (x : BallInstance.t) : Z := Ball.id (BallInstance.ball x).

(** The groups of a list of instances: one for each id, in the order in
    which the ids come first, each with the instances of its id. *)
Definition groups_of (G : list (Z * list BallInstance.t)) (l : list BallInstance.t) : Prop :=
  NoDup G.*1 ∧
  Forall (fun kg : Z * list BallInstance.t =>
            kg.2 = List.filter (fun x => ball_id x =? kg.1) l ∧ kg.2 <> []) G ∧
  (forall x, x ∈ l -> ball_id x ∈ G.*1).

Definition user_id (p : TournamentPlayer.t) : Z := Member.id (TournamentPlayer.user p).

(** The participants that the loop leaves with a team. *)
Definition kept (results : list (TournamentPlayer.t * option Z)) : list TournamentPlayer.t :=
  omap (fun r : TournamentPlayer.t * option Z =>
          match r.2 with None => Some r.1 | Some _ => None end) results.

Definition failed_of (results : list (TournamentPlayer.t * option Z))
  : list (TournamentPlayer.t * Z) :=
  omap (fun r : TournamentPlayer.t * option Z => (fun n => (r.1, n)) <$> r.2) results.

(** ** The registration view ([TournamentRegistrationView] of [views.py])

    A handler is modelled by what it makes of the tournament and by its
    answer through [interaction.response].  Each handler is a run during
    which no other handler changes the tournament; [_handle_join], whose
    checks and whose [append] are on the two sides of an [await], is
    given in these two parts as well. *)

Inductive response :=
| send_message (content : string)
| defer
| edit_message (title description : string).

(** [challonge_participants], a dictionary from the id of a user to the
    participant of Challonge: [d.get(k)], [d[k] = v] and [del d[k]]. *)
Fixpoint dict_get (k : Z) (d : list (Z * Z)) : option Z :=
  match d with
  | [] => None
  | (k', v) :: rest => if k' =? k then Some v else dict_get k rest
  end.

Fixpoint dict_set (k v : Z) (d : list (Z * Z)) : list (Z * Z) :=
  match d with
  | [] => [(k, v)]
  | (k', v') :: rest => if k' =? k then (k', v) :: rest else (k', v') :: dict_set k v rest
  end.

Definition dict_del (k : Z) (d : list (Z * Z)) : list (Z * Z) :=
  List.filter (fun kv : Z * Z => negb (kv.1 =? k)) d.

Definition is_registration (s : TournamentState) : bool :=
  match s with REGISTRATION => true | _ => false end.

(** The three checks of [_handle_join]: the message of the first one that
    refuses the user, [None] when they all pass. *)
Definition join_checks (tournament : Tournament.t) (user : Member.t) : option string :=
  (* Check if user is already in tournament *)
  if existsb (fun participant => user_id participant =? Member.id user)
       (Tournament.participants tournament)
  then Some "You are already registered for this tournament!"
  (* Check if tournament is full *)
  else if Tournament.max_participants tournament
          <=? Z.of_nat (length (Tournament.participants tournament))
  then Some "Tournament is full!"
  (* Check if registration is still open *)
  else if negb (is_registration (Tournament.state tournament))
  then Some "Registration is closed for this tournament!"
  else None.

(** [_handle_join] from [Player.get_or_create] on.  [player_pk] is the
    key of the player that it returns, [challonge_create] the participant
    that Challonge creates, [None] when that call raises. *)
Definition join_append (player_pk : Z) (challonge_create : option Z)
    (tournament : Tournament.t) (user : Member.t) : Tournament.t * response :=
  let participant := TournamentPlayer.mk user player_pk [] false in
  let tournament :=
    Tournament.set_participants
      (Tournament.participants tournament ++ [participant])%list tournament in
  (* Add to Challonge *)
  let tournament :=
    match challonge_create with
    | Some challonge_participant =>
        Tournament.set_challonge_participants
          (dict_set (Member.id user) challonge_participant
             (Tournament.challonge_participants tournament)) tournament
    | None => tournament
    end in
  (tournament,
   send_message
     ("✅ You have joined the tournament! ("
      ++ str (Z.of_nat (length (Tournament.participants tournament))) ++ "/"
      ++ str (Tournament.max_participants tournament) ++ ")")).

Definition _handle_join (player_pk : Z) (challonge_create : option Z)
    (tournament : Tournament.t) (user : Member.t) : Tournament.t * response :=
  match join_checks tournament user with
  | Some message => (tournament, send_message message)
  | None => join_append player_pk challonge_create tournament user
  end.

(** [_handle_leave].  [challonge_destroy] is [false] when the call of
    Challonge raises. *)
Definition _handle_leave (challonge_destroy : bool)
    (tournament : Tournament.t) (user : Member.t) : Tournament.t * response :=
  match List.find (fun participant => user_id participant =? Member.id user)
          (Tournament.participants tournament) with
  | None => (tournament, send_message "You are not registered for this tournament!")
  | Some participant_to_remove =>
      if negb (is_registration (Tournament.state tournament))
      then (tournament, send_message "You cannot leave once the tournament has started!")
      else
        let tournament :=
          Tournament.set_participants
            (remove_participant participant_to_remove (Tournament.participants tournament))
            tournament in
        (* Remove from Challonge *)
        let tournament :=
          match dict_get (Member.id user) (Tournament.challonge_participants tournament) with
          | Some challonge_participant =>
              if challonge_destroy
              then Tournament.set_challonge_participants
                     (dict_del (Member.id user) (Tournament.challonge_participants tournament))
                     tournament
              else tournament
          | None => tournament
          end in
        (tournament, send_message "❌ You have left the tournament!")
  end.

(** [_handle_start].  [challonge_start] is [false] when the call of
    Challonge raises; the other three are those of
    [auto_select_balls_for_tournament]. *)
Definition _handle_start
    (collection : nat -> Z -> option (list BallInstance.t))
    (get_emoji : Z -> option string)
    (shuffle : nat -> list BallInstance.t -> list BallInstance.t)
    (challonge_start : bool)
    (tournament : Tournament.t) (user : Member.t) : Tournament.t * response :=
  if negb (Member.id user =? Member.id (Tournament.organizer tournament))
  then (tournament, send_message "You Dond have permmision to start this tournament!")
  else if (length (Tournament.participants tournament) <? 2)%nat
  then (tournament, send_message "Need at least 2 participants to start the tournament!")
  else if negb (is_registration (Tournament.state tournament))
  then (tournament, send_message "Tournament has already been started!")
  else
    (* Auto-select balls for all participants *)
    let tournament :=
      (auto_select_balls_for_tournament collection get_emoji shuffle tournament).1 in
    (* Start Challonge tournament *)
    if challonge_start
    then (Tournament.set_state ACTIVE tournament, defer)
    else (tournament, defer).

(** [_handle_cancel] *)
Definition _handle_cancel (tournament : Tournament.t) (user : Member.t)
  : Tournament.t * response :=
  if negb (Member.id user =? Member.id (Tournament.organizer tournament))
  then (tournament, send_message "You Dond have permission to cancel this tournament!")
  else
    (Tournament.set_state CANCELLED tournament,
     edit_message "❌ Tournament Cancelled"
       ("**" ++ Tournament.name tournament ++ "** has been cancelled.")).

(** The four buttons of the view, each with the user that presses it and
    with what the services answer during its handler. *)
Inductive press :=
| join_tournament (user : Member.t) (player_pk : Z) (challonge_create : option Z)
| leave_tournament (user : Member.t) (challonge_destroy : bool)
| start_tournament (user : Member.t)
    (collection : nat -> Z -> option (list BallInstance.t))
    (get_emoji : Z -> option string)
    (shuffle : nat -> list BallInstance.t -> list BallInstance.t)
    (challonge_start : bool)
| cancel_tournament (user : Member.t).

Definition handle (tournament : Tournament.t) (p : press) : Tournament.t * response :=
  match p with
  | join_tournament user player_pk challonge_create =>
      _handle_join player_pk challonge_create tournament user
  | leave_tournament user challonge_destroy =>
      _handle_leave challonge_destroy tournament user
  | start_tournament user collection get_emoji shuffle challonge_start =>
      _handle_start collection get_emoji shuffle challonge_start tournament user
  | cancel_tournament user => _handle_cancel tournament user
  end.

(** The tournament after a sequence of presses, one handler after the
    other. *)
Definition presses (tournament : Tournament.t) (l : list press) : Tournament.t :=
  fold_left (fun tournament p => (handle tournament p).1) l tournament.

(** The invariant of the registration: no user twice, and no more
    participants than [max_participants]. *)
Definition registration_sound (tournament : Tournament.t) : Prop :=
  NoDup (user_id <$> Tournament.participants tournament) ∧
  Z.of_nat (length (Tournament.participants tournament))
  <= Tournament.max_participants tournament.

(** A tournament as the command [create] makes it: open, with no
    participant. *)
Definition opened (max_participants : Z) : Tournament.t :=
  Tournament.mk "cup" 1 1 (Member.mk 0 "org") SINGLE_ELIMINATION max_participants
    None None true false 1 REGISTRATION [] [].

(** ** The processing of a tournament ([_process_tournament] of [cog.py]) *)

(** A match as Challonge gives it, with the keys that the code reads. *)
Module Match.
Record t := mk {
  id : Z;
  state : string;
  player1_id : option Z;
  player2_id : option Z
}.
End Match.

(** The loop over the participants that looks for the two players of a
    match, from position [i] on: [player1] and [player2] are positions
    among the participants. *)
Fixpoint find_players_from (challonge_participants : list (Z * Z)) (m : Match.t) (i : nat)
    (participants : list TournamentPlayer.t) (player1 player2 : option nat)
  : option nat * option nat :=
  match participants with
  | [] => (player1, player2)
  | participant :: rest =>
      if negb (TournamentPlayer.eliminated participant) then
        match dict_get (user_id participant) challonge_participants with
        | Some c_participant =>
            if bool_decide (Some c_participant = Match.player1_id m)
            then find_players_from challonge_participants m (S i) rest (Some i) player2
            else if bool_decide (Some c_participant = Match.player2_id m)
            then find_players_from challonge_participants m (S i) rest player1 (Some i)
            else find_players_from challonge_participants m (S i) rest player1 player2
        | None => find_players_from challonge_participants m (S i) rest player1 player2
        end
      else find_players_from challonge_participants m (S i) rest player1 player2
  end.

Definition find_players (tournament : Tournament.t) (m : Match.t) : option nat * option nat :=
  find_players_from (Tournament.challonge_participants tournament) m 0
    (Tournament.participants tournament) None None.

(** The loop over the matches: the first open match of which both
    players are found is simulated, and the loop is left. *)
Fixpoint process_matches (fuel : nat) (rng : Random.RandomSource)
    (tournament : Tournament.t) (matches : list Match.t) : outcome Tournament.t :=
  match matches with
  | [] => Done tournament
  | m :: rest =>
      if String.eqb (Match.state m) "open" then
        match find_players tournament m with
        | (Some player1, Some player2) =>
            (* Simulate battle *)
            let* (tournament, _) := _simulate_match fuel rng tournament player1 player2 in
            Done tournament  (* Process one match at a time *)
        | _ => process_matches fuel rng tournament rest
        end
      else process_matches fuel rng tournament rest
  end.

(** [_process_tournament].  [matches] and [tournament_info] are what
    Challonge answers to [matches.index] and to [tournaments.show] (the
    state of the tournament there), [None] when the call raises;
    [finalize] is [false] when [tournaments.finalize] raises. *)
Definition _process_tournament (fuel : nat) (rng : Random.RandomSource)
    (matches : option (list Match.t)) (tournament_info : option string) (finalize : bool)
    (tournament : Tournament.t) : outcome Tournament.t :=
  match matches with
  | None => Done tournament
  | Some matches =>
      let* tournament := process_matches fuel rng tournament matches in
      (* Check if tournament is complete *)
      match tournament_info with
      | None => Done tournament
      | Some state =>
          if String.eqb state "awaiting_review" then
            if finalize then Done (Tournament.set_state FINISHED tournament)
            else Done tournament
          else Done tournament
      end
  end.

(** Three entrants in the bracket of Challonge. *)
Definition bracket : Tournament.t :=
  Tournament.set_challonge_participants [(1, 101); (2, 102); (3, 103)]
    (cup [entrant 1 "ann" [tball "A" 10 5]; entrant 2 "bob" [tball "B" 7 4];
          entrant 3 "cat" [tball "C" 9 9]]).

Example spec_example_1 :
  simulate_tournament_battle 5 steady [tball "A" 100 50] [tball "B" 10 0] "ann" "bob"
  = Done (BattleResult.mk "ann" 1 ["Turn 1: ann's A has killed bob's B"], 3%nat).
Proof. vm_compute. reflexivity. Qed.

(** ** Living balls *)

Lemma elem_of_alive_from (balls : list BattleBall.t) (k i : nat) :
  i ∈ alive_from k balls ↔
  ∃ ball, (k ≤ i)%nat ∧ balls !! (i - k)%nat = Some ball ∧ BattleBall.dead ball = false.
Proof.
  revert k. induction balls as [|b rest IH]; intros k; simpl.
  - split; [intros H; inversion H | intros (ball & _ & H & _); discriminate].
  - destruct (BattleBall.dead b) eqn:Hb.
    + rewrite IH. split.
      * intros (ball & Hk & Hl & Hd). exists ball. split; [lia|]. split; [|done].
        replace (i - k)%nat with (S (i - S k)) by lia. done.
      * intros (ball & Hk & Hl & Hd).
        destruct (i - k)%nat as [|n] eqn:Hn; simpl in Hl; [congruence|].
        exists ball. split; [lia|]. split; [|done].
        replace (i - S k)%nat with n by lia. done.
    + rewrite elem_of_cons, IH. split.
      * intros [-> | (ball & Hk & Hl & Hd)].
        -- exists b. rewrite Nat.sub_diag. done.
        -- exists ball. split; [lia|]. split; [|done].
           replace (i - k)%nat with (S (i - S k)) by lia. done.
      * intros (ball & Hk & Hl & Hd).
        destruct (i - k)%nat as [|n] eqn:Hn; simpl in Hl.
        -- left. lia.
        -- right. exists ball. split; [lia|]. split; [|done].
           replace (i - S k)%nat with n by lia. done.
Qed.

Lemma elem_of_alive (balls : list BattleBall.t) (i : nat) :
  i ∈ alive balls ↔ ∃ ball, balls !! i = Some ball ∧ BattleBall.dead ball = false.
Proof.
  unfold alive. rewrite elem_of_alive_from. rewrite Nat.sub_0_r.
  split; [intros (b & _ & H); eauto | intros (b & H); exists b; split; [lia | done]].
Qed.

Lemma any_alive_true (balls : list BattleBall.t) :
  any_alive balls = true ↔ ∃ i ball, balls !! i = Some ball ∧ BattleBall.dead ball = false.
Proof.
  unfold any_alive. rewrite existsb_exists. split.
  - intros (b & Hin & Hd). apply list_elem_of_In, list_elem_of_lookup in Hin as [i Hi].
    exists i, b. split; [done|]. by destruct (BattleBall.dead b).
  - intros (i & b & Hi & Hd). exists b. split.
    + apply list_elem_of_In, list_elem_of_lookup. eauto.
    + by rewrite Hd.
Qed.

Lemma all_dead_any_alive (balls : list BattleBall.t) :
  all_dead balls = negb (any_alive balls).
Proof.
  unfold all_dead, any_alive. induction balls as [|b rest IH]; simpl; [done|].
  rewrite IH. by destruct (BattleBall.dead b).
Qed.

Lemma any_alive_alive (balls : list BattleBall.t) :
  any_alive balls = true ↔ alive balls ≠ [].
Proof.
  rewrite any_alive_true. split.
  - intros (i & b & Hi & Hd) Hnil.
    assert (i ∈ alive balls) as Hin by (apply elem_of_alive; eauto).
    rewrite Hnil in Hin. inversion Hin.
  - intros Hne. destruct (alive balls) as [|i l] eqn:Hal; [done|].
    assert (i ∈ alive balls) as Hin by (rewrite Hal; left).
    apply elem_of_alive in Hin as (b & ? & ?). eauto.
Qed.

(** The first living ball heads the snapshot. *)
Lemma alive_head (balls : list BattleBall.t) (i : nat) (rest : list nat) :
  alive balls = i :: rest →
  ∃ ball, balls !! i = Some ball ∧ BattleBall.dead ball = false.
Proof.
  intros H. apply elem_of_alive. rewrite H. left.
Qed.

(** ** [random.choice] *)

Lemma choice_nonempty {A : Type} (rng : Random.RandomSource) (pos : nat) (seq : list A) :
  seq ≠ [] → ∃ x, Random.choice rng pos seq = Done x ∧ x ∈ seq.
Proof.
  intros Hne. unfold Random.choice.
  assert (Random.choice_pick rng pos mod length seq < length seq)%nat as Hlt.
  { apply Nat.mod_upper_bound. destruct seq; simpl; [done | lia]. }
  apply lookup_lt_is_Some_2 in Hlt as [x Hx]. rewrite Hx.
  exists x. split; [done|]. apply list_elem_of_lookup. eauto.
Qed.

Lemma choice_empty {A : Type} (rng : Random.RandomSource) (pos : nat) :
  Random.choice rng pos (@nil A) = Raise IndexError.
Proof. unfold Random.choice. by rewrite lookup_nil. Qed.

Lemma choice_Done {A : Type} (rng : Random.RandomSource) (pos : nat) (seq : list A) x :
  Random.choice rng pos seq = Done x → x ∈ seq.
Proof.
  unfold Random.choice. destruct (seq !! _) eqn:Hl; [|discriminate].
  intros [= <-]. apply list_elem_of_lookup. eauto.
Qed.

(** ** Rounding *)

Lemma rne_lower a b i : 0 < b -> i * b <= a -> i <= Float.rne a b.
Proof.
  intros Hb H. unfold Float.rne.
  assert (i <= a / b) by (apply Z.div_le_lower_bound; lia).
  destruct (2 * (a mod b) ?= b); [destruct (Z.even (a / b))|..]; lia.
Qed.

Lemma rne_upper a b i : 0 < b -> a <= i * b -> Float.rne a b <= i.
Proof.
  intros Hb H. unfold Float.rne.
  pose proof (Z.div_mod a b ltac:(lia)) as Hdm.
  pose proof (Z.mod_pos_bound a b Hb) as Hm.
  assert (a / b <= i) as Hle by (apply Z.div_le_upper_bound; lia).
  destruct (Z.eq_dec (a / b) i) as [Heq | Hne].
  - assert (a mod b = 0) as Hr by nia.
    rewrite Hr. replace (2 * 0 ?= b) with Lt by (symmetry; apply Z.compare_lt_iff; lia).
    lia.
  - destruct (2 * (a mod b) ?= b); [destruct (Z.even (a / b))|..]; lia.
Qed.

Lemma rne_scale a b c : 0 < b -> 0 < c -> Float.rne (a * c) (b * c) = Float.rne a b.
Proof.
  intros Hb Hc. unfold Float.rne.
  rewrite Z.div_mul_cancel_r by lia. rewrite Z.mul_mod_distr_r by lia.
  replace (2 * (a mod b * c) ?= b * c) with (2 * (a mod b) ?= b); [done|].
  symmetry. destruct (Z.compare_spec (2 * (a mod b)) b) as [H | H | H].
  - apply Z.compare_eq_iff. nia.
  - apply Z.compare_lt_iff. nia.
  - apply Z.compare_gt_iff. nia.
Qed.

Lemma pow2_pos k : 0 < 2 ^ k \/ k < 0.
Proof. destruct (Z.le_gt_cases 0 k); [left; by apply Z.pow_pos_nonneg | by right]. Qed.

(** The mantissa, in units. *)
Lemma nearest_units n d :
  0 < d ->
  let s := Z.max (Z.log2 (n * 2 ^ 1074 / d) - 52) 0 in
  Float.nearest n d = (Float.rne (n * 2 ^ 1074) (d * 2 ^ s), s).
Proof.
  intros Hd s. unfold Float.nearest. fold s. f_equal.
  assert (0 <= s) as Hs by (unfold s; lia).
  destruct (Z.leb_spec s 1074) as [Hle | Hgt].
  - replace (2 ^ 1074) with (2 ^ (1074 - s) * 2 ^ s)
      by (rewrite <- Z.pow_add_r by lia; f_equal; lia).
    rewrite Z.mul_assoc. rewrite rne_scale; [done | done |].
    apply Z.pow_pos_nonneg; lia.
  - replace (2 ^ s) with (2 ^ (s - 1074) * 2 ^ 1074)
      by (rewrite <- Z.pow_add_r by lia; f_equal; lia).
    rewrite Z.mul_assoc. rewrite rne_scale; [done | |].
    + apply Z.mul_pos_pos; [done|]. apply Z.pow_pos_nonneg; lia.
    + apply Z.pow_pos_nonneg; lia.
Qed.

Lemma nearest_nonneg n d m s :
  0 <= n -> 0 < d -> Float.nearest n d = (m, s) -> 0 <= m /\ 0 <= s.
Proof.
  intros Hn Hd H. rewrite nearest_units in H by done. injection H as <- <-.
  split; [|lia]. apply rne_lower.
  - apply Z.mul_pos_pos; [done|]. apply Z.pow_pos_nonneg; lia.
  - assert (0 < 2 ^ 1074) by (apply Z.pow_pos_nonneg; lia). nia.
Qed.


(** A number that is at most [2 ^ k] rounds to at most [2 ^ k]. *)
Lemma nearest_le n d m s k :
  0 <= k -> 0 < d -> 0 <= n <= 2 ^ k * d -> Float.nearest n d = (m, s) ->
  m * 2 ^ s <= 2 ^ (k + 1074) /\ s <= k + 1074.
Proof.
  intros Hk Hd Hn H. rewrite nearest_units in H by done. injection H as <- <-.
  set (N := n * 2 ^ 1074). set (L := Z.log2 (N / d)).
  assert (0 < 2 ^ k) as Hpk by (apply Z.pow_pos_nonneg; lia).
  assert (0 < 2 ^ 1074) as Hpu by (apply Z.pow_pos_nonneg; lia).
  assert (0 < 2 ^ (k + 1074)) as Hpk' by (apply Z.pow_pos_nonneg; lia).
  assert (N <= 2 ^ (k + 1074) * d) as HN.
  { rewrite Z.pow_add_r by lia. unfold N. nia. }
  assert (N / d <= 2 ^ (k + 1074)) as Ht.
  { apply Z.div_le_upper_bound; [done|]. lia. }
  assert (L <= k + 1074) as HL.
  { unfold L. rewrite <- (Z.log2_pow2 (k + 1074)) by lia. by apply Z.log2_le_mono. }
  set (s := Z.max (L - 52) 0).
  assert (0 <= s <= k + 1074) as Hs by (unfold s; lia).
  assert (0 < 2 ^ s) as Hps by (apply Z.pow_pos_nonneg; lia).
  assert (Float.rne N (d * 2 ^ s) <= 2 ^ (k + 1074 - s)) as Hm.
  { apply rne_upper; [by apply Z.mul_pos_pos|].
    replace (2 ^ (k + 1074 - s) * (d * 2 ^ s)) with (2 ^ (k + 1074) * d); [done|].
    replace (2 ^ (k + 1074)) with (2 ^ (k + 1074 - s) * 2 ^ s)
      by (rewrite <- Z.pow_add_r by lia; f_equal; lia).
    ring. }
  split; [|lia].
  replace (2 ^ (k + 1074)) with (2 ^ (k + 1074 - s) * 2 ^ s)
    by (rewrite <- Z.pow_add_r by lia; f_equal; lia).
  apply Z.mul_le_mono_nonneg_r; lia.
Qed.

(** [of_units m s] is [m * 2 ^ s / 2 ^ 1074]. *)
Lemma of_units_spec m s :
  0 <= s ->
  Qnum (Float.of_units m s) * 2 ^ 1074
  = m * 2 ^ s * Z.pos (Qden (Float.of_units m s)).
Proof.
  intros Hs. unfold Float.of_units. destruct (Z.leb_spec 1074 s) as [Hle | Hgt]; simpl.
  - replace (2 ^ s) with (2 ^ (s - 1074) * 2 ^ 1074)
      by (rewrite <- Z.pow_add_r by lia; f_equal; lia).
    ring.
  - assert (0 < 2 ^ (1074 - s)) by (apply Z.pow_pos_nonneg; lia).
    rewrite Z2Pos.id by done.
    replace (2 ^ 1074) with (2 ^ s * 2 ^ (1074 - s))
      by (rewrite <- Z.pow_add_r by lia; f_equal; lia).
    ring.
Qed.

Lemma round_Some x y :
  Float.round x = Some y ->
  ∃ m s,
    Float.nearest (Z.abs (Qnum x)) (Z.pos (Qden x)) = (m, s) ∧
    0 <= m ∧ 0 <= s ∧
    y = Float.of_units (Z.sgn (Qnum x) * m) s.
Proof.
  unfold Float.round.
  destruct (Float.nearest _ _) as [m s] eqn:Hn.
  destruct (_ <=? _); [done|]. intros [= <-].
  destruct (nearest_nonneg _ _ _ _ (Z.abs_nonneg _) (Pos2Z.is_pos _) Hn). by exists m, s.
Qed.

Lemma round_nonneg x y : Float.round x = Some y -> (0 <= x)%Q -> (0 <= y)%Q.
Proof.
  intros (m & s & _ & Hm & Hs & ->)%round_Some Hx.
  pose proof (of_units_spec (Z.sgn (Qnum x) * m) s Hs) as Hu.
  assert (0 < 2 ^ 1074) by (apply Z.pow_pos_nonneg; lia).
  assert (0 <= 2 ^ s) by (apply Z.pow_nonneg; lia).
  unfold Qle in *. cbn [Qnum Qden] in *.
  assert (0 <= Z.sgn (Qnum x)) as Hsg by lia.
  assert (0 <= Z.sgn (Qnum x) * m * 2 ^ s) as Hp
    by (repeat apply Z.mul_nonneg_nonneg; lia).
  set (P := 2 ^ 1074) in *. clearbody P.
  set (v := Z.sgn (Qnum x) * m * 2 ^ s) in *. clearbody v.
  set (yn := Qnum _) in *. set (yd := Z.pos (Qden _)) in *.
  assert (0 < yd) by (unfold yd; lia). clearbody yn yd. nia.
Qed.

Lemma round_nonpos x y : Float.round x = Some y -> (x <= 0)%Q -> (y <= 0)%Q.
Proof.
  intros (m & s & _ & Hm & Hs & ->)%round_Some Hx.
  pose proof (of_units_spec (Z.sgn (Qnum x) * m) s Hs) as Hu.
  assert (0 < 2 ^ 1074) by (apply Z.pow_pos_nonneg; lia).
  assert (0 <= 2 ^ s) by (apply Z.pow_nonneg; lia).
  unfold Qle in *. cbn [Qnum Qden] in *.
  assert (Z.sgn (Qnum x) <= 0) as Hsg by lia.
  assert (0 <= m * 2 ^ s) as Hp by (apply Z.mul_nonneg_nonneg; lia).
  assert (Z.sgn (Qnum x) * m * 2 ^ s <= 0) as Hv.
  { rewrite <- Z.mul_assoc. apply Z.mul_nonpos_nonneg; lia. }
  set (P := 2 ^ 1074) in *. clearbody P.
  set (v := Z.sgn (Qnum x) * m * 2 ^ s) in *. clearbody v.
  set (yn := Qnum _) in *. set (yd := Z.pos (Qden _)) in *.
  assert (0 < yd) by (unfold yd; lia). clearbody yn yd. nia.
Qed.

(** Zero rounds to zero. *)
Lemma round_zero x y : Float.round x = Some y -> Qnum x = 0 -> Qnum y = 0.
Proof.
  intros (m & s & _ & Hm & Hs & ->)%round_Some Hx. rewrite Hx. simpl.
  unfold Float.of_units. by destruct (_ <=? _).
Qed.


(** A number of size at most [2 ^ k], for [k] up to 1023, rounds to a
    float, of size at most [2 ^ k]. *)
Lemma round_le x k :
  0 <= k <= 1023 ->
  Z.abs (Qnum x) <= 2 ^ k * Z.pos (Qden x) ->
  ∃ y, Float.round x = Some y ∧ Z.abs (Qnum y) <= 2 ^ k * Z.pos (Qden y).
Proof.
  intros Hk Hx. unfold Float.round.
  destruct (Float.nearest _ _) as [m s] eqn:Hn.
  destruct (nearest_nonneg _ _ _ _ (Z.abs_nonneg _) (Pos2Z.is_pos _) Hn) as [Hm Hs].
  apply (nearest_le _ _ _ _ k) in Hn as [Hn Hsk]; [|lia|lia|lia].
  assert (0 < 2 ^ k) as Hpk by (apply Z.pow_pos_nonneg; lia).
  assert (0 < 2 ^ 1074) as Hpu by (apply Z.pow_pos_nonneg; lia).
  assert (0 < 2 ^ s) as Hps by (apply Z.pow_pos_nonneg; lia).
  assert (Z.log2 m + s < 1024 + 1074) as Hlog.
  { destruct (Z.eq_dec m 0) as [-> | Hne]; [simpl; lia|].
    assert (2 ^ (Z.log2 m) <= m) by (apply Z.log2_spec; lia).
    assert (2 ^ (Z.log2 m + s) <= 2 ^ (k + 1074)).
    { rewrite Z.pow_add_r by (try apply Z.log2_nonneg; lia). nia. }
    apply Z.pow_le_mono_r_iff in H0; lia. }
  apply Z.leb_gt in Hlog. rewrite Hlog. eexists. split; [done|].
  pose proof (of_units_spec (Z.sgn (Qnum x) * m) s Hs) as Hu.
  rewrite Z.pow_add_r in Hn by lia.
  set (y := Float.of_units _ _) in *.
  assert (Z.abs (Qnum y) * 2 ^ 1074 = m * 2 ^ s * Z.abs (Z.sgn (Qnum x)) * Z.pos (Qden y))
    as Habs.
  { rewrite <- (Z.abs_eq (2 ^ 1074)) at 1 by lia. rewrite <- Z.abs_mul, Hu.
    rewrite !Z.abs_mul. rewrite (Z.abs_eq m), (Z.abs_eq (2 ^ s)) by lia.
    rewrite (Z.abs_eq (Z.pos _)) by lia. ring. }
  assert (Z.abs (Z.sgn (Qnum x)) <= 1) by lia.
  nia.
Qed.

(** The floats nearest to [0.1], [1.2] and [1/3], which are the ratios
    that [float.as_integer_ratio] gives; a tie goes to the even float;
    the largest integer that has a float, and the first that has none. *)
Example round_examples :
  option_map Qred (Float.round (1 # 10)) = Some (3602879701896397 # 36028797018963968) ∧
  option_map Qred (Float.round (12 # 10)) = Some (5404319552844595 # 4503599627370496) ∧
  option_map Qred (Float.round (1 # 3)) = Some (6004799503160661 # 18014398509481984) ∧
  option_map Qred (Float.round (inject_Z (2 ^ 53 + 1))) = Some (inject_Z (2 ^ 53)) ∧
  option_map Qred (Float.round (inject_Z (2 ^ 53 + 3))) = Some (inject_Z (2 ^ 53 + 4)) ∧
  option_map Qred (Float.round (inject_Z (2 ^ 1024 - 2 ^ 970 - 1)))
  = Some (inject_Z (2 ^ 1024 - 2 ^ 971)) ∧
  Float.round (inject_Z (2 ^ 1024 - 2 ^ 970)) = None.
Proof. repeat split; by vm_compute. Qed.

(** ** The damage roll *)

Lemma int_nonneg (x : Q) : (0 <= x)%Q -> int x = Qfloor x.
Proof.
  destruct x as [n d]. unfold Qle, int, Qfloor. simpl. intros H.
  apply Z.quot_div_nonneg; lia.
Qed.

Lemma int_nonpos (x : Q) : (x <= 0)%Q -> int x = Qceiling x.
Proof.
  destruct x as [n d]. unfold Qle, int, Qceiling, Qfloor, Qopp. simpl. intros H.
  replace n with (- - n) at 1 by lia.
  rewrite Z.quot_opp_l by lia. f_equal.
  apply Z.quot_div_nonneg; lia.
Qed.

Lemma int_sign (x : Q) : (0 <= x)%Q -> 0 <= int x.
Proof.
  destruct x as [n d]. unfold Qle, int. simpl. intros H.
  apply Z.quot_pos; lia.
Qed.

Lemma uniform_nonneg rng pos : Random.in_range rng -> (0 <= Random.uniform_08_12 rng pos)%Q.
Proof.
  intros Hr. destruct (Hr pos) as (_ & Hlo & _).
  eapply Qle_trans; [|exact Hlo]. by unfold Qle.
Qed.

(** What a damage roll that returns has computed: the float of the
    attack, the float nearest to its product with the multiplier, and
    the integer part of that float. *)
Lemma get_damage_Done rng pos ball d pos' :
  get_damage rng pos ball = Done (d, pos') ->
  pos' = S pos ∧
  ∃ a p,
    Float.round (inject_Z (BattleBall.attack ball)) = Some a ∧
    Float.round (a * Random.uniform_08_12 rng pos) = Some p ∧
    d = int p.
Proof.
  unfold get_damage, float_of_int, int_of_float, float_mul.
  destruct (Float.round (inject_Z _)) as [a|]; simpl; [|done].
  destruct (Float.round (a * _)) as [p|] eqn:Hp; simpl; [|done].
  intros [= <- <-]. split; [done|]. by exists a, p.
Qed.

(** A damage roll returns or raises [OverflowError]. *)
Lemma get_damage_cases rng pos ball :
  (∃ d, get_damage rng pos ball = Done (d, S pos)) ∨
  get_damage rng pos ball = Raise OverflowError.
Proof.
  unfold get_damage, float_of_int, int_of_float, float_mul.
  destruct (Float.round (inject_Z _)) as [a|]; simpl; [|by right].
  destruct (Float.round (a * _)) as [p|]; simpl; [left; by eexists | by right].
Qed.

(** Of the ball, a damage roll reads the attack only. *)
Lemma get_damage_attack rng pos ball ball' :
  BattleBall.attack ball' = BattleBall.attack ball ->
  get_damage rng pos ball' = get_damage rng pos ball.
Proof. unfold get_damage. by intros ->. Qed.

(** A damage roll returns when the attack is at most [max_attack] in
    size. *)
Lemma get_damage_returns rng pos ball :
  Random.in_range rng ->
  Z.abs (BattleBall.attack ball) <= max_attack ->
  ∃ d, get_damage rng pos ball = Done (d, S pos).
Proof.
  intros Hr Ha. destruct (Hr pos) as (_ & Hlo & Hhi).
  unfold get_damage, float_of_int, int_of_float, float_mul.
  destruct (round_le (inject_Z (BattleBall.attack ball)) 1022) as (a & -> & Hb);
    [lia | unfold max_attack in Ha; simpl; lia |].
  simpl.
  destruct (round_le (a * Random.uniform_08_12 rng pos) 1023) as (p & -> & _);
    [lia | | simpl; by eexists].
  destruct (Random.uniform_08_12 rng pos) as [nu du].
  destruct a as [na da]. unfold Qle in Hlo, Hhi. cbn [Qnum Qden Qmult] in *.
  replace (2 ^ 1023) with (2 ^ 1022 * 2)
    by (change 1023 with (Z.succ 1022); rewrite Z.pow_succ_r by done; apply Z.mul_comm).
  set (P := 2 ^ 1022) in *. assert (0 < P) as HP by (by apply Z.pow_pos_nonneg).
  clearbody P. rewrite Z.abs_mul, Pos2Z.inj_mul.
  assert (0 <= nu <= 2 * Z.pos du) as Hnu by lia.
  rewrite (Z.abs_eq nu) by lia.
  assert (Z.abs na * nu <= P * Z.pos da * nu) by (apply Z.mul_le_mono_nonneg_r; lia).
  assert (P * Z.pos da * nu <= P * Z.pos da * (2 * Z.pos du))
    by (apply Z.mul_le_mono_nonneg_l; lia).
  lia.
Qed.

Lemma get_damage_nonneg rng pos ball d pos' :
  Random.in_range rng -> 0 <= BattleBall.attack ball ->
  get_damage rng pos ball = Done (d, pos') -> 0 <= d.
Proof.
  intros Hr Ha (_ & a & p & Hfa & Hfp & ->)%get_damage_Done.
  apply int_sign. apply (round_nonneg _ _ Hfp).
  apply Qmult_le_0_compat; [|by apply uniform_nonneg].
  apply (round_nonneg _ _ Hfa). unfold Qle. simpl. lia.
Qed.


(** The products of the code are rounded: the float nearest to 1.2 is
    a little less than 1.2, and ten times this float rounds to the float
    12, where the exact product is less than 12.  An attack too large
    for a float makes the roll raise, and so does a product too large for
    one. *)
Example get_damage_rounds :
  get_damage (scaling (5404319552844595 # 4503599627370496)) 0 (bball "ann" "A" 10 10)
  = Done (12, 1%nat) ∧
  int (inject_Z 10 * (5404319552844595 # 4503599627370496)) = 11 ∧
  get_damage steady 0 (bball "ann" "A" 10 (10 ^ 400)) = Raise OverflowError ∧
  get_damage (scaling (5404319552844595 # 4503599627370496)) 0
    (bball "ann" "A" 10 (7 * 2 ^ 1021))
  = Raise OverflowError.
Proof. repeat split; by vm_compute. Qed.

(** ** One blow *)

Lemma take_damage_fields (d : Z) (enemy : BattleBall.t) :
  BattleBall.name (take_damage d enemy) = BattleBall.name enemy ∧
  BattleBall.owner (take_damage d enemy) = BattleBall.owner enemy ∧
  BattleBall.attack (take_damage d enemy) = BattleBall.attack enemy ∧
  BattleBall.emoji (take_damage d enemy) = BattleBall.emoji enemy.
Proof. unfold take_damage. simpl. by destruct (_ <=? 0). Qed.

Lemma take_damage_health (d : Z) (enemy : BattleBall.t) :
  BattleBall.health (take_damage d enemy) = Z.max 0 (BattleBall.health enemy - d).
Proof.
  unfold take_damage. simpl. destruct (Z.leb_spec (BattleBall.health enemy - d) 0); simpl; lia.
Qed.

Lemma take_damage_dead (d : Z) (enemy : BattleBall.t) :
  BattleBall.dead (take_damage d enemy)
  = (BattleBall.health enemy - d <=? 0) || BattleBall.dead enemy.
Proof. unfold take_damage. simpl. by destruct (_ <=? 0). Qed.

(** What [attack] does when it returns: it picks a living ball of the
    enemy roster, makes two calls to the random source and replaces that
    ball by what [take_damage] leaves of it. *)
Lemma attack_Done rng pos current_ball enemy_balls enemy_balls' text pos' :
  attack rng pos current_ball enemy_balls = Done (enemy_balls', text, pos') →
  ∃ target enemy d,
    enemy_balls !! target = Some enemy ∧ BattleBall.dead enemy = false ∧
    target ∈ alive enemy_balls ∧
    Random.choice rng pos (alive enemy_balls) = Done target ∧
    get_damage rng (S pos) current_ball = Done (d, S (S pos)) ∧
    enemy_balls' = <[target := take_damage d enemy]> enemy_balls ∧
    text = (if BattleBall.dead (take_damage d enemy)
            then killed_text current_ball (take_damage d enemy)
            else dealt_text current_ball d (take_damage d enemy)) ∧
    pos' = S (S pos).
Proof.
  unfold attack. intros H.
  destruct (Random.choice rng pos (alive enemy_balls)) as [target| | |] eqn:Hc;
    simpl in H; try discriminate.
  pose proof (choice_Done _ _ _ _ Hc) as Hin.
  pose proof Hin as Hin'. apply elem_of_alive in Hin' as (enemy & Hl & Hd).
  rewrite Hl in H. simpl in H.
  destruct (get_damage rng (S pos) current_ball) as [[d p]| | |] eqn:Hg;
    simpl in H; try discriminate.
  pose proof (get_damage_Done _ _ _ _ _ Hg) as [-> _].
  injection H as <- <- <-.
  exists target, enemy, d. done.
Qed.

(** When the enemy roster has a living ball, [attack] returns, unless its
    damage roll raises [OverflowError]. *)
Lemma attack_returns rng pos current_ball enemy_balls :
  any_alive enemy_balls = true →
  (∃ res, attack rng pos current_ball enemy_balls = Done res) ∨
  (attack rng pos current_ball enemy_balls = Raise OverflowError ∧
   get_damage rng (S pos) current_ball = Raise OverflowError).
Proof.
  intros Ha. apply any_alive_alive in Ha.
  destruct (choice_nonempty rng pos _ Ha) as (target & Hc & Hin).
  apply elem_of_alive in Hin as (enemy & Hl & Hd).
  unfold attack. rewrite Hc. simpl. rewrite Hl. simpl.
  destruct (get_damage_cases rng (S pos) current_ball) as [[d ->] | ->]; simpl;
    [left; by eexists | by right].
Qed.

(** ** The blocks of the loop body *)

(** The three ways through a block: the attacker is dead and nothing
    happens; a miss, which continues with the next pair; a blow, which
    breaks out of the round when it leaves no living enemy. *)
Lemma attempt_Done rng who mine theirs fr fr' fl :
  attempt rng who mine theirs fr = Done (fr', fl) ->
  ∃ ball other,
    balls_of who fr !! mine = Some ball ∧
    balls_of (opponent who) fr !! theirs = Some other ∧
    ((BattleBall.dead ball = true ∧ fr' = fr ∧ fl = Fallthrough) ∨
     (BattleBall.dead ball = false ∧
      Random.randint_0_100 rng (Frame.pos fr) <= 30 ∧
      fr' = miss_frame fr ball other ∧ fl = Continue) ∨
     (BattleBall.dead ball = false ∧
      30 < Random.randint_0_100 rng (Frame.pos fr) ∧
      ∃ target enemy d,
        balls_of (opponent who) fr !! target = Some enemy ∧
        BattleBall.dead enemy = false ∧
        Random.choice rng (S (Frame.pos fr)) (alive (balls_of (opponent who) fr))
          = Done target ∧
        get_damage rng (S (S (Frame.pos fr))) ball
          = Done (d, S (S (S (Frame.pos fr)))) ∧
        fr' = blow_frame who fr ball d target enemy ∧
        fl = if all_dead (balls_of (opponent who) fr') then Break else Fallthrough)).
Proof.
  unfold attempt. intros H.
  destruct (balls_of who fr !! mine) as [ball|] eqn:Hb; [|discriminate].
  destruct (balls_of (opponent who) fr !! theirs) as [other|] eqn:Ho; [|discriminate].
  exists ball, other. split; [done|]. split; [done|].
  destruct (BattleBall.dead ball) eqn:Hd.
  { left. by injection H as <- <-. }
  right. unfold random_events in H.
  destruct (Z.leb_spec (Random.randint_0_100 rng (Frame.pos fr)) 30) as [Hr|Hr];
    simpl in H.
  { left. by injection H as <- <-. }
  right. split; [done|]. split; [done|].
  destruct (attack rng (S (Frame.pos fr)) ball (balls_of (opponent who) fr))
    as [[[enemy_balls text] pos']| | |] eqn:Ha; simpl in H; try discriminate.
  apply attack_Done in Ha as (target & enemy & d & Hl & Hde & _ & Hc & Hg & Heq & Ht & Hp).
  exists target, enemy, d.
  assert (with_balls (opponent who) enemy_balls
            (Frame.mk (Frame.p1_balls fr) (Frame.p2_balls fr) (Frame.turn fr + 1) pos'
               (Frame.yielded fr ++ [turn_line (Frame.turn fr + 1) text]))
          = blow_frame who fr ball d target enemy) as Hfr.
  { unfold blow_frame, blow_text. simpl. by rewrite Heq, Ht, Hp. }
  rewrite Hfr in H.
  assert (balls_of (opponent who) (blow_frame who fr ball d target enemy) = enemy_balls)
    as Hballs.
  { rewrite <- Hfr. by destruct who. }
  split; [done|]. split; [done|]. split; [done|]. split; [done|].
  destruct (forallb BattleBall.dead enemy_balls) eqn:Hall;
    injection H as <- <-; (split; [done|]); unfold all_dead; by rewrite Hballs, Hall.
Qed.

(** A block that changes the frame is an event. *)
Lemma attempt_event rng who mine theirs fr fr' fl :
  attempt rng who mine theirs fr = Done (fr', fl) ->
  fr' = fr ∨ event rng who fr fr'.
Proof.
  intros H. apply attempt_Done in H
    as (ball & other & Hb & Ho & [(_ & -> & _) | [(Hd & Hr & -> & _) | (Hd & Hr & H)]]).
  - by left.
  - right. apply event_miss; [|done..]. apply list_elem_of_lookup. eauto.
  - destruct H as (target & enemy & d & Hl & Hde & _ & Hg & -> & _).
    right. apply event_blow; [|done..]. apply list_elem_of_lookup. eauto.
Qed.

(** Carrying a relation on frames through the loops. *)
Section lifting.
Variable rng : Random.RandomSource.
Variable R : Frame.t -> Frame.t -> Prop.
Hypothesis R_refl : forall fr, R fr fr.
Hypothesis R_trans : forall fr1 fr2 fr3, R fr1 fr2 -> R fr2 fr3 -> R fr1 fr3.
Hypothesis R_event : forall who fr fr', event rng who fr fr' -> R fr fr'.

Lemma attempt_lift who mine theirs fr fr' fl :
  attempt rng who mine theirs fr = Done (fr', fl) -> R fr fr'.
Proof.
  intros H. apply attempt_event in H as [-> | H]; [apply R_refl | by eapply R_event].
Qed.

Lemma for_pairs_lift pairs fr fr' :
  for_pairs rng pairs fr = Done fr' -> R fr fr'.
Proof.
  revert fr. induction pairs as [|[i j] rest IH]; intros fr H; simpl in H.
  { injection H as <-. apply R_refl. }
  destruct (attempt rng Player1 i j fr) as [[fr1 fl1]| | |] eqn:H1; simpl in H;
    try discriminate.
  apply attempt_lift in H1.
  destruct fl1.
  - destruct (attempt rng Player2 j i fr1) as [[fr2 fl2]| | |] eqn:H2; simpl in H;
      try discriminate.
    apply attempt_lift in H2.
    assert (R fr fr2) as H12 by (by eapply R_trans).
    destruct fl2; [apply IH in H | apply IH in H | injection H as <-];
      try done; by eapply R_trans.
  - apply IH in H. by eapply R_trans.
  - by injection H as <-.
Qed.

Lemma while_loop_lift fuel fr fr' :
  while_loop fuel rng fr = Done fr' -> R fr fr'.
Proof.
  revert fr. induction fuel as [|fuel IH]; intros fr H; simpl in H.
  - destruct (_ && _); [discriminate | injection H as <-; apply R_refl].
  - destruct (_ && _); [| injection H as <-; apply R_refl].
    destruct (for_pairs rng _ fr) as [fr1| | |] eqn:H1; simpl in H; try discriminate.
    apply for_pairs_lift in H1. apply IH in H. by eapply R_trans.
Qed.
End lifting.

(** ** The stalemate guard *)

Lemma no_damage_of_tournament_balls p1 p2 n1 n2 w t :
  Forall (fun ball => TournamentBall.attack ball <= 0) (p1 ++ p2) ->
  no_damage (BattleInstance.mk (map (to_battle_ball n1) p1) (map (to_battle_ball n2) p2) w t)
  = true.
Proof.
  intros H. unfold no_damage. simpl. apply forallb_forall. intros b Hin.
  apply in_app_or in Hin. rewrite Forall_app in H. destruct H as [H1 H2].
  rewrite Forall_forall in H1, H2.
  destruct Hin as [Hin | Hin]; apply in_map_iff in Hin as (tb & <- & Hin);
    apply list_elem_of_In in Hin; simpl; apply Z.leb_le; auto.
Qed.

Lemma stalemate_run fuel rng player1_balls player2_balls n1 n2 :
  Forall (fun ball => TournamentBall.attack ball <= 0) (player1_balls ++ player2_balls) ->
  simulate_tournament_battle fuel rng player1_balls player2_balls n1 n2
  = Done (BattleResult.mk EmptyString 0 [stalemate_line], 0%nat).
Proof.
  intros H. unfold simulate_tournament_battle, gen_battle.
  by rewrite no_damage_of_tournament_balls.
Qed.

(** C1.  When every ball of both rosters has [attack <= 0], the battle is
    over before the loop is entered: whatever the fuel and the random
    source, the log is the single stalemate line, the winner is the empty
    string, the turn count is 0, and no call was made to the random
    source. *)
Theorem stalemate_short_circuit fuel rng player1_balls player2_balls n1 n2 :
  Forall (fun ball => TournamentBall.attack ball <= 0) (player1_balls ++ player2_balls) ->
  simulate_tournament_battle fuel rng player1_balls player2_balls n1 n2
  = Done (BattleResult.mk EmptyString 0 [stalemate_line], 0%nat).
Proof. apply stalemate_run. Qed.

Lemma stalemate_short_circuit_witness :
  simulate_tournament_battle 0 always_miss [tball "A" 10 0] [tball "B" 7 (-3)] "ann" "bob"
  = Done (BattleResult.mk EmptyString 0 [stalemate_line], 0%nat).
Proof.
  apply stalemate_short_circuit. simpl. repeat constructor; simpl; lia.
Defined.

(** ** The damage roll, as the specification has it *)

(** C4, as the code has it.  A damage roll makes one call to the random
    source.  When it returns, the damage is the integer part of a float:
    [attack] is made a float, its product with [U] is rounded to the
    nearest float, and this float is truncated toward zero, to its floor
    for [attack >= 0] and to its ceiling for [attack < 0].  Nothing lifts
    the damage to 1, and it is 0 when [attack] is 0.  The roll returns
    or raises [OverflowError] (when [attack] or the product is beyond the
    floats); it returns when [attack] is at most [max_attack] in size. *)
Theorem get_damage_truncates rng pos ball :
  Random.in_range rng ->
  (forall d pos',
     get_damage rng pos ball = Done (d, pos') ->
     pos' = S pos ∧
     ∃ a p,
       Float.round (inject_Z (BattleBall.attack ball)) = Some a ∧
       Float.round (a * Random.uniform_08_12 rng pos) = Some p ∧
       d = int p ∧
       d = (if 0 <=? BattleBall.attack ball then Qfloor p else Qceiling p)) ∧
  (BattleBall.attack ball = 0 -> get_damage rng pos ball = Done (0, S pos)) ∧
  ((∃ d, get_damage rng pos ball = Done (d, S pos)) ∨
   get_damage rng pos ball = Raise OverflowError) ∧
  (Z.abs (BattleBall.attack ball) <= max_attack ->
   ∃ d, get_damage rng pos ball = Done (d, S pos)).
Proof.
  intros Hr. pose proof (uniform_nonneg rng pos Hr) as Hu.
  assert (forall d pos',
            get_damage rng pos ball = Done (d, pos') ->
            pos' = S pos ∧
            ∃ a p,
              Float.round (inject_Z (BattleBall.attack ball)) = Some a ∧
              Float.round (a * Random.uniform_08_12 rng pos) = Some p ∧
              d = int p ∧
              d = (if 0 <=? BattleBall.attack ball then Qfloor p else Qceiling p)) as Hdone.
  { intros d pos' (-> & a & p & Hfa & Hfp & ->)%get_damage_Done. split; [done|].
    exists a, p. repeat (split; [done|]).
    destruct (Z.leb_spec 0 (BattleBall.attack ball)) as [Ha | Ha].
    - apply int_nonneg, (round_nonneg _ _ Hfp), Qmult_le_0_compat; [|done].
      apply (round_nonneg _ _ Hfa). unfold Qle. simpl. lia.
    - apply int_nonpos, (round_nonpos _ _ Hfp).
      assert (a <= 0)%Q as Hneg.
      { apply (round_nonpos _ _ Hfa). unfold Qle. simpl. lia. }
      clear Hfa Hfp. destruct a as [na da].
      destruct (Random.uniform_08_12 rng pos) as [nu du].
      unfold Qle in *. cbn [Qnum Qden Qmult] in *. nia. }
  split; [exact Hdone|]. split; [|split; [apply get_damage_cases|by apply get_damage_returns]].
  intros H0.
  destruct (get_damage_returns rng pos ball Hr) as [d Hd];
    [rewrite H0; unfold max_attack; simpl; by apply Z.pow_nonneg|].
  rewrite Hd. repeat f_equal.
  apply get_damage_Done in Hd as (_ & a & p & Hfa & Hfp & ->).
  assert (Qnum p = 0) as Hp.
  { apply (round_zero _ _ Hfp). simpl.
    rewrite (round_zero _ _ Hfa); [done|]. simpl. by rewrite H0. }
  unfold int. by rewrite Hp.
Qed.

Lemma scaling_in_range :
  Random.in_range (scaling (7 # 8)).
Proof. intros n. simpl. unfold Qle. simpl. lia. Qed.

Lemma get_damage_truncates_witness :
  Random.in_range (scaling (7 # 8)) ∧
  ∃ d, get_damage (scaling (7 # 8)) 0 (bball "ann" "A" 10 (-2)) = Done (d, 1%nat).
Proof.
  split; [exact scaling_in_range|].
  apply (get_damage_truncates (scaling (7 # 8)) 0 (bball "ann" "A" 10 (-2))
           scaling_in_range).
  vm_compute. discriminate.
Defined.

(** C4 as the specification words it fails for a negative attack:
    [int(-2 * 0.875) = int(-1.75) = -1], and the floor of [-1.75] is [-2].
    The product is a float, so that rounding plays no part in it. *)
Lemma get_damage_not_floor :
  get_damage (scaling (7 # 8)) 0 (bball "ann" "A" 10 (-2)) = Done (-1, 1%nat) ∧
  option_map Qred (Float.round (inject_Z (-2) * (7 # 8))) = Some (-7 # 4) ∧
  Qfloor (inject_Z (BattleBall.attack (bball "ann" "A" 10 (-2)))
          * Random.uniform_08_12 (scaling (7 # 8)) 0) = -2.
Proof. repeat split; by vm_compute. Qed.

(** ** The miss roll *)

Lemma append_inj_l (s a b : string) : (s ++ a = s ++ b)%string -> a = b.
Proof. induction s as [|c s IH]; simpl; [done | intros [= H]; auto]. Qed.

(** A miss and a blow of the same ball never read the same. *)
Lemma missed_text_not_blow_text ball other attack_dealt enemy :
  missed_text ball other <> blow_text ball attack_dealt enemy.
Proof.
  unfold missed_text, blow_text, killed_text, dealt_text. intros H.
  destruct (BattleBall.dead enemy);
    apply append_inj_l in H; simpl in H; injection H as H;
    apply append_inj_l in H; simpl in H; discriminate.
Qed.

Lemma turn_line_inj turn text text' :
  turn_line turn text = turn_line turn text' -> text = text'.
Proof.
  unfold turn_line. intros H. by do 3 apply append_inj_l in H.
Qed.

(** What [attack] yields is never the text of a miss of the same ball. *)
Lemma attack_text_not_missed rng pos ball enemy_balls enemy_balls' text pos' other :
  attack rng pos ball enemy_balls = Done (enemy_balls', text, pos') ->
  text <> missed_text ball other.
Proof.
  intros (target & enemy & d & _ & _ & _ & _ & _ & _ & -> & _)%attack_Done Heq.
  symmetry in Heq. by apply (missed_text_not_blow_text ball other d _) in Heq.
Qed.

(** C8.  The roll is a miss exactly when the integer drawn is at most 30,
    which is 31 of the 101 values of [0..100].  A miss of a living ball
    makes one call to the random source, adds 1 to the turn counter,
    leaves both rosters as they are, yields the line of a miss and
    continues with the next pair.  When the integer drawn is above 30
    the block is a call of [attack]: it goes the way of [attack], and the
    line it yields is the text that [attack] returns, which is never the
    text of a miss of that ball. *)
Theorem miss_roll rng who mine theirs fr ball other :
  balls_of who fr !! mine = Some ball ->
  balls_of (opponent who) fr !! theirs = Some other ->
  BattleBall.dead ball = false ->
  ((random_events rng (Frame.pos fr)).1 = 1 <->
     Random.randint_0_100 rng (Frame.pos fr) <= 30) ∧
  ((random_events rng (Frame.pos fr)).1 = 0 <->
     30 < Random.randint_0_100 rng (Frame.pos fr)) ∧
  length (List.filter (fun v => (random_events (rolling v) 0).1 =? 1)
            (map Z.of_nat (seq 0 101))) = 31%nat ∧
  (Random.randint_0_100 rng (Frame.pos fr) <= 30 ->
   ∃ fr',
     attempt rng who mine theirs fr = Done (fr', Continue) ∧
     Frame.p1_balls fr' = Frame.p1_balls fr ∧
     Frame.p2_balls fr' = Frame.p2_balls fr ∧
     Frame.turn fr' = Frame.turn fr + 1 ∧
     Frame.pos fr' = S (Frame.pos fr) ∧
     Frame.yielded fr'
     = (Frame.yielded fr ++ [turn_line (Frame.turn fr + 1) (missed_text ball other)])%list) ∧
  (30 < Random.randint_0_100 rng (Frame.pos fr) ->
   attempt rng who mine theirs fr
   = (let* (enemy_balls, gen_text, pos) :=
        attack rng (S (Frame.pos fr)) ball (balls_of (opponent who) fr) in
      Done (with_balls (opponent who) enemy_balls
              (Frame.mk (Frame.p1_balls fr) (Frame.p2_balls fr) (Frame.turn fr + 1) pos
                 (Frame.yielded fr ++ [turn_line (Frame.turn fr + 1) gen_text])),
            if all_dead enemy_balls then Break else Fallthrough))) ∧
  (forall pos enemy_balls gen_text pos' turn other',
     attack rng pos ball (balls_of (opponent who) fr) = Done (enemy_balls, gen_text, pos') ->
     turn_line turn gen_text <> turn_line turn (missed_text ball other')).
Proof.
  intros Hb Ho Hd.
  assert (forall pos enemy_balls gen_text pos' turn other',
            attack rng pos ball (balls_of (opponent who) fr)
            = Done (enemy_balls, gen_text, pos') ->
            turn_line turn gen_text <> turn_line turn (missed_text ball other')) as Hdiff.
  { intros pos enemy_balls gen_text pos' turn other' Ha Heq%turn_line_inj.
    by eapply attack_text_not_missed. }
  unfold random_events.
  destruct (Z.leb_spec (Random.randint_0_100 rng (Frame.pos fr)) 30) as [Hr|Hr]; simpl.
  - split; [split; [done | lia]|]. split; [split; [done | lia]|].
    split; [by vm_compute|]. split; [|split; [lia | exact Hdiff]]. intros _.
    exists (miss_frame fr ball other). unfold attempt, random_events.
    rewrite Hb, Ho, Hd. apply Z.leb_le in Hr. rewrite Hr. simpl. done.
  - split; [split; [done | lia]|]. split; [split; [lia | done]|].
    split; [by vm_compute|]. split; [lia|]. split; [|exact Hdiff]. intros _.
    unfold attempt, random_events. rewrite Hb, Ho, Hd.
    apply Z.leb_gt in Hr. rewrite Hr. simpl.
    destruct (attack rng _ ball _) as [[[enemy_balls text] pos']| | |]; simpl; try done.
    unfold all_dead. by destruct (forallb BattleBall.dead enemy_balls).
Qed.

Lemma miss_roll_witness :
  ∃ fr',
    attempt (rolling 30) Player1 0 0
      (Frame.mk [bball "ann" "A" 10 5] [bball "bob" "B" 10 5] 0 0 [])
    = Done (fr', Continue) ∧
    Frame.turn fr' = 1 ∧
    Frame.yielded fr' = ["Turn 1: ann's A missed bob's B"].
Proof.
  destruct (miss_roll (rolling 30) Player1 0 0
              (Frame.mk [bball "ann" "A" 10 5] [bball "bob" "B" 10 5] 0 0 [])
              (bball "ann" "A" 10 5) (bball "bob" "B" 10 5)
              eq_refl eq_refl eq_refl) as (_ & _ & _ & H & _).
  destruct H as (fr' & H & _ & _ & Ht & _ & Hy); [simpl; lia|].
  exists fr'. split; [exact H|]. split; [exact Ht | exact Hy].
Defined.

(** The other side of the roll: at 31 the block is a blow. *)
Example blow_roll :
  attempt (rolling 31) Player1 0 0
    (Frame.mk [bball "ann" "A" 10 5] [bball "bob" "B" 10 5] 0 0 [])
  = Done (Frame.mk [bball "ann" "A" 10 5] [bball "bob" "B" 5 5] 1 3
            ["Turn 1: ann's A has dealt 5 damage to bob's B"], Fallthrough).
Proof. by vm_compute. Qed.

(** ** Log and turn counter *)

Lemma is_turn_line_turn_line turn text : is_turn_line (turn_line turn text) = true.
Proof. unfold is_turn_line, turn_line. simpl. by destruct (str turn ++ _)%string. Qed.

Lemma numbered_snoc turn lines text :
  numbered turn lines -> numbered (turn + 1) (lines ++ [turn_line (turn + 1) text]).
Proof.
  intros [Ht Hl]. split.
  - rewrite length_app. simpl. lia.
  - intros k line Hk. destruct (decide (k < length lines)%nat) as [Hlt|Hge].
    + rewrite lookup_app_l in Hk by done. eauto.
    + rewrite lookup_app_r in Hk by lia.
      destruct (k - length lines)%nat as [|n] eqn:Hn; simpl in Hk; [|discriminate].
      injection Hk as <-. exists text. f_equal. lia.
Qed.

Lemma numbered_filter turn lines :
  numbered turn lines -> List.filter is_turn_line lines = lines.
Proof.
  intros [_ Hl]. apply forallb_filter_id, forallb_forall. intros line Hin.
  apply list_elem_of_In, list_elem_of_lookup in Hin as [k Hk].
  apply Hl in Hk as [text ->]. apply is_turn_line_turn_line.
Qed.

Lemma event_turn_yielded rng who fr fr' :
  event rng who fr fr' ->
  ∃ text, Frame.turn fr' = Frame.turn fr + 1 ∧
          Frame.yielded fr' = (Frame.yielded fr ++ [turn_line (Frame.turn fr + 1) text])%list.
Proof.
  intros [ball other _ _ _ | ball d target enemy _ _ _ _ _ _].
  - by eexists.
  - unfold blow_frame. destruct who; by eexists.
Qed.

(** A block of a dead ball changes nothing; a block of a living ball
    adds 1 to the turn counter and yields one line, the line of that
    turn. *)
Lemma attempt_counts rng who mine theirs fr fr' fl ball :
  attempt rng who mine theirs fr = Done (fr', fl) ->
  balls_of who fr !! mine = Some ball ->
  if BattleBall.dead ball then fr' = fr
  else ∃ text,
         Frame.turn fr' = Frame.turn fr + 1 ∧
         Frame.yielded fr'
         = (Frame.yielded fr ++ [turn_line (Frame.turn fr + 1) text])%list.
Proof.
  intros H Hb. pose proof H as Hev. apply attempt_event in Hev.
  apply attempt_Done in H
    as (ball' & other & Hb' & _ & [(Hd & -> & _) | [(Hd & Hr & Heq & _) | (Hd & Hr & H)]]);
    assert (ball' = ball) as -> by congruence; rewrite Hd.
  - done.
  - destruct Hev as [-> | Hev]; [|by apply event_turn_yielded in Hev].
    apply (f_equal Frame.pos) in Heq. simpl in Heq. lia.
  - destruct Hev as [-> | Hev]; [|by apply event_turn_yielded in Hev].
    destruct H as (target & enemy & d & _ & _ & _ & _ & Heq & _).
    apply (f_equal Frame.pos) in Heq. unfold blow_frame in Heq.
    destruct who; simpl in Heq; lia.
Qed.

Lemma while_loop_numbered fuel rng fr fr' :
  while_loop fuel rng fr = Done fr' ->
  numbered (Frame.turn fr) (Frame.yielded fr) ->
  numbered (Frame.turn fr') (Frame.yielded fr').
Proof.
  apply (while_loop_lift rng
           (fun fr fr' => numbered (Frame.turn fr) (Frame.yielded fr) ->
                          numbered (Frame.turn fr') (Frame.yielded fr'))); [auto..|].
  intros who fr1 fr2 Hev Hn. apply event_turn_yielded in Hev as (text & -> & ->).
  by apply numbered_snoc.
Qed.

(** What [gen_battle] returns past the stalemate guard. *)
Lemma gen_battle_Done fuel rng pos battle battle' lines pos' :
  gen_battle fuel rng pos battle = Done (battle', lines, pos') ->
  no_damage battle = false ->
  ∃ fr,
    while_loop fuel rng
      (Frame.mk (BattleInstance.p1_balls battle) (BattleInstance.p2_balls battle) 0 pos [])
    = Done fr ∧
    BattleInstance.p1_balls battle' = Frame.p1_balls fr ∧
    BattleInstance.p2_balls battle' = Frame.p2_balls fr ∧
    BattleInstance.turns battle' = Frame.turn fr ∧
    lines = Frame.yielded fr ∧ pos' = Frame.pos fr ∧
    (if all_dead (Frame.p1_balls fr) then first_owner (Frame.p2_balls fr)
     else if all_dead (Frame.p2_balls fr) then first_owner (Frame.p1_balls fr)
     else Done (BattleInstance.winner battle)) = Done (BattleInstance.winner battle').
Proof.
  unfold gen_battle. intros H Hnd. rewrite Hnd in H.
  destruct (while_loop fuel rng _) as [fr| | |]; simpl in H; try discriminate.
  exists fr. split; [done|].
  destruct (if all_dead (Frame.p1_balls fr) then _ else _) as [w| | |];
    simpl in H; try discriminate.
  by injection H as <- <- <-.
Qed.

(** C7.  Every block of the loop body that is the attempt of a living
    ball adds 1 to the turn counter and yields one line, the line of that
    turn, put after the lines yielded before; the block of a dead ball
    counts and yields nothing.  So the turn count of a completed battle
    is the number of lines of the log other than the stalemate line, and
    these lines are the lines of turns 1, 2, 3, ... in this order.  The
    log is either the stalemate line alone or made of such lines only. *)
Theorem turn_count_counts_lines rng :
  (forall who mine theirs fr fr' fl ball,
     attempt rng who mine theirs fr = Done (fr', fl) ->
     balls_of who fr !! mine = Some ball ->
     if BattleBall.dead ball then fr' = fr
     else ∃ text,
            Frame.turn fr' = Frame.turn fr + 1 ∧
            Frame.yielded fr'
            = (Frame.yielded fr ++ [turn_line (Frame.turn fr + 1) text])%list) ∧
  (forall fuel player1_balls player2_balls n1 n2 res pos,
     simulate_tournament_battle fuel rng player1_balls player2_balls n1 n2
     = Done (res, pos) ->
     numbered (BattleResult.turns res)
       (List.filter is_turn_line (BattleResult.battle_log res)) ∧
     (BattleResult.battle_log res = [stalemate_line] ∨
      List.filter is_turn_line (BattleResult.battle_log res) = BattleResult.battle_log res)).
Proof.
  split; [apply attempt_counts|].
  intros fuel player1_balls player2_balls n1 n2 res pos.
  unfold simulate_tournament_battle. intros H.
  destruct (gen_battle fuel rng 0 _) as [[[battle' lines] pos']| | |] eqn:Hg;
    simpl in H; try discriminate.
  injection H as <- <-. simpl.
  destruct (no_damage (BattleInstance.mk (map (to_battle_ball n1) player1_balls)
                         (map (to_battle_ball n2) player2_balls) EmptyString 0)) eqn:Hnd.
  - unfold gen_battle in Hg. rewrite Hnd in Hg. injection Hg as <- <- <-.
    change (List.filter is_turn_line [stalemate_line]) with (@nil string).
    split; [|by left]. split; [done|]. intros k line Hk. destruct k; discriminate.
  - apply gen_battle_Done in Hg as (fr & Hw & _ & _ & -> & -> & _); [|done].
    apply while_loop_numbered in Hw.
    + rewrite (numbered_filter _ _ Hw). split; [done | by right].
    + split; [done|]. intros k line Hk. destruct k; discriminate.
Qed.

Example steady_battle :
  simulate_tournament_battle 5 steady [tball "A" 10 5] [tball "B" 7 4] "ann" "bob"
  = Done (BattleResult.mk "ann" 3
            ["Turn 1: ann's A has dealt 5 damage to bob's B";
             "Turn 2: bob's B has dealt 4 damage to ann's A";
             "Turn 3: ann's A has killed bob's B"], 9%nat).
Proof. by vm_compute. Qed.

Lemma turn_count_counts_lines_witness :
  numbered 3
    ["Turn 1: ann's A has dealt 5 damage to bob's B";
     "Turn 2: bob's B has dealt 4 damage to ann's A";
     "Turn 3: ann's A has killed bob's B"].
Proof.
  exact (proj1 (proj2 (turn_count_counts_lines steady) 5%nat [tball "A" 10 5] [tball "B" 7 4]
                  "ann" "bob" _ _ steady_battle)).
Defined.

(** ** Health *)

(** C3, as the code has it.  A blow changes the roster it is dealt to and
    nothing else, and of that roster the health of one living ball.  Every
    ball of the roster that had a health of 0 or more keeps a health of 0
    or more; its health does not grow when the attacker has
    [attack >= 0]. *)
Theorem attack_health rng pos current_ball enemy_balls enemy_balls' text pos' i enemy :
  Random.in_range rng ->
  attack rng pos current_ball enemy_balls = Done (enemy_balls', text, pos') ->
  enemy_balls !! i = Some enemy ->
  ∃ enemy',
    enemy_balls' !! i = Some enemy' ∧
    (0 <= BattleBall.health enemy ->
     0 <= BattleBall.health enemy' ∧
     (0 <= BattleBall.attack current_ball ->
      BattleBall.health enemy' <= BattleBall.health enemy)).
Proof.
  intros Hr H Hi.
  apply attack_Done in H as (target & hit & d & Hl & Hd & _ & _ & Hg & Heq & _ & _).
  subst enemy_balls'.
  destruct (decide (target = i)) as [->|Hne].
  - rewrite list_lookup_insert_eq by (by eapply lookup_lt_Some).
    eexists. split; [done|]. rewrite take_damage_health.
    assert (hit = enemy) as -> by congruence.
    intros Hh. split; [lia|]. intros Ha.
    pose proof (get_damage_nonneg rng (S pos) current_ball d _ Hr Ha Hg) as Hdmg.
    lia.
  - rewrite list_lookup_insert_ne by done. exists enemy. split; [done|].
    intros Hh. split; [done | lia].
Qed.

Example scaled_blow :
  attack (scaling (7 # 8)) 0 (bball "ann" "A" 10 2)
    [bball "bob" "B" 10 5; bball "bob" "C" 9 1]
  = Done ([bball "bob" "B" 9 5; bball "bob" "C" 9 1],
          "ann's A has dealt 1 damage to bob's B", 2%nat).
Proof. by vm_compute. Qed.

Lemma attack_health_witness :
  ∃ enemy',
    [bball "bob" "B" 9 5; bball "bob" "C" 9 1] !! 0%nat = Some enemy' ∧
    (0 <= 10 -> 0 <= BattleBall.health enemy' ∧ (0 <= 2 -> BattleBall.health enemy' <= 10)).
Proof.
  exact (attack_health (scaling (7 # 8)) 0 (bball "ann" "A" 10 2)
           [bball "bob" "B" 10 5; bball "bob" "C" 9 1] _ _ _ 0 (bball "bob" "B" 10 5)
           scaling_in_range scaled_blow eq_refl).
Defined.

(** C3 as the specification words it fails when a ball with a negative
    attack strikes: [int(-5 * 1.0) = -5] is subtracted from the health of
    the target, which goes from 10 to 15. *)
Lemma attack_raises_health :
  attack (scaling 1) 0 (bball "ann" "A" 10 (-5)) [bball "bob" "B" 10 5]
  = Done ([bball "bob" "B" 15 5], "ann's A has dealt -5 damage to bob's B", 2%nat) ∧
  ¬ (BattleBall.health (bball "bob" "B" 15 5) <= BattleBall.health (bball "bob" "B" 10 5)).
Proof. split; [by vm_compute | simpl; lia]. Qed.

(** The same in a whole battle: it is not a stalemate, since one ball has a
    positive attack, and the winner ends with twice its starting health. *)
Example healing_battle :
  gen_battle 5 (scaling 1) 0
    (BattleInstance.mk [bball "ann" "A" 10 (-5)] [bball "bob" "B" 10 5] EmptyString 0)
  = Done (BattleInstance.mk
            [BattleBall.mk "A" "ann" 0 (-5) EmptyString true]
            [bball "bob" "B" 20 5] "bob" 4,
          ["Turn 1: ann's A has dealt -5 damage to bob's B";
           "Turn 2: bob's B has dealt 5 damage to ann's A";
           "Turn 3: ann's A has dealt -5 damage to bob's B";
           "Turn 4: bob's B has killed ann's A"], 12%nat).
Proof. by vm_compute. Qed.

(** ** What a battle leaves of the rosters *)

Lemma Forall2_insert_same {A : Type} (P : A -> A -> Prop) (l : list A) i x y :
  (forall z, P z z) -> l !! i = Some x -> P x y -> Forall2 P l (<[i := y]> l).
Proof.
  intros Hrefl Hi Hxy. apply Forall2_same_length_lookup.
  split; [by rewrite length_insert|]. intros j a b Ha Hb.
  destruct (decide (i = j)) as [<-|Hne].
  - rewrite list_lookup_insert_eq in Hb by (by eapply lookup_lt_Some). congruence.
  - rewrite list_lookup_insert_ne in Hb by done. assert (a = b) as -> by congruence. auto.
Qed.

Lemma Forall2_same {A : Type} (P : A -> A -> Prop) (l : list A) :
  (forall z, P z z) -> Forall2 P l l.
Proof. intros Hrefl. induction l; constructor; auto. Qed.

Lemma Forall2_chain {A : Type} (P : A -> A -> Prop) (l1 l2 l3 : list A) :
  (forall x y z, P x y -> P y z -> P x z) ->
  Forall2 P l1 l2 -> Forall2 P l2 l3 -> Forall2 P l1 l3.
Proof.
  intros Htrans H12. revert l3.
  induction H12 as [|x y l1 l2 Hxy _ IH]; intros l3 H23; inversion H23; subst;
    constructor; eauto.
Qed.

Lemma evolves_refl ball : evolves ball ball.
Proof. by unfold evolves. Qed.

Lemma evolves_trans b1 b2 b3 : evolves b1 b2 -> evolves b2 b3 -> evolves b1 b3.
Proof.
  intros (Hn & Ho & Ha & He & Hd) (Hn' & Ho' & Ha' & He' & Hd').
  unfold evolves. rewrite Hn', Ho', Ha', He'. repeat (split; [done|]).
  intros H1. rewrite (Hd H1) in *. auto.
Qed.

Lemma take_damage_evolves d enemy :
  BattleBall.dead enemy = false -> evolves enemy (take_damage d enemy).
Proof.
  intros Hd. destruct (take_damage_fields d enemy) as (? & ? & ? & ?).
  unfold evolves. repeat (split; [done|]). congruence.
Qed.

Lemma wanes_refl ball : wanes ball ball.
Proof. unfold wanes. split; [done | lia]. Qed.

Lemma wanes_trans b1 b2 b3 : wanes b1 b2 -> wanes b2 b3 -> wanes b1 b3.
Proof. unfold wanes. intros [Ha H12] [Ha' H23]. split; [congruence | lia]. Qed.

Lemma balls_of_blow_frame who fr ball d target enemy :
  balls_of who (blow_frame who fr ball d target enemy) = balls_of who fr ∧
  balls_of (opponent who) (blow_frame who fr ball d target enemy)
  = <[target := take_damage d enemy]> (balls_of (opponent who) fr).
Proof. unfold blow_frame. by destruct who. Qed.

(** A relation between the rosters before and after, one player at a time. *)
Lemma by_player (P : list BattleBall.t -> list BattleBall.t -> Prop) who fr fr' :
  P (balls_of who fr) (balls_of who fr') ->
  P (balls_of (opponent who) fr) (balls_of (opponent who) fr') ->
  P (Frame.p1_balls fr) (Frame.p1_balls fr') ∧ P (Frame.p2_balls fr) (Frame.p2_balls fr').
Proof. by destruct who. Qed.

Lemma event_evolves rng who fr fr' :
  event rng who fr fr' ->
  Forall2 evolves (Frame.p1_balls fr) (Frame.p1_balls fr') ∧
  Forall2 evolves (Frame.p2_balls fr) (Frame.p2_balls fr').
Proof.
  intros [ball other _ _ _ | ball d target enemy _ _ _ Hl Hd _].
  - split; apply Forall2_same, evolves_refl.
  - apply (by_player (Forall2 evolves) who);
      destruct (balls_of_blow_frame who fr ball d target enemy) as [Hown Hopp];
      rewrite ?Hown, ?Hopp.
    + apply Forall2_same, evolves_refl.
    + eapply Forall2_insert_same; [apply evolves_refl | done |].
      by apply take_damage_evolves.
Qed.

Lemma while_loop_evolves fuel rng fr fr' :
  while_loop fuel rng fr = Done fr' ->
  Forall2 evolves (Frame.p1_balls fr) (Frame.p1_balls fr') ∧
  Forall2 evolves (Frame.p2_balls fr) (Frame.p2_balls fr').
Proof.
  apply (while_loop_lift rng
           (fun fr fr' => Forall2 evolves (Frame.p1_balls fr) (Frame.p1_balls fr') ∧
                          Forall2 evolves (Frame.p2_balls fr) (Frame.p2_balls fr'))).
  - intros fr0. split; apply Forall2_same, evolves_refl.
  - intros fr1 fr2 fr3 [H1 H2] [H1' H2'].
    split; eapply Forall2_chain; eauto using evolves_trans.
  - apply event_evolves.
Qed.

Lemma wanes_attack_nonneg (l l' : list BattleBall.t) :
  Forall2 wanes l l' ->
  Forall (fun ball => 0 <= BattleBall.attack ball) l ->
  Forall (fun ball => 0 <= BattleBall.attack ball) l'.
Proof.
  induction 1 as [|x y l l' [Ha _] _ IH]; intros Hl; inversion Hl; subst;
    constructor; [lia | auto].
Qed.

Lemma event_wanes rng who fr fr' :
  Random.in_range rng ->
  event rng who fr fr' ->
  Forall (fun ball => 0 <= BattleBall.attack ball)
    (Frame.p1_balls fr ++ Frame.p2_balls fr) ->
  Forall2 wanes (Frame.p1_balls fr) (Frame.p1_balls fr') ∧
  Forall2 wanes (Frame.p2_balls fr) (Frame.p2_balls fr').
Proof.
  intros Hr [ball other _ _ _ | ball d target enemy Hin _ _ Hl Hd Hg] Hpos.
  - split; apply Forall2_same, wanes_refl.
  - assert (0 <= BattleBall.attack ball) as Ha.
    { rewrite Forall_app, !Forall_forall in Hpos. destruct Hpos as [H1 H2].
      destruct who; [apply H1 | apply H2]; done. }
    apply (by_player (Forall2 wanes) who);
      destruct (balls_of_blow_frame who fr ball d target enemy) as [Hown Hopp];
      rewrite ?Hown, ?Hopp.
    + apply Forall2_same, wanes_refl.
    + eapply Forall2_insert_same; [apply wanes_refl | done |].
      split; [apply take_damage_fields|]. rewrite take_damage_health.
      pose proof (get_damage_nonneg rng _ ball d _ Hr Ha Hg). lia.
Qed.

(** X8.  Over a whole battle in which no ball has a negative attack, every
    ball that starts with a health of 0 or more ends with a health between
    0 and the one it started with. *)
Lemma battle_health fuel rng pos battle battle' lines pos' :
  Random.in_range rng ->
  gen_battle fuel rng pos battle = Done (battle', lines, pos') ->
  Forall (fun ball => 0 <= BattleBall.attack ball)
    (BattleInstance.p1_balls battle ++ BattleInstance.p2_balls battle) ->
  Forall2 wanes (BattleInstance.p1_balls battle) (BattleInstance.p1_balls battle') ∧
  Forall2 wanes (BattleInstance.p2_balls battle) (BattleInstance.p2_balls battle').
Proof.
  intros Hr H Hpos. destruct (no_damage battle) eqn:Hnd.
  - unfold gen_battle in H. rewrite Hnd in H. injection H as <- _ _.
    split; apply Forall2_same, wanes_refl.
  - apply gen_battle_Done in H as (fr & Hw & -> & -> & _); [|done].
    revert Hpos.
    refine (while_loop_lift rng
              (fun fr fr' =>
                 Forall (fun ball => 0 <= BattleBall.attack ball)
                   (Frame.p1_balls fr ++ Frame.p2_balls fr) ->
                 Forall2 wanes (Frame.p1_balls fr) (Frame.p1_balls fr') ∧
                 Forall2 wanes (Frame.p2_balls fr) (Frame.p2_balls fr'))
              _ _ _ fuel _ fr Hw).
    + intros fr0 _. split; apply Forall2_same, wanes_refl.
    + intros fr1 fr2 fr3 H12 H23 Hpos. destruct (H12 Hpos) as [H1 H2].
      destruct H23 as [H1' H2'].
      { rewrite Forall_app in *. destruct Hpos.
        split; eapply wanes_attack_nonneg; eauto. }
      split; eapply Forall2_chain; eauto using wanes_trans.
    + intros who fr1 fr2 Hev. by eapply event_wanes.
Qed.

(** ** The winner *)

Lemma first_owner_evolves (balls balls' : list BattleBall.t) label :
  Forall2 evolves balls balls' ->
  first_owner balls' = Done label ->
  ∃ ball, head balls = Some ball ∧ label = BattleBall.owner ball.
Proof.
  intros [|ball ball' rest rest' (_ & Ho & _) _]; simpl; [discriminate|].
  intros [= <-]. eauto.
Qed.

(** C2.  Past the stalemate guard, a battle that completes names its
    winner by looking at side A first: when every ball of side A is dead
    the winner is the owner of the first ball of side B, whatever the
    state of side B; otherwise, when every ball of side B is dead, it is
    the owner of the first ball of side A.  The first ball is the first of
    the roster as it was given, and its owner has not changed. *)
Theorem winner_checks_side_a_first fuel rng pos battle battle' lines pos' :
  gen_battle fuel rng pos battle = Done (battle', lines, pos') ->
  no_damage battle = false ->
  (all_dead (BattleInstance.p1_balls battle') = true ->
   ∃ ball, head (BattleInstance.p2_balls battle) = Some ball ∧
           head (BattleInstance.p2_balls battle') ≫= (fun b => Some (BattleBall.owner b))
           = Some (BattleBall.owner ball) ∧
           BattleInstance.winner battle' = BattleBall.owner ball) ∧
  (all_dead (BattleInstance.p1_balls battle') = false ->
   all_dead (BattleInstance.p2_balls battle') = true ->
   ∃ ball, head (BattleInstance.p1_balls battle) = Some ball ∧
           head (BattleInstance.p1_balls battle') ≫= (fun b => Some (BattleBall.owner b))
           = Some (BattleBall.owner ball) ∧
           BattleInstance.winner battle' = BattleBall.owner ball).
Proof.
  intros H Hnd.
  apply gen_battle_Done in H as (fr & Hw & -> & -> & _ & _ & _ & Hwin); [|done].
  apply while_loop_evolves in Hw as [H1 H2]. simpl in H1, H2.
  split.
  - intros Hd. rewrite Hd in Hwin.
    destruct (first_owner_evolves _ _ _ H2 Hwin) as (ball & Hh & ->).
    exists ball. split; [done|]. split; [|done].
    destruct H2 as [|b b' ? ? (_ & Ho & _) _]; [discriminate|].
    simpl in *. congruence.
  - intros Hd1 Hd2. rewrite Hd1, Hd2 in Hwin.
    destruct (first_owner_evolves _ _ _ H1 Hwin) as (ball & Hh & ->).
    exists ball. split; [done|]. split; [|done].
    destruct H1 as [|b b' ? ? (_ & Ho & _) _]; [discriminate|].
    simpl in *. congruence.
Qed.

Lemma winner_checks_side_a_first_witness :
  all_dead [BattleBall.mk "A" "ann" 0 (-5) EmptyString true] = true ∧
  ∃ ball, head [bball "bob" "B" 10 5] = Some ball ∧
          head [bball "bob" "B" 20 5] ≫= (fun b => Some (BattleBall.owner b))
          = Some (BattleBall.owner ball) ∧
          "bob" = BattleBall.owner ball.
Proof.
  split; [reflexivity|].
  exact (proj1 (winner_checks_side_a_first 5 (scaling 1) 0
                  (BattleInstance.mk [bball "ann" "A" 10 (-5)] [bball "bob" "B" 10 5]
                     EmptyString 0) _ _ _ healing_battle eq_refl) eq_refl).
Defined.

(** ** No double knockout *)

Lemma any_alive_all_dead balls : any_alive balls = true -> all_dead balls = false.
Proof. rewrite all_dead_any_alive. by intros ->. Qed.

Lemma all_dead_false balls : all_dead balls = false -> any_alive balls = true.
Proof. rewrite all_dead_any_alive. by destruct (any_alive balls). Qed.

Lemma one_down_of who fr :
  any_alive (balls_of who fr) = true ->
  all_dead (balls_of (opponent who) fr) = true ->
  one_down (Frame.p1_balls fr) (Frame.p2_balls fr).
Proof.
  intros Ha Hd. apply any_alive_all_dead in Ha. unfold one_down.
  destruct who; simpl in *; by rewrite Ha, Hd.
Qed.

Lemma both_alive_of who fr :
  any_alive (balls_of who fr) = true ->
  any_alive (balls_of (opponent who) fr) = true ->
  both_alive fr.
Proof. unfold both_alive. by destruct who. Qed.

Lemma both_alive_by who fr :
  both_alive fr ->
  any_alive (balls_of who fr) = true ∧ any_alive (balls_of (opponent who) fr) = true.
Proof. unfold both_alive. destruct who; simpl; tauto. Qed.

(** A block leaves a living ball on each side, unless it breaks out of
    the round: then the side that struck has a living ball and the other
    side has none. *)
Lemma attempt_alive rng who mine theirs fr fr' fl :
  attempt rng who mine theirs fr = Done (fr', fl) ->
  both_alive fr ->
  match fl with
  | Break => one_down (Frame.p1_balls fr') (Frame.p2_balls fr')
  | _ => both_alive fr'
  end.
Proof.
  intros H Hb. apply attempt_Done in H
    as (ball & other & Hl & Ho
        & [(_ & -> & ->) | [(Hd & Hr & -> & ->) | (Hd & Hr & H)]]); [done..|].
  destruct H as (target & enemy & d & Hlt & Hde & _ & _ & -> & ->).
  destruct (both_alive_by who fr Hb) as [Hown _].
  destruct (balls_of_blow_frame who fr ball d target enemy) as [Hsame _].
  rewrite <- Hsame in Hown.
  destruct (all_dead (balls_of (opponent who) _)) eqn:Hall.
  - by apply (one_down_of who).
  - apply all_dead_false in Hall. by apply (both_alive_of who).
Qed.

Lemma for_pairs_alive rng pairs fr fr' :
  for_pairs rng pairs fr = Done fr' ->
  both_alive fr ->
  both_alive fr' ∨ one_down (Frame.p1_balls fr') (Frame.p2_balls fr').
Proof.
  revert fr. induction pairs as [|[i j] rest IH]; intros fr H Hb; simpl in H.
  { injection H as <-. by left. }
  destruct (attempt rng Player1 i j fr) as [[fr1 fl1]| | |] eqn:H1; simpl in H;
    try discriminate.
  apply attempt_alive in H1; [|done].
  destruct fl1; [| by eapply IH | injection H as <-; by right].
  destruct (attempt rng Player2 j i fr1) as [[fr2 fl2]| | |] eqn:H2; simpl in H;
    try discriminate.
  apply attempt_alive in H2; [|done].
  destruct fl2; [by eapply IH | by eapply IH | injection H as <-; by right].
Qed.

Lemma while_loop_one_down fuel rng fr fr' :
  while_loop fuel rng fr = Done fr' ->
  both_alive fr ∨ one_down (Frame.p1_balls fr) (Frame.p2_balls fr) ->
  one_down (Frame.p1_balls fr') (Frame.p2_balls fr').
Proof.
  revert fr. induction fuel as [|fuel IH]; intros fr H Hpre; simpl in H;
    destruct (any_alive (Frame.p1_balls fr) && any_alive (Frame.p2_balls fr)) eqn:Hc;
    try discriminate.
  - injection H as <-. destruct Hpre as [[Ha1 Ha2]|Hod]; [|done].
    by rewrite Ha1, Ha2 in Hc.
  - destruct (for_pairs rng _ fr) as [fr1| | |] eqn:H1; simpl in H; try discriminate.
    apply andb_prop in Hc. apply for_pairs_alive in H1; [|done]. eauto.
  - injection H as <-. destruct Hpre as [[Ha1 Ha2]|Hod]; [|done].
    by rewrite Ha1, Ha2 in Hc.
Qed.

Lemma any_alive_fresh (balls : list BattleBall.t) :
  balls <> [] -> Forall (fun ball => BattleBall.dead ball = false) balls ->
  any_alive balls = true.
Proof.
  intros Hne Hall. destruct Hall as [|ball rest Hd _]; [done|].
  unfold any_alive. simpl. by rewrite Hd.
Qed.

(** C10.  For two rosters that are not empty and hold no dead ball, past
    the stalemate guard, a battle that completes leaves exactly one side
    with no living ball: the ball that strikes is alive, a blow changes
    the other roster only, and the round is left as soon as that roster
    has no living ball. *)
Theorem no_double_knockout fuel rng pos battle battle' lines pos' :
  gen_battle fuel rng pos battle = Done (battle', lines, pos') ->
  no_damage battle = false ->
  BattleInstance.p1_balls battle <> [] ->
  BattleInstance.p2_balls battle <> [] ->
  Forall (fun ball => BattleBall.dead ball = false)
    (BattleInstance.p1_balls battle ++ BattleInstance.p2_balls battle) ->
  xorb (all_dead (BattleInstance.p1_balls battle'))
       (all_dead (BattleInstance.p2_balls battle')) = true.
Proof.
  intros H Hnd Hne1 Hne2 Hfresh. rewrite Forall_app in Hfresh. destruct Hfresh as [Hf1 Hf2].
  apply gen_battle_Done in H as (fr & Hw & -> & -> & _); [|done].
  apply while_loop_one_down in Hw; [done|].
  left. split; simpl; by apply any_alive_fresh.
Qed.

Lemma no_double_knockout_witness :
  xorb (all_dead [BattleBall.mk "A" "ann" 0 (-5) EmptyString true])
       (all_dead [bball "bob" "B" 20 5]) = true.
Proof.
  apply (no_double_knockout 5 (scaling 1) 0
           (BattleInstance.mk [bball "ann" "A" 10 (-5)] [bball "bob" "B" 10 5]
              EmptyString 0) _ _ _ healing_battle eq_refl).
  - simpl. discriminate.
  - simpl. discriminate.
  - simpl. repeat constructor.
Defined.

(** ** No run fails *)

Lemma attempt_lengths rng who mine theirs fr fr' fl :
  attempt rng who mine theirs fr = Done (fr', fl) ->
  length (Frame.p1_balls fr') = length (Frame.p1_balls fr) ∧
  length (Frame.p2_balls fr') = length (Frame.p2_balls fr).
Proof.
  intros H. apply attempt_event in H as [-> | H]; [done|].
  apply event_evolves in H as [H1 H2].
  apply Forall2_length in H1, H2. done.
Qed.

Lemma overflows_evolves rng (balls balls' : list BattleBall.t) :
  Forall2 evolves balls balls' -> overflows rng balls' -> overflows rng balls.
Proof.
  intros He (pos & ball' & Hin & Hg).
  apply list_elem_of_lookup in Hin as [i Hi].
  destruct (Forall2_lookup_r _ _ _ _ _ He Hi) as (ball & Hl & (_ & _ & Ha & _)).
  exists pos, ball. split; [by eapply list_elem_of_lookup_2|].
  by rewrite <- (get_damage_attack rng pos ball ball').
Qed.

Lemma overflows_frame rng fr fr' :
  Forall2 evolves (Frame.p1_balls fr) (Frame.p1_balls fr') ∧
  Forall2 evolves (Frame.p2_balls fr) (Frame.p2_balls fr') ->
  overflows rng (Frame.p1_balls fr' ++ Frame.p2_balls fr') ->
  overflows rng (Frame.p1_balls fr ++ Frame.p2_balls fr).
Proof.
  intros [H1 H2]. apply overflows_evolves. by apply Forall2_app.
Qed.

Lemma attempt_evolves rng who mine theirs fr fr' fl :
  attempt rng who mine theirs fr = Done (fr', fl) ->
  Forall2 evolves (Frame.p1_balls fr) (Frame.p1_balls fr') ∧
  Forall2 evolves (Frame.p2_balls fr) (Frame.p2_balls fr').
Proof.
  intros H. apply attempt_event in H as [-> | H]; [|by apply event_evolves in H].
  split; apply Forall2_same, evolves_refl.
Qed.

(** A block returns when each side has a living ball and the two positions
    are positions of the rosters, unless a damage roll of one of the
    balls raises [OverflowError]. *)
Lemma attempt_returns rng who mine theirs fr :
  both_alive fr ->
  (mine < length (balls_of who fr))%nat ->
  (theirs < length (balls_of (opponent who) fr))%nat ->
  (∃ fr' fl, attempt rng who mine theirs fr = Done (fr', fl)) ∨
  (attempt rng who mine theirs fr = Raise OverflowError ∧
   overflows rng (Frame.p1_balls fr ++ Frame.p2_balls fr)).
Proof.
  intros Hb Hm Ht. unfold attempt.
  apply lookup_lt_is_Some_2 in Hm as [ball Hball]. rewrite Hball.
  apply lookup_lt_is_Some_2 in Ht as [other ->].
  destruct (BattleBall.dead ball); [left; by eauto|].
  unfold random_events.
  destruct (Random.randint_0_100 rng (Frame.pos fr) <=? 30); simpl; [left; by eauto|].
  destruct (both_alive_by who fr Hb) as [_ Hopp].
  destruct (attack_returns rng (S (Frame.pos fr)) ball _ Hopp)
    as [([[balls text] pos'] & ->) | [-> Hg]]; simpl.
  - left. destruct (forallb BattleBall.dead balls); eauto.
  - right. split; [done|]. eexists _, ball. split; [|exact Hg].
    apply elem_of_app. apply list_elem_of_lookup_2 in Hball. destruct who; auto.
Qed.

Lemma for_pairs_returns rng pairs fr :
  both_alive fr ->
  Forall (in_rosters fr) pairs ->
  (∃ fr', for_pairs rng pairs fr = Done fr') ∨
  (for_pairs rng pairs fr = Raise OverflowError ∧
   overflows rng (Frame.p1_balls fr ++ Frame.p2_balls fr)).
Proof.
  revert fr. induction pairs as [|[i j] rest IH]; intros fr Hb Hin; simpl;
    [left; by eauto|].
  inversion Hin as [|? ? [Hi Hj] Hrest]; subst. simpl in Hi, Hj.
  destruct (attempt_returns rng Player1 i j fr Hb Hi Hj) as [(fr1 & fl1 & H1) | [-> Ho]];
    [|by right].
  rewrite H1. simpl.
  pose proof (attempt_alive _ _ _ _ _ _ _ H1 Hb) as Hb1.
  pose proof (attempt_lengths _ _ _ _ _ _ _ H1) as [Hl1 Hl2].
  pose proof (attempt_evolves _ _ _ _ _ _ _ H1) as He1.
  assert (Forall (in_rosters fr1) rest) as Hrest1.
  { eapply Forall_impl; [exact Hrest|]. unfold in_rosters. intros [a b]. simpl. lia. }
  destruct fl1; [| | left; by eauto].
  2:{ destruct (IH fr1 Hb1 Hrest1) as [? | [? Ho]]; [by left | right].
      split; [done|]. by eapply overflows_frame. }
  destruct (attempt_returns rng Player2 j i fr1 Hb1) as [(fr2 & fl2 & H2) | [-> Ho]];
    [simpl; lia.. | | right; split; [done | by eapply overflows_frame]].
  rewrite H2. simpl.
  pose proof (attempt_alive _ _ _ _ _ _ _ H2 Hb1) as Hb2.
  pose proof (attempt_lengths _ _ _ _ _ _ _ H2) as [Hl1' Hl2'].
  pose proof (attempt_evolves _ _ _ _ _ _ _ H2) as He2.
  assert (Forall (in_rosters fr2) rest) as Hrest2.
  { eapply Forall_impl; [exact Hrest1|]. unfold in_rosters. intros [a b]. simpl. lia. }
  destruct fl2; [| | left; by eauto];
    (destruct (IH fr2 Hb2 Hrest2) as [? | [? Ho]]; [by left | right];
     split; [done|]; by eapply overflows_frame, overflows_frame).
Qed.

Lemma alive_in_roster (balls : list BattleBall.t) i :
  i ∈ alive balls -> (i < length balls)%nat.
Proof. intros (ball & Hl & _)%elem_of_alive. by eapply lookup_lt_Some. Qed.

Lemma snapshots_in_rosters fr :
  Forall (in_rosters fr) (zip (alive (Frame.p1_balls fr)) (alive (Frame.p2_balls fr))).
Proof.
  apply Forall_forall. intros [i j] Hin. split; simpl; apply alive_in_roster.
  - by apply elem_of_zip_l in Hin.
  - by apply elem_of_zip_r in Hin.
Qed.

(** The loop returns, wants more fuel, or raises the [OverflowError] of a
    damage roll of one of the balls; it raises nothing else and never
    meets a position that is not a ball. *)
Lemma while_loop_returns fuel rng fr :
  (∃ fr', while_loop fuel rng fr = Done fr') ∨ while_loop fuel rng fr = OutOfFuel ∨
  (while_loop fuel rng fr = Raise OverflowError ∧
   overflows rng (Frame.p1_balls fr ++ Frame.p2_balls fr)).
Proof.
  revert fr. induction fuel as [|fuel IH]; intros fr; simpl;
    destruct (any_alive (Frame.p1_balls fr) && any_alive (Frame.p2_balls fr)) eqn:Hc;
    eauto.
  apply andb_prop in Hc.
  destruct (for_pairs_returns rng _ fr Hc (snapshots_in_rosters fr))
    as [[fr1 H1] | [-> Ho]]; [|by auto].
  rewrite H1. simpl.
  destruct (IH fr1) as [? | [? | [? Ho]]]; [by auto | by auto |].
  right. right. split; [done|]. eapply overflows_frame; [|exact Ho].
  apply (for_pairs_lift rng
           (fun fr fr' => Forall2 evolves (Frame.p1_balls fr) (Frame.p1_balls fr') ∧
                          Forall2 evolves (Frame.p2_balls fr) (Frame.p2_balls fr')))
    in H1; [done | | | apply event_evolves].
  - intros fr0. split; apply Forall2_same, evolves_refl.
  - intros fra frb frc [Ha1 Ha2] [Hb1 Hb2].
    split; eapply Forall2_chain; eauto using evolves_trans.
Qed.

Lemma first_owner_returns balls : balls <> [] -> ∃ label, first_owner balls = Done label.
Proof. destruct balls; [done | simpl; eauto]. Qed.

Lemma all_dead_nonempty balls : all_dead balls = false -> balls <> [].
Proof. by destruct balls. Qed.

Lemma gen_battle_returns fuel rng pos battle :
  Forall (fun ball => BattleBall.dead ball = false)
    (BattleInstance.p1_balls battle ++ BattleInstance.p2_balls battle) ->
  (∃ res, gen_battle fuel rng pos battle = Done res) ∨
  gen_battle fuel rng pos battle = OutOfFuel ∨
  (gen_battle fuel rng pos battle = Raise OverflowError ∧
   overflows rng (BattleInstance.p1_balls battle ++ BattleInstance.p2_balls battle)).
Proof.
  intros Hfresh. rewrite Forall_app in Hfresh. destruct Hfresh as [Hf1 Hf2].
  unfold gen_battle. destruct (no_damage battle) eqn:Hnd; [by eauto|].
  destruct (while_loop_returns fuel rng
              (Frame.mk (BattleInstance.p1_balls battle) (BattleInstance.p2_balls battle)
                 0 pos [])) as [[fr Hw] | [-> | [-> Ho]]]; [|by auto..].
  rewrite Hw. simpl. left.
  assert (∃ label,
            (if all_dead (Frame.p1_balls fr) then first_owner (Frame.p2_balls fr)
             else if all_dead (Frame.p2_balls fr) then first_owner (Frame.p1_balls fr)
             else Done (BattleInstance.winner battle)) = Done label) as [label ->];
    [|simpl; by eauto].
  destruct (all_dead (Frame.p1_balls fr)) eqn:Hd1.
  - apply first_owner_returns. intros Hnil.
    pose proof (while_loop_evolves _ _ _ _ Hw) as [_ H2]. simpl in H2.
    apply Forall2_length in H2. rewrite Hnil in H2.
    destruct (BattleInstance.p2_balls battle) as [|b2 rest2] eqn:Hp2; [|done].
    destruct (BattleInstance.p1_balls battle) as [|b1 rest1] eqn:Hp1.
    + unfold no_damage in Hnd. by rewrite Hp1, Hp2 in Hnd.
    + apply while_loop_one_down in Hw.
      * unfold one_down in Hw. by rewrite Hd1, Hnil in Hw.
      * right. unfold one_down. simpl.
        inversion Hf1 as [|? ? Hb1 _]; subst. unfold all_dead. simpl. by rewrite Hb1.
  - destruct (all_dead (Frame.p2_balls fr)); [|by eauto].
    apply first_owner_returns. by apply all_dead_nonempty.
Qed.

Lemma to_battle_ball_fresh owner balls :
  Forall (fun ball => BattleBall.dead ball = false) (map (to_battle_ball owner) balls).
Proof. apply Forall_forall. intros ball (tb & -> & _)%list_elem_of_fmap. done. Qed.

(** Whatever the rosters, the fuel and the random source,
    [simulate_tournament_battle] returns a result, wants more fuel, or
    raises the [OverflowError] of a damage roll of one of the balls. *)
Lemma simulate_outcomes fuel rng player1_balls player2_balls n1 n2 :
  (∃ res pos,
     simulate_tournament_battle fuel rng player1_balls player2_balls n1 n2
     = Done (res, pos)) ∨
  simulate_tournament_battle fuel rng player1_balls player2_balls n1 n2 = OutOfFuel ∨
  (simulate_tournament_battle fuel rng player1_balls player2_balls n1 n2
   = Raise OverflowError ∧
   overflows rng (map (to_battle_ball n1) player1_balls
                    ++ map (to_battle_ball n2) player2_balls)).
Proof.
  unfold simulate_tournament_battle.
  destruct (gen_battle_returns fuel rng 0
              (BattleInstance.mk (map (to_battle_ball n1) player1_balls)
                 (map (to_battle_ball n2) player2_balls) EmptyString 0))
    as [[[[battle lines] pos] ->] | [-> | [-> Ho]]]; simpl; [|by eauto..].
  apply Forall_app. split; apply to_battle_ball_fresh.
Qed.

(** No damage roll raises when the source is in range and the attacks
    are at most [max_attack] in size. *)
Lemma no_overflow rng (balls : list BattleBall.t) :
  Random.in_range rng ->
  Forall (fun ball => Z.abs (BattleBall.attack ball) <= max_attack) balls ->
  ¬ overflows rng balls.
Proof.
  intros Hr Hall (pos & ball & Hin & Hg). rewrite Forall_forall in Hall.
  destruct (get_damage_returns rng pos ball Hr (Hall ball Hin)) as [d Hd]. congruence.
Qed.

(** C6, as the code has it.  Nothing is checked at entry and no input is
    rejected.  Whatever the rosters, a run returns a result, goes on
    looping, or stops at the [OverflowError] of a damage roll of one of
    the balls, which no roll raises when the source is in range and the
    attacks are at most [max_attack] in size; it raises nothing else.
    With an empty roster it returns at once, without a call to the random
    source and with a turn count of 0: the stalemate result when no ball
    has a positive attack, and otherwise an empty log with the player
    whose roster is not empty as winner. *)
Theorem no_entry_validation fuel rng player1_balls player2_balls n1 n2 :
  ((∃ res pos,
      simulate_tournament_battle fuel rng player1_balls player2_balls n1 n2
      = Done (res, pos)) ∨
   simulate_tournament_battle fuel rng player1_balls player2_balls n1 n2 = OutOfFuel ∨
   (simulate_tournament_battle fuel rng player1_balls player2_balls n1 n2
    = Raise OverflowError ∧
    overflows rng (map (to_battle_ball n1) player1_balls
                     ++ map (to_battle_ball n2) player2_balls))) ∧
  (Random.in_range rng ->
   Forall (fun ball => Z.abs (TournamentBall.attack ball) <= max_attack)
     (player1_balls ++ player2_balls) ->
   ¬ overflows rng (map (to_battle_ball n1) player1_balls
                      ++ map (to_battle_ball n2) player2_balls)) ∧
  (player1_balls = [] ∨ player2_balls = [] ->
   ∃ res,
     simulate_tournament_battle fuel rng player1_balls player2_balls n1 n2
     = Done (res, 0%nat) ∧
     BattleResult.turns res = 0 ∧
     ((Forall (fun ball => TournamentBall.attack ball <= 0)
         (player1_balls ++ player2_balls) ∧
       BattleResult.winner res = EmptyString ∧
       BattleResult.battle_log res = [stalemate_line]) ∨
      (Exists (fun ball => 0 < TournamentBall.attack ball)
         (player1_balls ++ player2_balls) ∧
       BattleResult.winner res = (if player1_balls is [] then n2 else n1) ∧
       BattleResult.battle_log res = []))).
Proof.
  split; [apply simulate_outcomes|]. split.
  { intros Hr Hall. apply no_overflow; [done|].
    apply Forall_app in Hall as [H1 H2]. apply Forall_app.
    split; apply Forall_forall; intros ball (tb & -> & Hin)%list_elem_of_fmap; simpl;
      [rewrite Forall_forall in H1; by apply H1
      | rewrite Forall_forall in H2; by apply H2]. }
  intros Hempty.
  destruct (decide (Forall (fun ball => TournamentBall.attack ball <= 0)
                      (player1_balls ++ player2_balls))) as [Hall | Hex];
    [|apply not_Forall_Exists in Hex; [|solve_decision]].
  { rewrite (stalemate_run _ _ _ _ _ _ Hall). eexists. split; [done|].
    split; [done|]. left. done. }
  assert (Exists (fun ball => 0 < TournamentBall.attack ball)
            (player1_balls ++ player2_balls)) as Hpos.
  { eapply Exists_impl; [exact Hex|]. simpl. intros. lia. }
  assert (no_damage (BattleInstance.mk (map (to_battle_ball n1) player1_balls)
                       (map (to_battle_ball n2) player2_balls) EmptyString 0) = false)
    as Hnd.
  { apply not_true_is_false. intros Htrue. unfold no_damage in Htrue. simpl in Htrue.
    rewrite forallb_forall in Htrue. apply Exists_exists in Hpos as (tb & Hin & Htb).
    apply elem_of_app in Hin.
    assert (∃ owner, In (to_battle_ball owner tb)
                       (map (to_battle_ball n1) player1_balls
                          ++ map (to_battle_ball n2) player2_balls)) as [owner Hin'].
    { destruct Hin as [Hin | Hin]; [exists n1 | exists n2];
        apply in_or_app; [left | right]; apply in_map; by apply list_elem_of_In. }
    apply Htrue in Hin'. simpl in Hin'. apply Z.leb_le in Hin'. lia. }
  unfold simulate_tournament_battle, gen_battle. rewrite Hnd.
  destruct Hempty as [-> | ->].
  - destruct player2_balls as [|b2 rest2]; [by inversion Hpos|].
    destruct fuel; simpl; eexists; (split; [done|]); split; try done; right; done.
  - destruct player1_balls as [|b1 rest1]; [by inversion Hpos|].
    assert (any_alive (map (to_battle_ball n1) (b1 :: rest1)) && any_alive [] = false)
      as Hc by apply andb_false_r.
    destruct fuel; simpl in *; rewrite ?Hc; simpl;
      eexists; (split; [done|]); split; try done; right; done.
Qed.

Lemma no_entry_validation_witness :
  ∃ res,
    simulate_tournament_battle 0 always_miss [] [tball "B" 0 5] "ann" "bob"
    = Done (res, 0%nat) ∧
    BattleResult.turns res = 0 ∧
    ((Forall (fun ball => TournamentBall.attack ball <= 0) ([] ++ [tball "B" 0 5]) ∧
      BattleResult.winner res = EmptyString ∧
      BattleResult.battle_log res = [stalemate_line]) ∨
     (Exists (fun ball => 0 < TournamentBall.attack ball) ([] ++ [tball "B" 0 5]) ∧
      BattleResult.winner res = "bob" ∧
      BattleResult.battle_log res = [])).
Proof.
  apply (proj2 (proj2 (no_entry_validation 0 always_miss [] [tball "B" 0 5] "ann" "bob"))).
  left. reflexivity.
Defined.

(** C6 as the specification words it fails: an empty roster, and a ball
    with a starting health of 0 or less, are accepted, and each of these
    runs returns a winner. *)
Lemma unchecked_rosters :
  simulate_tournament_battle 0 always_miss [] [tball "B" 0 5] "ann" "bob"
  = Done (BattleResult.mk "bob" 0 [], 0%nat) ∧
  simulate_tournament_battle 1 steady [tball "A" 10 5] [tball "B" (-3) 5] "ann" "bob"
  = Done (BattleResult.mk "ann" 1 ["Turn 1: ann's A has killed bob's B"], 3%nat).
Proof. split; by vm_compute. Qed.

(** ** The results of a block, from its conditions *)

Lemma attempt_skip rng who mine theirs fr ball other :
  balls_of who fr !! mine = Some ball ->
  balls_of (opponent who) fr !! theirs = Some other ->
  BattleBall.dead ball = true ->
  attempt rng who mine theirs fr = Done (fr, Fallthrough).
Proof. intros Hb Ho Hd. unfold attempt. by rewrite Hb, Ho, Hd. Qed.

Lemma attempt_miss rng who mine theirs fr ball other :
  balls_of who fr !! mine = Some ball ->
  balls_of (opponent who) fr !! theirs = Some other ->
  BattleBall.dead ball = false ->
  Random.randint_0_100 rng (Frame.pos fr) <= 30 ->
  attempt rng who mine theirs fr = Done (miss_frame fr ball other, Continue).
Proof.
  intros Hb Ho Hd Hr. unfold attempt, random_events. rewrite Hb, Ho, Hd.
  apply Z.leb_le in Hr. by rewrite Hr.
Qed.

Lemma attempt_blow rng who mine theirs fr ball other target enemy d :
  balls_of who fr !! mine = Some ball ->
  balls_of (opponent who) fr !! theirs = Some other ->
  BattleBall.dead ball = false ->
  30 < Random.randint_0_100 rng (Frame.pos fr) ->
  Random.choice rng (S (Frame.pos fr)) (alive (balls_of (opponent who) fr)) = Done target ->
  balls_of (opponent who) fr !! target = Some enemy ->
  get_damage rng (S (S (Frame.pos fr))) ball = Done (d, S (S (S (Frame.pos fr)))) ->
  attempt rng who mine theirs fr
  = Done (blow_frame who fr ball d target enemy,
          if all_dead (balls_of (opponent who) (blow_frame who fr ball d target enemy))
          then Break else Fallthrough).
Proof.
  intros Hb Ho Hd Hr Hc Hl Hg. unfold attempt, random_events, attack. rewrite Hb, Ho, Hd.
  apply Z.leb_gt in Hr. rewrite Hr. simpl. rewrite Hc. simpl. rewrite Hl. simpl.
  rewrite Hg. simpl.
  destruct (balls_of_blow_frame who fr ball d target enemy) as [_ Hopp].
  rewrite Hopp. unfold all_dead, blow_frame, blow_text. simpl.
  by destruct (forallb BattleBall.dead _).
Qed.

(** ** Determinism *)

Lemma agree_upto_le n m rng rng' : (m <= n)%nat -> agree_upto n rng rng' -> agree_upto m rng rng'.
Proof. intros Hle H k Hk. apply H. lia. Qed.

Lemma event_pos rng who fr fr' : event rng who fr fr' -> (Frame.pos fr < Frame.pos fr')%nat.
Proof.
  intros [ball other _ _ _ | ball d target enemy _ _ _ _ _ _]; simpl; [lia|].
  unfold blow_frame. destruct who; simpl; lia.
Qed.

Lemma attempt_pos rng who mine theirs fr fr' fl :
  attempt rng who mine theirs fr = Done (fr', fl) -> (Frame.pos fr <= Frame.pos fr')%nat.
Proof.
  apply (attempt_lift rng (fun fr fr' => (Frame.pos fr <= Frame.pos fr')%nat)); [lia|].
  intros w fr1 fr2 H%event_pos. lia.
Qed.

Lemma for_pairs_pos rng pairs fr fr' :
  for_pairs rng pairs fr = Done fr' -> (Frame.pos fr <= Frame.pos fr')%nat.
Proof.
  apply (for_pairs_lift rng (fun fr fr' => (Frame.pos fr <= Frame.pos fr')%nat)); [lia..|].
  intros w fr1 fr2 H%event_pos. lia.
Qed.

Lemma while_loop_pos fuel rng fr fr' :
  while_loop fuel rng fr = Done fr' -> (Frame.pos fr <= Frame.pos fr')%nat.
Proof.
  apply (while_loop_lift rng (fun fr fr' => (Frame.pos fr <= Frame.pos fr')%nat)); [lia..|].
  intros w fr1 fr2 H%event_pos. lia.
Qed.

Lemma choice_agree {A : Type} rng rng' pos (seq : list A) :
  Random.choice_pick rng pos = Random.choice_pick rng' pos ->
  Random.choice rng pos seq = Random.choice rng' pos seq.
Proof. unfold Random.choice. by intros ->. Qed.

Lemma get_damage_agree rng rng' pos ball :
  Random.uniform_08_12 rng pos = Random.uniform_08_12 rng' pos ->
  get_damage rng pos ball = get_damage rng' pos ball.
Proof. unfold get_damage. by intros ->. Qed.

(** A block reads the random source below the position it leaves it at. *)
Lemma attempt_agree rng rng' who mine theirs fr fr' fl :
  attempt rng who mine theirs fr = Done (fr', fl) ->
  agree_upto (Frame.pos fr') rng rng' ->
  attempt rng' who mine theirs fr = Done (fr', fl).
Proof.
  intros H Hag. apply attempt_Done in H
    as (ball & other & Hb & Ho
        & [(Hd & -> & ->) | [(Hd & Hr & -> & ->) | (Hd & Hr & H)]]).
  - by eapply attempt_skip.
  - eapply attempt_miss; try done.
    destruct (Hag (Frame.pos fr)) as (<- & _); [simpl; lia | done].
  - destruct H as (target & enemy & d & Hl & Hde & Hc & Hg & -> & ->).
    assert (Frame.pos (blow_frame who fr ball d target enemy)
            = S (S (S (Frame.pos fr)))) as Hpos
      by (unfold blow_frame; by destruct who).
    rewrite Hpos in Hag.
    destruct (Hag (Frame.pos fr)) as (Hr0 & _); [lia|].
    destruct (Hag (S (Frame.pos fr))) as (_ & Hc1 & _); [lia|].
    destruct (Hag (S (S (Frame.pos fr)))) as (_ & _ & Hu2); [lia|].
    eapply attempt_blow; try done; [lia | |].
    + by rewrite <- (choice_agree rng rng').
    + by rewrite <- (get_damage_agree rng rng').
Qed.

Lemma for_pairs_agree rng rng' pairs fr fr' :
  for_pairs rng pairs fr = Done fr' ->
  agree_upto (Frame.pos fr') rng rng' ->
  for_pairs rng' pairs fr = Done fr'.
Proof.
  revert fr. induction pairs as [|[i j] rest IH]; intros fr H Hag; simpl in *; [done|].
  destruct (attempt rng Player1 i j fr) as [[fr1 fl1]| | |] eqn:H1; simpl in H;
    try discriminate.
  assert (Frame.pos fr1 <= Frame.pos fr')%nat as Hle1.
  { destruct fl1.
    - destruct (attempt rng Player2 j i fr1) as [[fr2 fl2]| | |] eqn:H2; simpl in H;
        try discriminate.
      apply attempt_pos in H2.
      destruct fl2; [apply for_pairs_pos in H | apply for_pairs_pos in H
                     | injection H as <-]; lia.
    - by apply for_pairs_pos in H.
    - injection H as <-. lia. }
  rewrite (attempt_agree rng rng' _ _ _ _ _ _ H1) by (by eapply agree_upto_le).
  simpl. destruct fl1; [| by apply IH | done].
  destruct (attempt rng Player2 j i fr1) as [[fr2 fl2]| | |] eqn:H2; simpl in H;
    try discriminate.
  assert (Frame.pos fr2 <= Frame.pos fr')%nat as Hle2.
  { destruct fl2; [apply for_pairs_pos in H | apply for_pairs_pos in H
                   | injection H as <-]; lia. }
  rewrite (attempt_agree rng rng' _ _ _ _ _ _ H2) by (by eapply agree_upto_le).
  simpl. destruct fl2; [by apply IH | by apply IH | done].
Qed.

Lemma while_loop_agree fuel rng rng' fr fr' :
  while_loop fuel rng fr = Done fr' ->
  agree_upto (Frame.pos fr') rng rng' ->
  while_loop fuel rng' fr = Done fr'.
Proof.
  revert fr. induction fuel as [|fuel IH]; intros fr H Hag; simpl in *;
    destruct (any_alive (Frame.p1_balls fr) && any_alive (Frame.p2_balls fr));
    try done.
  destruct (for_pairs rng _ fr) as [fr1| | |] eqn:H1; simpl in H; try discriminate.
  pose proof (while_loop_pos _ _ _ _ H) as Hle.
  rewrite (for_pairs_agree rng rng' _ _ _ H1) by (by eapply agree_upto_le).
  simpl. by apply IH.
Qed.

(** More fuel does not change the result of a loop that returns. *)
Lemma while_loop_more_fuel fuel fuel' rng fr fr' :
  while_loop fuel rng fr = Done fr' -> (fuel <= fuel')%nat ->
  while_loop fuel' rng fr = Done fr'.
Proof.
  revert fuel' fr. induction fuel as [|fuel IH]; intros fuel' fr H Hle; simpl in H.
  - destruct fuel'; simpl;
      destruct (any_alive (Frame.p1_balls fr) && any_alive (Frame.p2_balls fr)); done.
  - destruct fuel' as [|fuel']; [lia|]. simpl.
    destruct (any_alive (Frame.p1_balls fr) && any_alive (Frame.p2_balls fr)); [|done].
    destruct (for_pairs rng _ fr) as [fr1| | |]; simpl in *; try discriminate.
    apply IH; [done | lia].
Qed.

Lemma gen_battle_agree fuel rng rng' pos battle battle' lines pos' :
  gen_battle fuel rng pos battle = Done (battle', lines, pos') ->
  agree_upto pos' rng rng' ->
  gen_battle fuel rng' pos battle = Done (battle', lines, pos').
Proof.
  unfold gen_battle. destruct (no_damage battle); [done|]. intros H Hag.
  destruct (while_loop fuel rng _) as [fr| | |] eqn:Hw; simpl in H; try discriminate.
  assert (pos' = Frame.pos fr) as ->.
  { destruct (if all_dead (Frame.p1_balls fr) then _ else _); simpl in H;
      try discriminate. by injection H. }
  by rewrite (while_loop_agree fuel rng rng' _ _ Hw).
Qed.

Lemma gen_battle_more_fuel fuel fuel' rng pos battle res :
  gen_battle fuel rng pos battle = Done res -> (fuel <= fuel')%nat ->
  gen_battle fuel' rng pos battle = Done res.
Proof.
  unfold gen_battle. destruct (no_damage battle); [done|]. intros H Hle.
  destruct (while_loop fuel rng _) as [fr| | |] eqn:Hw; simpl in H; try discriminate.
  by rewrite (while_loop_more_fuel fuel fuel' rng _ _ Hw).
Qed.

(** C9.  The result of a battle is a function of the rosters, the names
    and the values drawn from the random source: if a run returns after
    [pos] calls, every run on the same rosters and names with a random
    source that returns the same values at its first [pos] calls returns
    the same log, winner and turn count, and makes the same number of
    calls, whatever the later values of the source and however many rounds
    the run is allowed. *)
Theorem deterministic_given_draws fuel fuel' rng rng' player1_balls player2_balls
    n1 n2 res pos out :
  simulate_tournament_battle fuel rng player1_balls player2_balls n1 n2 = Done (res, pos) ->
  agree_upto pos rng rng' ->
  simulate_tournament_battle fuel' rng' player1_balls player2_balls n1 n2 = Done out ->
  simulate_tournament_battle fuel rng' player1_balls player2_balls n1 n2 = Done (res, pos) ∧
  out = (res, pos).
Proof.
  unfold simulate_tournament_battle. intros H Hag H'.
  destruct (gen_battle fuel rng 0 _) as [[[battle lines] pos1]| | |] eqn:Hg;
    simpl in H; try discriminate.
  assert (pos1 = pos) as -> by (by injection H).
  apply (gen_battle_agree _ _ rng') in Hg; [|done].
  rewrite Hg. simpl. split; [done|].
  destruct (gen_battle fuel' rng' 0 _) as [[[battle2 lines2] pos2]| | |] eqn:Hg';
    simpl in H'; try discriminate.
  apply (gen_battle_more_fuel _ (Nat.max fuel fuel')) in Hg; [|lia].
  apply (gen_battle_more_fuel _ (Nat.max fuel fuel')) in Hg'; [|lia].
  rewrite Hg in Hg'. injection Hg' as <- <- <-. congruence.
Qed.

Lemma deterministic_given_draws_witness :
  simulate_tournament_battle 5 (fading 3) [tball "A" 100 50] [tball "B" 10 0] "ann" "bob"
  = Done (BattleResult.mk "ann" 1 ["Turn 1: ann's A has killed bob's B"], 3%nat) ∧
  (BattleResult.mk "ann" 1 ["Turn 1: ann's A has killed bob's B"], 3%nat)
  = (BattleResult.mk "ann" 1 ["Turn 1: ann's A has killed bob's B"], 3%nat).
Proof.
  apply (deterministic_given_draws 5 7 steady (fading 3)
           [tball "A" 100 50] [tball "B" 10 0] "ann" "bob").
  - vm_compute. reflexivity.
  - intros k Hk. simpl. apply Nat.ltb_lt in Hk. rewrite Hk. repeat split.
  - vm_compute. reflexivity.
Defined.

(** ** Termination *)




Section termination.
Variable rng : Random.RandomSource.
Variable K : nat.
Hypothesis rng_in_range : Random.in_range rng.
Hypothesis no_late_miss : forall n, (K <= n)%nat -> 30 < Random.randint_0_100 rng n.








End termination.





(** The run of that witness: two misses, then the blows. *)
Example late_steady_battle :
  simulate_tournament_battle 5 (late_steady 2) [tball "A" 10 5] [tball "B" 7 4] "ann" "bob"
  = Done (BattleResult.mk "ann" 5
            ["Turn 1: ann's A missed bob's B";
             "Turn 2: ann's A missed bob's B";
             "Turn 3: ann's A has dealt 5 damage to bob's B";
             "Turn 4: bob's B has dealt 4 damage to ann's A";
             "Turn 5: ann's A has killed bob's B"], 11%nat).
Proof. by vm_compute. Qed.



Lemma zero_damage_step turn pos lines :
  ∃ turn' pos' lines',
    for_pairs (scaling (7 # 8)) [(0%nat, 0%nat)]
      (Frame.mk [bball "ann" "A" 10 1] [bball "bob" "B" 10 1] turn pos lines)
    = Done (Frame.mk [bball "ann" "A" 10 1] [bball "bob" "B" 10 1] turn' pos' lines').
Proof. do 3 eexists. vm_compute. reflexivity. Qed.

Lemma zero_damage_round fuel turn pos lines :
  while_loop fuel (scaling (7 # 8))
    (Frame.mk [bball "ann" "A" 10 1] [bball "bob" "B" 10 1] turn pos lines)
  = OutOfFuel.
Proof.
  revert turn pos lines. induction fuel as [|fuel IH]; intros turn pos lines; [done|].
  destruct (zero_damage_step turn pos lines) as (turn' & pos' & lines' & Hstep).
  change (while_loop (S fuel) (scaling (7 # 8))
            (Frame.mk [bball "ann" "A" 10 1] [bball "bob" "B" 10 1] turn pos lines))
    with (let* fr := for_pairs (scaling (7 # 8)) [(0%nat, 0%nat)]
                       (Frame.mk [bball "ann" "A" 10 1] [bball "bob" "B" 10 1]
                          turn pos lines) in
          while_loop fuel (scaling (7 # 8)) fr).
  rewrite Hstep. apply IH.
Qed.

(** Misses are not the only way: with an attack of 1 and the multiplier
    0.875 every blow deals [int(0.875) = 0], and the battle does not return
    although no roll is a miss. *)
Example zero_damage_never_returns :
  ¬ ∃ fuel out,
      simulate_tournament_battle fuel (scaling (7 # 8)) [tball "A" 10 1] [tball "B" 10 1]
        "ann" "bob" = Done out.
Proof.
  intros (fuel & out & H). unfold simulate_tournament_battle, gen_battle in H.
  simpl in H. change (to_battle_ball "ann" (tball "A" 10 1)) with (bball "ann" "A" 10 1) in H.
  change (to_battle_ball "bob" (tball "B" 10 1)) with (bball "bob" "B" 10 1) in H.
  by rewrite zero_damage_round in H.
Qed.

(** ** What a battle never changes *)

(** X1.  A battle that completes leaves both rosters with the same balls in
    the same order: the name, owner, attack and emoji of every ball are
    the ones it started with, and a ball that was dead at the start is
    left exactly as it was (no ball is revived, no dead ball is hit). *)
Theorem battle_keeps_balls fuel rng pos battle battle' lines pos' :
  gen_battle fuel rng pos battle = Done (battle', lines, pos') ->
  Forall2 evolves (BattleInstance.p1_balls battle) (BattleInstance.p1_balls battle') ∧
  Forall2 evolves (BattleInstance.p2_balls battle) (BattleInstance.p2_balls battle').
Proof.
  intros H. destruct (no_damage battle) eqn:Hnd.
  - unfold gen_battle in H. rewrite Hnd in H. injection H as <- _ _.
    split; apply Forall2_same, evolves_refl.
  - apply gen_battle_Done in H as (fr & Hw & -> & -> & _); [|done].
    by apply while_loop_evolves in Hw.
Qed.

Lemma battle_keeps_balls_witness :
  Forall2 evolves [bball "ann" "A" 10 (-5)]
    [BattleBall.mk "A" "ann" 0 (-5) EmptyString true] ∧
  Forall2 evolves [bball "bob" "B" 10 5] [bball "bob" "B" 20 5].
Proof.
  exact (battle_keeps_balls 5 (scaling 1) 0
           (BattleInstance.mk [bball "ann" "A" 10 (-5)] [bball "bob" "B" 10 5]
              EmptyString 0) _ _ _ healing_battle).
Defined.

(** ** Dead means no health *)

Lemma take_damage_settled d enemy :
  BattleBall.dead enemy = false -> settled (take_damage d enemy).
Proof.
  intros Hd. unfold settled. rewrite take_damage_health, take_damage_dead, Hd, orb_false_r.
  split; [intros Hgt%Z.leb_gt | intros Hle%Z.leb_le]; lia.
Qed.

Lemma event_settled rng who fr fr' :
  event rng who fr fr' ->
  Forall settled (Frame.p1_balls fr) ∧ Forall settled (Frame.p2_balls fr) ->
  Forall settled (Frame.p1_balls fr') ∧ Forall settled (Frame.p2_balls fr').
Proof.
  intros [ball other _ _ _ | ball d target enemy _ _ _ Hl Hd _] [H1 H2]; [done|].
  assert (Forall settled (balls_of who fr) ∧ Forall settled (balls_of (opponent who) fr))
    as [Hown Hopp] by (by destruct who).
  destruct (balls_of_blow_frame who fr ball d target enemy) as [Hsame Hhit].
  assert (Forall settled (balls_of who (blow_frame who fr ball d target enemy)) ∧
          Forall settled (balls_of (opponent who) (blow_frame who fr ball d target enemy)))
    as Hboth.
  { rewrite Hsame, Hhit. split; [done|].
    apply Forall_insert; [done|]. by apply take_damage_settled. }
  destruct who; simpl in Hboth; tauto.
Qed.

(** X2.  When every ball of both rosters starts either alive with a health
    above 0 or dead with a health of 0, a battle that completes leaves
    every ball in one of these two states: a ball is dead exactly when
    its health is 0, whatever the attack values. *)
Theorem dead_iff_no_health fuel rng pos battle battle' lines pos' :
  gen_battle fuel rng pos battle = Done (battle', lines, pos') ->
  Forall settled (BattleInstance.p1_balls battle ++ BattleInstance.p2_balls battle) ->
  Forall settled (BattleInstance.p1_balls battle' ++ BattleInstance.p2_balls battle').
Proof.
  intros H Hs. destruct (no_damage battle) eqn:Hnd.
  - unfold gen_battle in H. rewrite Hnd in H. by injection H as <- _ _.
  - apply gen_battle_Done in H as (fr & Hw & -> & -> & _); [|done].
    rewrite Forall_app in *.
    revert Hs.
    refine (while_loop_lift rng
              (fun fr fr' =>
                 Forall settled (Frame.p1_balls fr) ∧ Forall settled (Frame.p2_balls fr) ->
                 Forall settled (Frame.p1_balls fr') ∧ Forall settled (Frame.p2_balls fr'))
              _ _ _ fuel _ fr Hw); [auto | auto |].
    intros who fr1 fr2. apply event_settled.
Qed.

Lemma dead_iff_no_health_witness :
  Forall settled ([BattleBall.mk "A" "ann" 0 (-5) EmptyString true]
                    ++ [bball "bob" "B" 20 5]).
Proof.
  apply (dead_iff_no_health 5 (scaling 1) 0
           (BattleInstance.mk [bball "ann" "A" 10 (-5)] [bball "bob" "B" 10 5]
              EmptyString 0) _ _ _ healing_battle).
  simpl. repeat constructor; simpl; (lia || discriminate).
Defined.

(** ** What one blow does *)

(** X3.  [attack] raises [IndexError] when the enemy roster has no living
    ball.  Otherwise it picks a living ball of the roster and rolls the
    damage.  When the roll returns, [attack] returns after two calls to
    the random source, having replaced that ball by what the damage
    leaves of it, all other positions of the roster being as before; when
    the roll raises [OverflowError], so does [attack].  It returns when
    the random source is in range and the attack of the striking ball is
    at most [max_attack] in size. *)
Theorem attack_outcome rng pos current_ball enemy_balls :
  if any_alive enemy_balls then
    (∃ target enemy,
       enemy_balls !! target = Some enemy ∧ BattleBall.dead enemy = false ∧
       ((∃ d text,
           get_damage rng (S pos) current_ball = Done (d, S (S pos)) ∧
           attack rng pos current_ball enemy_balls
           = Done (<[target := take_damage d enemy]> enemy_balls, text, S (S pos)) ∧
           forall i, i <> target ->
             (<[target := take_damage d enemy]> enemy_balls) !! i = enemy_balls !! i) ∨
        (get_damage rng (S pos) current_ball = Raise OverflowError ∧
         attack rng pos current_ball enemy_balls = Raise OverflowError))) ∧
    (Random.in_range rng ->
     Z.abs (BattleBall.attack current_ball) <= max_attack ->
     ∃ res, attack rng pos current_ball enemy_balls = Done res)
  else attack rng pos current_ball enemy_balls = Raise IndexError.
Proof.
  destruct (any_alive enemy_balls) eqn:Ha.
  - split.
    + pose proof Ha as Ha'. apply any_alive_alive in Ha'.
      destruct (choice_nonempty rng pos _ Ha') as (target & Hc & Hin).
      apply elem_of_alive in Hin as (enemy & Hl & Hd).
      exists target, enemy. split; [done|]. split; [done|].
      unfold attack. rewrite Hc. simpl. rewrite Hl. simpl.
      destruct (get_damage_cases rng (S pos) current_ball) as [[d Hg] | Hg];
        rewrite Hg; simpl; [left | by right].
      exists d. eexists. split; [done|]. split; [done|].
      intros i Hi. by rewrite list_lookup_insert_ne.
    + intros Hr Hb. destruct (attack_returns rng pos current_ball enemy_balls Ha)
        as [H | [_ Hg]]; [done|].
      destruct (get_damage_returns rng (S pos) current_ball Hr Hb) as [d Hd]. congruence.
  - assert (alive enemy_balls = []) as Hnil.
    { destruct (alive enemy_balls) eqn:Hal; [done|].
      assert (any_alive enemy_balls = true) as Ht by (apply any_alive_alive; by rewrite Hal).
      congruence. }
    unfold attack. rewrite Hnil. by rewrite choice_empty.
Qed.

Lemma attack_outcome_witness :
  ∃ res,
    attack (scaling (7 # 8)) 0 (bball "ann" "A" 10 2)
      [bball "bob" "B" 10 5; bball "bob" "C" 9 1] = Done res.
Proof.
  apply (proj2 (attack_outcome (scaling (7 # 8)) 0 (bball "ann" "A" 10 2)
                  [bball "bob" "B" 10 5; bball "bob" "C" 9 1])).
  - exact scaling_in_range.
  - by vm_compute.
Defined.

Lemma killed_text_not_dealt_text ball enemy attack_dealt enemy' :
  killed_text ball enemy <> dealt_text ball attack_dealt enemy'.
Proof.
  unfold killed_text, dealt_text. intros H.
  apply append_inj_l in H; simpl in H; injection H as H.
  apply append_inj_l in H; simpl in H; discriminate.
Qed.

(** X4.  The line of a blow tells what the blow did.  The ball that was hit
    is dead after the blow exactly when the text is the one of a kill, and
    then its health is 0; otherwise the text is the one of a hit, the
    damage it shows is the health that the ball has lost, and the ball is
    left with a health above 0. *)
Theorem blow_text_accurate rng pos current_ball enemy_balls enemy_balls' text pos' :
  attack rng pos current_ball enemy_balls = Done (enemy_balls', text, pos') ->
  ∃ target enemy enemy',
    enemy_balls !! target = Some enemy ∧ enemy_balls' !! target = Some enemy' ∧
    (BattleBall.dead enemy' = true <-> text = killed_text current_ball enemy') ∧
    (BattleBall.dead enemy' = true -> BattleBall.health enemy' = 0) ∧
    (BattleBall.dead enemy' = false ->
     text = dealt_text current_ball
              (BattleBall.health enemy - BattleBall.health enemy') enemy' ∧
     0 < BattleBall.health enemy').
Proof.
  intros H.
  apply attack_Done in H as (target & enemy & d & Hl & Hd & _ & _ & _ & Heq & Ht & _).
  exists target, enemy, (take_damage d enemy). split; [done|].
  split; [subst; apply list_lookup_insert_eq; by eapply lookup_lt_Some|].
  pose proof (take_damage_settled d enemy Hd) as [Halive Hdead].
  destruct (BattleBall.dead (take_damage d enemy)) eqn:Hd'.
  - split; [done|]. split; [auto|]. discriminate.
  - split; [split; [discriminate|]|].
    { intros Heq'. rewrite Ht in Heq'. symmetry in Heq'.
      by apply killed_text_not_dealt_text in Heq'. }
    split; [discriminate|]. intros _. split; [|auto].
    rewrite Ht. f_equal. rewrite take_damage_health.
    rewrite take_damage_dead, Hd, orb_false_r in Hd'. apply Z.leb_gt in Hd'. lia.
Qed.

Lemma blow_text_accurate_witness :
  ∃ target enemy enemy',
    [bball "bob" "B" 10 5; bball "bob" "C" 9 1] !! target = Some enemy ∧
    [bball "bob" "B" 9 5; bball "bob" "C" 9 1] !! target = Some enemy' ∧
    (BattleBall.dead enemy' = true <->
     "ann's A has dealt 1 damage to bob's B" = killed_text (bball "ann" "A" 10 2) enemy') ∧
    (BattleBall.dead enemy' = true -> BattleBall.health enemy' = 0) ∧
    (BattleBall.dead enemy' = false ->
     "ann's A has dealt 1 damage to bob's B"
     = dealt_text (bball "ann" "A" 10 2)
         (BattleBall.health enemy - BattleBall.health enemy') enemy' ∧
     0 < BattleBall.health enemy').
Proof.
  exact (blow_text_accurate (scaling (7 # 8)) 0 (bball "ann" "A" 10 2)
           [bball "bob" "B" 10 5; bball "bob" "C" 9 1] _ _ _ scaled_blow).
Defined.

(** ** Turns and calls to the random source *)

Lemma event_counts rng who fr fr' :
  event rng who fr fr' ->
  Frame.turn fr' = Frame.turn fr + 1 ∧
  (Frame.pos fr' = S (Frame.pos fr) ∨ Frame.pos fr' = S (S (S (Frame.pos fr)))).
Proof.
  intros [ball other _ _ _ | ball d target enemy _ _ _ _ _ _]; simpl; [by auto|].
  unfold blow_frame. destruct who; simpl; auto.
Qed.

(** A block counts no turn, or one; one when its ball is alive. *)
Lemma attempt_turn rng who mine theirs fr fr' fl :
  attempt rng who mine theirs fr = Done (fr', fl) ->
  Frame.turn fr <= Frame.turn fr' <= Frame.turn fr + 1 ∧
  (forall ball, balls_of who fr !! mine = Some ball -> BattleBall.dead ball = false ->
                Frame.turn fr' = Frame.turn fr + 1).
Proof.
  intros H. apply attempt_Done in H
    as (ball & other & Hb & _ & [(Hd & -> & _) | [(_ & _ & -> & _) | (_ & _ & H)]]).
  - split; [lia|]. intros b Hb' Hd'. congruence.
  - simpl. split; [lia | done].
  - destruct H as (target & enemy & d & _ & _ & _ & _ & -> & _).
    assert (Frame.turn (blow_frame who fr ball d target enemy) = Frame.turn fr + 1) as ->
      by (unfold blow_frame; by destruct who).
    split; [lia | done].
Qed.

Lemma for_pairs_turn rng pairs fr fr' :
  for_pairs rng pairs fr = Done fr' ->
  Frame.turn fr <= Frame.turn fr' <= Frame.turn fr + 2 * Z.of_nat (length pairs).
Proof.
  revert fr. induction pairs as [|[i j] rest IH]; intros fr H; simpl in H.
  { injection H as <-. simpl. lia. }
  destruct (attempt rng Player1 i j fr) as [[fr1 fl1]| | |] eqn:H1; simpl in H;
    try discriminate.
  apply attempt_turn in H1 as [H1 _]. cbn [length].
  destruct fl1; [| apply IH in H; lia | injection H as <-; lia].
  destruct (attempt rng Player2 j i fr1) as [[fr2 fl2]| | |] eqn:H2; simpl in H;
    try discriminate.
  apply attempt_turn in H2 as [H2 _].
  destruct fl2; [apply IH in H | apply IH in H | injection H as <-]; lia.
Qed.

(** The first block of a round is the one of a living ball: it counts a turn. *)
Lemma for_pairs_first_turn rng i j rest fr fr' ball :
  for_pairs rng ((i, j) :: rest) fr = Done fr' ->
  Frame.p1_balls fr !! i = Some ball -> BattleBall.dead ball = false ->
  Frame.turn fr + 1 <= Frame.turn fr'.
Proof.
  simpl. intros H Hl Hd.
  destruct (attempt rng Player1 i j fr) as [[fr1 fl1]| | |] eqn:H1; simpl in H;
    try discriminate.
  apply attempt_turn in H1 as [_ H1]. specialize (H1 ball Hl Hd).
  destruct fl1; [| apply for_pairs_turn in H; lia | injection H as <-; lia].
  destruct (attempt rng Player2 j i fr1) as [[fr2 fl2]| | |] eqn:H2; simpl in H;
    try discriminate.
  apply attempt_turn in H2 as [H2 _].
  destruct fl2; [apply for_pairs_turn in H | apply for_pairs_turn in H
                 | injection H as <-]; lia.
Qed.

Lemma round_first_turn rng fr fr' :
  both_alive fr ->
  for_pairs rng (zip (alive (Frame.p1_balls fr)) (alive (Frame.p2_balls fr))) fr
  = Done fr' ->
  Frame.turn fr + 1 <= Frame.turn fr'.
Proof.
  intros [Ha1 Ha2] H. apply any_alive_alive in Ha1, Ha2.
  destruct (alive (Frame.p1_balls fr)) as [|i l1] eqn:Hal1; [done|].
  destruct (alive (Frame.p2_balls fr)) as [|j l2] eqn:Hal2; [done|].
  apply alive_head in Hal1 as (ball & Hl & Hd).
  change (zip (i :: l1) (j :: l2)) with ((i, j) :: zip l1 l2) in H.
  by eapply for_pairs_first_turn.
Qed.

(** X5.  A round, the [for] loop over the paired snapshots of the living
    balls, counts at least one turn and at most two for each pair: at
    most twice the number of living balls of the side that has fewer.
    The living balls beyond that number make no attempt in the round. *)
Theorem round_turns rng fr fr' :
  both_alive fr ->
  for_pairs rng (zip (alive (Frame.p1_balls fr)) (alive (Frame.p2_balls fr))) fr
  = Done fr' ->
  Frame.turn fr + 1 <= Frame.turn fr'
  <= Frame.turn fr
     + 2 * Z.of_nat (length (alive (Frame.p1_balls fr))
                       `min` length (alive (Frame.p2_balls fr))).
Proof.
  intros Hb H. split.
  - by eapply round_first_turn.
  - apply for_pairs_turn in H. rewrite length_zip in H. lia.
Qed.

Lemma round_turns_witness :
  0 + 1 <= 2
  <= 0 + 2 * Z.of_nat (length (alive [bball "ann" "A" 10 5; bball "ann" "A2" 10 5;
                                       bball "ann" "A3" 10 5])
                         `min` length (alive [bball "bob" "B" 7 4])).
Proof.
  apply (round_turns steady
           (Frame.mk [bball "ann" "A" 10 5; bball "ann" "A2" 10 5; bball "ann" "A3" 10 5]
              [bball "bob" "B" 7 4] 0 0 [])
           (Frame.mk [bball "ann" "A" 6 5; bball "ann" "A2" 10 5; bball "ann" "A3" 10 5]
              [bball "bob" "B" 2 4] 2 6
              ["Turn 1: ann's A has dealt 5 damage to bob's B";
               "Turn 2: bob's B has dealt 4 damage to ann's A"])).
  - split; reflexivity.
  - vm_compute. reflexivity.
Defined.

(** X6.  A battle that completes has made, for its [turns] turns, between
    [turns] and [3 * turns] calls to the random source: one for a miss
    and three for a blow (the roll, the choice of the target and the
    damage), and none outside a turn. *)
Theorem draws_per_turn fuel rng player1_balls player2_balls n1 n2 res pos :
  simulate_tournament_battle fuel rng player1_balls player2_balls n1 n2 = Done (res, pos) ->
  BattleResult.turns res <= Z.of_nat pos <= 3 * BattleResult.turns res.
Proof.
  unfold simulate_tournament_battle. intros H.
  destruct (gen_battle fuel rng 0 _) as [[[battle' lines] pos']| | |] eqn:Hg;
    simpl in H; try discriminate.
  injection H as <- <-. simpl.
  destruct (no_damage (BattleInstance.mk (map (to_battle_ball n1) player1_balls)
                         (map (to_battle_ball n2) player2_balls) EmptyString 0)) eqn:Hnd.
  - unfold gen_battle in Hg. rewrite Hnd in Hg. injection Hg as <- _ <-. simpl. lia.
  - apply gen_battle_Done in Hg as (fr & Hw & _ & _ & -> & _ & -> & _); [|done].
    apply (while_loop_lift rng
             (fun fr fr' =>
                Frame.turn fr' - Frame.turn fr
                <= Z.of_nat (Frame.pos fr') - Z.of_nat (Frame.pos fr)
                <= 3 * (Frame.turn fr' - Frame.turn fr))) in Hw.
    + simpl in Hw. lia.
    + intros. lia.
    + intros. lia.
    + intros who fr1 fr2 (Ht & [Hp | Hp])%event_counts; lia.
Qed.

Lemma draws_per_turn_witness : 5 <= Z.of_nat 11 <= 3 * 5.
Proof.
  exact (draws_per_turn 5 (late_steady 2) [tball "A" 10 5] [tball "B" 7 4] "ann" "bob"
           _ _ late_steady_battle).
Defined.

(** ** The winner is one of the two players *)

Lemma first_owner_of_player owner balls label :
  first_owner (map (to_battle_ball owner) balls) = Done label -> label = owner.
Proof. destruct balls; simpl; [discriminate | by intros [= <-]]. Qed.

Lemma exists_positive_attack p1 p2 n1 n2 w t :
  no_damage (BattleInstance.mk (map (to_battle_ball n1) p1) (map (to_battle_ball n2) p2) w t)
  = false ->
  Exists (fun ball => 0 < TournamentBall.attack ball) (p1 ++ p2).
Proof.
  intros Hnd.
  destruct (decide (Forall (fun ball => TournamentBall.attack ball <= 0) (p1 ++ p2)))
    as [Hall | Hex].
  - by rewrite no_damage_of_tournament_balls in Hnd.
  - apply not_Forall_Exists in Hex; [|solve_decision].
    eapply Exists_impl; [exact Hex|]. simpl. intros. lia.
Qed.

Lemma battle_result_cases fuel rng player1_balls player2_balls n1 n2 res pos :
  simulate_tournament_battle fuel rng player1_balls player2_balls n1 n2 = Done (res, pos) ->
  (Forall (fun ball => TournamentBall.attack ball <= 0) (player1_balls ++ player2_balls) ∧
   res = BattleResult.mk EmptyString 0 [stalemate_line]) ∨
  (Exists (fun ball => 0 < TournamentBall.attack ball) (player1_balls ++ player2_balls) ∧
   (BattleResult.winner res = n1 ∨ BattleResult.winner res = n2) ∧
   List.filter is_turn_line (BattleResult.battle_log res) = BattleResult.battle_log res ∧
   (player1_balls <> [] -> player2_balls <> [] -> 1 <= BattleResult.turns res)).
Proof.
  intros H.
  destruct (decide (Forall (fun ball => TournamentBall.attack ball <= 0)
                      (player1_balls ++ player2_balls))) as [Hall | Hex].
  { left. split; [done|]. rewrite (stalemate_run _ _ _ _ _ _ Hall) in H. by injection H. }
  right.
  assert (no_damage (BattleInstance.mk (map (to_battle_ball n1) player1_balls)
                       (map (to_battle_ball n2) player2_balls) EmptyString 0) = false)
    as Hnd.
  { apply not_true_is_false. intros Ht. apply Hex.
    unfold no_damage in Ht. simpl in Ht. rewrite forallb_forall in Ht.
    apply Forall_forall. intros tb Hin. apply elem_of_app in Hin.
    assert (∃ owner, In (to_battle_ball owner tb)
                       (map (to_battle_ball n1) player1_balls
                          ++ map (to_battle_ball n2) player2_balls)) as [owner Hin'].
    { destruct Hin as [Hin | Hin]; [exists n1 | exists n2];
        apply in_or_app; [left | right]; apply in_map; by apply list_elem_of_In. }
    apply Ht in Hin'. simpl in Hin'. by apply Z.leb_le in Hin'. }
  split; [by eapply exists_positive_attack|].
  unfold simulate_tournament_battle in H.
  destruct (gen_battle fuel rng 0 _) as [[[battle' lines] pos']| | |] eqn:Hg;
    simpl in H; try discriminate.
  injection H as <- <-. simpl.
  apply gen_battle_Done in Hg as (fr & Hw & _ & _ & Hturns & -> & _ & Hwin); [|done].
  simpl in Hw, Hwin.
  pose proof (while_loop_evolves _ _ _ _ Hw) as [He1 He2]. simpl in He1, He2.
  pose proof (while_loop_numbered _ _ _ _ Hw) as Hnum. simpl in Hnum.
  assert (numbered (Frame.turn fr) (Frame.yielded fr)) as Hn.
  { apply Hnum. split; [done|]. intros k line Hk. destruct k; discriminate. }
  assert (both_alive (Frame.mk (map (to_battle_ball n1) player1_balls)
                        (map (to_battle_ball n2) player2_balls) 0 0 [])
          ∨ one_down (map (to_battle_ball n1) player1_balls)
              (map (to_battle_ball n2) player2_balls)) as Hstart.
  { destruct player1_balls as [|a1 r1], player2_balls as [|a2 r2].
    - exfalso. apply Hex. constructor.
    - right. reflexivity.
    - right. reflexivity.
    - left. split; reflexivity. }
  pose proof (while_loop_one_down _ _ _ _ Hw Hstart) as Hod. unfold one_down in Hod.
  split; [|split].
  - destruct (all_dead (Frame.p1_balls fr)) eqn:Hd1.
    + right. destruct (first_owner_evolves _ _ _ He2 Hwin) as (ball & Hh & ->).
      destruct player2_balls; simpl in Hh; [discriminate | by injection Hh as <-].
    + destruct (all_dead (Frame.p2_balls fr)) eqn:Hd2; [|discriminate].
      left. destruct (first_owner_evolves _ _ _ He1 Hwin) as (ball & Hh & ->).
      destruct player1_balls; simpl in Hh; [discriminate | by injection Hh as <-].
  - by eapply numbered_filter.
  - intros Hne1 Hne2. rewrite Hturns.
    destruct Hstart as [Hb | Hod0].
    2:{ destruct player1_balls, player2_balls; try done; discriminate. }
    destruct Hb as [Ha1 Ha2]. simpl in Ha1, Ha2.
    destruct fuel as [|fuel]; simpl in Hw; rewrite Ha1, Ha2 in Hw; simpl in Hw;
      [discriminate|].
    destruct (for_pairs rng _ _) as [fr1| | |] eqn:Hfor in Hw; simpl in Hw;
      try discriminate.
    apply (round_first_turn rng
             (Frame.mk (map (to_battle_ball n1) player1_balls)
                (map (to_battle_ball n2) player2_balls) 0 0 [])) in Hfor; [|by split].
    apply (while_loop_lift rng (fun fr fr' => Frame.turn fr <= Frame.turn fr')) in Hw.
    + simpl in Hfor. lia.
    + intros. lia.
    + intros. lia.
    + intros who fra frb (Ht & _)%event_counts. lia.
Qed.

(** X7.  A battle that completes is either the stalemate (no ball has a
    positive attack: one line, no winner, no turn) or names one of the two
    players as winner, in a log without the stalemate line; when neither
    roster is empty it has then counted at least one turn. *)
Theorem winner_is_a_player fuel rng player1_balls player2_balls n1 n2 res pos :
  simulate_tournament_battle fuel rng player1_balls player2_balls n1 n2 = Done (res, pos) ->
  (Forall (fun ball => TournamentBall.attack ball <= 0) (player1_balls ++ player2_balls) ∧
   res = BattleResult.mk EmptyString 0 [stalemate_line]) ∨
  (Exists (fun ball => 0 < TournamentBall.attack ball) (player1_balls ++ player2_balls) ∧
   (BattleResult.winner res = n1 ∨ BattleResult.winner res = n2) ∧
   List.filter is_turn_line (BattleResult.battle_log res) = BattleResult.battle_log res ∧
   (player1_balls <> [] -> player2_balls <> [] -> 1 <= BattleResult.turns res)).
Proof. apply battle_result_cases. Qed.

Lemma winner_is_a_player_witness :
  (Forall (fun ball => TournamentBall.attack ball <= 0)
     ([tball "A" 10 5] ++ [tball "B" 7 4]) ∧
   BattleResult.mk "ann" 5
     ["Turn 1: ann's A missed bob's B";
      "Turn 2: ann's A missed bob's B";
      "Turn 3: ann's A has dealt 5 damage to bob's B";
      "Turn 4: bob's B has dealt 4 damage to ann's A";
      "Turn 5: ann's A has killed bob's B"]
   = BattleResult.mk EmptyString 0 [stalemate_line]) ∨
  (Exists (fun ball => 0 < TournamentBall.attack ball)
     ([tball "A" 10 5] ++ [tball "B" 7 4]) ∧
   ("ann" = "ann" ∨ "ann" = "bob") ∧
   List.filter is_turn_line
     ["Turn 1: ann's A missed bob's B";
      "Turn 2: ann's A missed bob's B";
      "Turn 3: ann's A has dealt 5 damage to bob's B";
      "Turn 4: bob's B has dealt 4 damage to ann's A";
      "Turn 5: ann's A has killed bob's B"]
   = ["Turn 1: ann's A missed bob's B";
      "Turn 2: ann's A missed bob's B";
      "Turn 3: ann's A has dealt 5 damage to bob's B";
      "Turn 4: bob's B has dealt 4 damage to ann's A";
      "Turn 5: ann's A has killed bob's B"] ∧
   ([tball "A" 10 5] <> [] -> [tball "B" 7 4] <> [] -> 1 <= 5)).
Proof.
  exact (winner_is_a_player 5 (late_steady 2) [tball "A" 10 5] [tball "B" 7 4] "ann" "bob"
           _ _ late_steady_battle).
Defined.

Lemma battle_health_witness :
  Forall2 wanes [bball "ann" "A" 10 5] [bball "ann" "A" 6 5] ∧
  Forall2 wanes [bball "bob" "B" 7 4] [BattleBall.mk "B" "bob" 0 4 EmptyString true].
Proof.
  apply (battle_health 5 steady 0
           (BattleInstance.mk [bball "ann" "A" 10 5] [bball "bob" "B" 7 4] EmptyString 0)
           (BattleInstance.mk [bball "ann" "A" 6 5]
              [BattleBall.mk "B" "bob" 0 4 EmptyString true] "ann" 3)
           ["Turn 1: ann's A has dealt 5 damage to bob's B";
            "Turn 2: bob's B has dealt 4 damage to ann's A";
            "Turn 3: ann's A has killed bob's B"] 9).
  - intros n. simpl. unfold Qle. simpl. lia.
  - vm_compute. reflexivity.
  - simpl. repeat constructor; simpl; lia.
Defined.

(** ** Slugs *)

Example slugify_examples :
  _slugify 1234 (Some "Dex Cup #1") = "dex_cup_1" ∧
  _slugify 1234 (Some "__Semi--Final__!") = "semi_final" ∧
  _slugify 1234 (Some "???") = "tourney_1234" ∧
  _slugify 1234 None = "tourney_1234".
Proof. repeat split; by vm_compute. Qed.

Ltac by_char c := destruct c as [[] [] [] [] [] [] [] []]; vm_compute; try done.

Lemma slug_char_not_upper c : slug_char c = true -> lower_char c = c.
Proof. by_char c. Qed.

Lemma underscore_slug_char c : is_underscore c = true -> slug_char c = true.
Proof. by_char c. Qed.

Lemma lower_alnum_not_underscore c : is_lower_alnum c = true -> is_underscore c = false.
Proof. by_char c. Qed.

Lemma lower_alnum_slug_char c : is_lower_alnum c = true -> slug_char c = true.
Proof. by_char c. Qed.

Lemma slug_char_cases c :
  slug_char c = true -> is_underscore c = false -> is_lower_alnum c = true.
Proof. by_char c. Qed.

Lemma lower_alnum_lower_char c : is_lower_alnum (lower_char c) = is_alnum c.
Proof. by_char c. Qed.

Lemma is_underscore_eq c : is_underscore c = true -> c = "_"%char.
Proof. unfold is_underscore. by intros ->%Ascii.eqb_eq. Qed.

(** *** The characters of a slug *)

Lemma sub_runs_slug_chars in_run s :
  Forall (fun c => slug_char c = true) (sub_runs (fun c => negb (slug_char c)) in_run s).
Proof.
  revert in_run. induction s as [|c rest IH]; intros in_run; simpl; [constructor|].
  destruct (slug_char c) eqn:Hc; simpl.
  - constructor; [done | apply IH].
  - destruct in_run; [apply IH | constructor; [done | apply IH]].
Qed.

Lemma collapse_slug_chars in_run s :
  Forall (fun c => slug_char c = true) s ->
  Forall (fun c => slug_char c = true) (sub_runs is_underscore in_run s).
Proof.
  intros H. revert in_run. induction H as [|c rest Hc _ IH]; intros in_run; simpl;
    [constructor|].
  destruct (is_underscore c); [destruct in_run|]; try constructor; auto.
Qed.

Lemma lstrip_Forall (P : ascii -> Prop) s : Forall P s -> Forall P (lstrip s).
Proof.
  induction 1 as [|c rest Hc H IH]; simpl; [constructor|].
  destruct (is_underscore c); [done | by constructor].
Qed.

Lemma rstrip_Forall (P : ascii -> Prop) s : Forall P s -> Forall P (rstrip s).
Proof.
  induction 1 as [|c rest Hc H IH]; simpl; [constructor|].
  destruct (rstrip rest) as [|k kept] eqn:Hr.
  - destruct (is_underscore c); repeat constructor; done.
  - by constructor.
Qed.

(** *** The shape of a slug *)

Lemma collapse_no_double in_run s :
  no_double_underscore (sub_runs is_underscore in_run s) ∧
  (in_run = true ->
   forall c, head (sub_runs is_underscore in_run s) = Some c -> is_underscore c = false).
Proof.
  revert in_run. induction s as [|c rest IH]; intros in_run; simpl; [done|].
  destruct (is_underscore c) eqn:Hc.
  - destruct in_run.
    + apply IH.
    + destruct (IH true) as [Hnd Hhd]. split; [|done].
      destruct (sub_runs is_underscore true rest) as [|c2 rest2] eqn:Hs; [done|].
      split; [|done]. intros [_ H2]. rewrite (Hhd eq_refl c2 eq_refl) in H2. done.
  - destruct (IH false) as [Hnd _]. split.
    + destruct (sub_runs is_underscore false rest) as [|c2 rest2]; [done|].
      split; [|done]. intros [H1 _]. congruence.
    + intros _ c' [= <-]. done.
Qed.

Lemma no_double_tail c s : no_double_underscore (c :: s) -> no_double_underscore s.
Proof. destruct s; simpl; tauto. Qed.

Lemma lstrip_no_double s : no_double_underscore s -> no_double_underscore (lstrip s).
Proof.
  induction s as [|c rest IH]; intros H; simpl; [done|].
  destruct (is_underscore c); [|done]. apply IH. by eapply no_double_tail.
Qed.

Lemma rstrip_head s c :
  head s = Some c -> is_underscore c = false -> head (rstrip s) = Some c.
Proof.
  destruct s as [|c' rest]; simpl; [done|]. intros [= ->] Hc.
  destruct (rstrip rest); [by rewrite Hc | done].
Qed.

Lemma rstrip_head_inv s c : head (rstrip s) = Some c -> head s = Some c.
Proof.
  destruct s as [|c' rest]; simpl; [done|].
  destruct (rstrip rest); [destruct (is_underscore c')|]; simpl; congruence.
Qed.

Lemma rstrip_no_double s : no_double_underscore s -> no_double_underscore (rstrip s).
Proof.
  induction s as [|c rest IH]; intros H; simpl; [done|].
  specialize (IH (no_double_tail _ _ H)).
  destruct (rstrip rest) as [|k kept] eqn:Hr; [by destruct (is_underscore c)|].
  split; [|done]. assert (head rest = Some k) as Hk by (apply rstrip_head_inv; by rewrite Hr).
  destruct rest as [|k' rest']; [done|]. injection Hk as ->. simpl in H. tauto.
Qed.

Lemma lstrip_head s c : head (lstrip s) = Some c -> is_underscore c = false.
Proof.
  induction s as [|c' rest IH]; simpl; [done|].
  destruct (is_underscore c') eqn:Hc; [done|]. by intros [= <-].
Qed.

Lemma rstrip_last s c : last (rstrip s) = Some c -> is_underscore c = false.
Proof.
  revert c. induction s as [|c' rest IH]; intros c; simpl; [done|].
  destruct (rstrip rest) as [|k kept] eqn:Hr.
  - destruct (is_underscore c') eqn:Hc; [done|]. by intros [= <-].
  - intros H. apply IH. rewrite last_cons in H.
    destruct (last (k :: kept)) eqn:Hl; [done|]. by apply last_None in Hl.
Qed.

(** The slug before the fallback has the shape of a slug, unless it is empty. *)
Lemma slug_of_shaped text : slug_of text <> [] -> slug_shaped (slug_of text).
Proof.
  intros Hne. split; [done|]. unfold slug_of, strip in *.
  set (s1 := sub_runs (fun c => negb (slug_char c)) false _) in *.
  set (s2 := sub_runs is_underscore false s1) in *.
  assert (Forall (fun c => slug_char c = true) s2) as Hchars
    by apply collapse_slug_chars, sub_runs_slug_chars.
  destruct (collapse_no_double false s1) as [Hnd _]. fold s2 in Hnd.
  split; [by apply rstrip_Forall, lstrip_Forall|].
  split; [|split].
  - intros c Hc. apply rstrip_head_inv in Hc. by eapply lstrip_head.
  - apply rstrip_last.
  - by apply rstrip_no_double, lstrip_no_double.
Qed.

Lemma slug_shapedb_true s : slug_shapedb s = true -> slug_shaped s.
Proof.
  unfold slug_shapedb. rewrite !andb_true_iff.
  intros ((((Hne & Hall) & Hhd) & Hla) & Hnd).
  split; [by apply negb_true_iff, bool_decide_eq_false in Hne|].
  split; [apply Forall_forall; intros c Hin; rewrite forallb_forall in Hall;
          by apply Hall, list_elem_of_In|].
  split; [intros c Hc; rewrite Hc in Hhd; by apply negb_true_iff|].
  split; [intros c Hc; rewrite Hc in Hla; by apply negb_true_iff|].
  clear -Hnd. induction s as [|c1 [|c2 rest] IH]; simpl; try done.
  apply andb_true_iff in Hnd as [H12 Hrest]. split; [|by apply IH].
  intros [H1 H2]. by rewrite H1, H2 in H12.
Qed.

Lemma fallback_shaped draw :
  1000 <= draw <= 9999 ->
  slug_shaped (list_ascii_of_string ("tourney_" ++ str draw)).
Proof.
  intros Hd. apply slug_shapedb_true.
  assert (forallb (fun d => slug_shapedb (list_ascii_of_string ("tourney_" ++ str d)))
            (seqZ 1000 9000) = true) as Hall by (by vm_compute).
  rewrite forallb_forall in Hall. apply Hall, list_elem_of_In, elem_of_seqZ. lia.
Qed.

(** X9.  Whatever the text, the slug is not empty, is made of the
    characters [a-z], [0-9] and [_] only, has no underscore at either end
    and no two underscores in a row. *)
Theorem slugify_shape draw text :
  1000 <= draw <= 9999 ->
  slug_shaped (list_ascii_of_string (_slugify draw text)).
Proof.
  intros Hd. unfold _slugify.
  destruct (slug_of text) as [|c s] eqn:Hs; [by apply fallback_shaped|].
  rewrite list_ascii_of_string_of_list_ascii. rewrite <- Hs.
  apply slug_of_shaped. by rewrite Hs.
Qed.

Lemma slugify_shape_witness :
  slug_shaped (list_ascii_of_string "semi_final").
Proof.
  apply (slugify_shape 1234 (Some "__Semi--Final__!")). lia.
Defined.

(** *** A slug is its own slug *)

Lemma lower_eq c rest :
  lower (c :: rest)
  = match rest with
    | c2 :: rest2 =>
        if Ascii.eqb c "196" && Ascii.eqb c2 "176"
        then "i"%char :: "204"%char :: "135"%char :: lower rest2
        else
          match rest2 with
          | c3 :: rest3 =>
              if Ascii.eqb c "226" && Ascii.eqb c2 "132" && Ascii.eqb c3 "170"
              then "k"%char :: lower rest3
              else lower_char c :: lower rest
          | [] => lower_char c :: lower rest
          end
    | [] => lower_char c :: lower rest
    end.
Proof. by destruct rest. Qed.

(** Away from the first bytes of U+0130 and U+212A, [lower] goes
    character by character. *)
Lemma lower_cons_plain c rest :
  Ascii.eqb c "196" = false -> Ascii.eqb c "226" = false ->
  lower (c :: rest) = lower_char c :: lower rest.
Proof.
  intros H1 H2. rewrite lower_eq. destruct rest as [|c2 rest2]; [done|].
  rewrite H1. cbn [andb]. destruct rest2 as [|c3 rest3]; [done|]. by rewrite H2.
Qed.

Lemma slug_char_plain c :
  slug_char c = true -> Ascii.eqb c "196" = false ∧ Ascii.eqb c "226" = false.
Proof. by_char c. Qed.

Lemma is_ascii_plain c :
  is_ascii c = true -> Ascii.eqb c "196" = false ∧ Ascii.eqb c "226" = false.
Proof. by_char c. Qed.

Lemma lower_slug_chars s : Forall (fun c => slug_char c = true) s -> lower s = s.
Proof.
  induction 1 as [|c rest Hc _ IH]; [done|].
  destruct (slug_char_plain c Hc) as [H1 H2].
  by rewrite lower_cons_plain, IH, slug_char_not_upper.
Qed.

(** On a text of ASCII, [lower] lowers each character. *)
Lemma lower_ascii s : Forall (fun c => is_ascii c = true) s -> lower s = map lower_char s.
Proof.
  induction 1 as [|c rest Hc _ IH]; [done|].
  destruct (is_ascii_plain c Hc) as [H1 H2].
  rewrite lower_cons_plain, IH by done. done.
Qed.

Lemma sub_runs_slug_chars_id in_run s :
  Forall (fun c => slug_char c = true) s ->
  sub_runs (fun c => negb (slug_char c)) in_run s = s.
Proof.
  intros H. revert in_run. induction H as [|c rest Hc _ IH]; intros in_run; simpl; [done|].
  rewrite Hc. simpl. by rewrite IH.
Qed.

Lemma collapse_id in_run s :
  no_double_underscore s ->
  (in_run = true -> forall c, head s = Some c -> is_underscore c = false) ->
  sub_runs is_underscore in_run s = s.
Proof.
  revert in_run. induction s as [|c rest IH]; intros in_run Hnd Hhd; simpl; [done|].
  destruct (is_underscore c) eqn:Hc.
  - destruct in_run; [by rewrite (Hhd eq_refl c eq_refl) in Hc|].
    apply is_underscore_eq in Hc as ->. f_equal. apply IH; [by eapply no_double_tail|].
    intros _ c2 Hc2. destruct rest as [|c2' rest']; [done|]. injection Hc2 as ->.
    simpl in Hnd. destruct Hnd as [Hnd _].
    destruct (is_underscore c2) eqn:H2; [|done]. exfalso. by apply Hnd.
  - f_equal. apply IH; [by eapply no_double_tail | done].
Qed.

Lemma lstrip_id s :
  (forall c, head s = Some c -> is_underscore c = false) -> lstrip s = s.
Proof. destruct s as [|c rest]; simpl; [done|]. intros H. by rewrite (H c eq_refl). Qed.

Lemma rstrip_id s :
  (forall c, last s = Some c -> is_underscore c = false) -> rstrip s = s.
Proof.
  induction s as [|c rest IH]; intros H; simpl; [done|].
  destruct rest as [|c2 rest2].
  - simpl. by rewrite (H c eq_refl).
  - rewrite IH; [done|]. intros c' Hc'. apply H. by rewrite last_cons, Hc'.
Qed.

Lemma slug_of_shaped_id s :
  slug_shaped s -> slug_of (Some (string_of_list_ascii s)) = s.
Proof.
  intros (Hne & Hchars & Hhd & Hla & Hnd). unfold slug_of, strip. simpl.
  rewrite list_ascii_of_string_of_list_ascii.
  rewrite lower_slug_chars, sub_runs_slug_chars_id, collapse_id by done.
  by rewrite lstrip_id, rstrip_id.
Qed.

(** X10.  [_slugify] gives back its own results: the slug of a slug is
    that slug, whatever the second draw. *)
Theorem slugify_idempotent draw draw' text :
  1000 <= draw <= 9999 ->
  _slugify draw' (Some (_slugify draw text)) = _slugify draw text.
Proof.
  intros Hd.
  assert (slug_shaped (list_ascii_of_string (_slugify draw text))) as Hshape.
  { unfold _slugify. destruct (slug_of text) as [|c s] eqn:Hs; [by apply fallback_shaped|].
    rewrite list_ascii_of_string_of_list_ascii. rewrite <- Hs.
    apply slug_of_shaped. by rewrite Hs. }
  pose proof (slug_of_shaped_id _ Hshape) as Hid.
  rewrite string_of_list_ascii_of_string in Hid.
  unfold _slugify at 1. rewrite Hid.
  destruct Hshape as [Hne _].
  destruct (list_ascii_of_string (_slugify draw text)) eqn:Hl; [done|].
  rewrite <- Hl. apply string_of_list_ascii_of_string.
Qed.

Lemma slugify_idempotent_witness :
  _slugify 4321 (Some "tourney_1234") = "tourney_1234".
Proof.
  apply (slugify_idempotent 1234 4321 (Some "???")). lia.
Defined.

(** *** The letters and digits of the text *)

Lemma sub_runs_alnum in_run s :
  List.filter is_lower_alnum (sub_runs (fun c => negb (slug_char c)) in_run s)
  = List.filter is_lower_alnum s.
Proof.
  revert in_run. induction s as [|c rest IH]; intros in_run; simpl; [done|].
  destruct (slug_char c) eqn:Hc; simpl.
  - by rewrite IH.
  - assert (is_lower_alnum c = false) as ->.
    { destruct (is_lower_alnum c) eqn:Ha; [|done].
      apply lower_alnum_slug_char in Ha. congruence. }
    destruct in_run; simpl; by rewrite IH.
Qed.

Lemma collapse_alnum in_run s :
  List.filter is_lower_alnum (sub_runs is_underscore in_run s)
  = List.filter is_lower_alnum s.
Proof.
  revert in_run. induction s as [|c rest IH]; intros in_run; simpl; [done|].
  destruct (is_underscore c) eqn:Hc; simpl.
  - assert (is_lower_alnum c = false) as ->.
    { destruct (is_lower_alnum c) eqn:Ha; [|done].
      apply lower_alnum_not_underscore in Ha. congruence. }
    destruct in_run; simpl; by rewrite IH.
  - by rewrite IH.
Qed.

Lemma lstrip_alnum s :
  List.filter is_lower_alnum (lstrip s) = List.filter is_lower_alnum s.
Proof.
  induction s as [|c rest IH]; simpl; [done|].
  destruct (is_underscore c) eqn:Hc; [|done].
  assert (is_lower_alnum c = false) as ->; [|done].
  destruct (is_lower_alnum c) eqn:Ha; [|done].
  apply lower_alnum_not_underscore in Ha. congruence.
Qed.

Lemma rstrip_alnum s :
  List.filter is_lower_alnum (rstrip s) = List.filter is_lower_alnum s.
Proof.
  induction s as [|c rest IH]; simpl; [done|].
  destruct (rstrip rest) as [|k kept] eqn:Hr.
  - rewrite <- IH. simpl. destruct (is_underscore c) eqn:Hc; simpl.
    + assert (is_lower_alnum c = false) as ->; [|done].
      destruct (is_lower_alnum c) eqn:Ha; [|done].
      apply lower_alnum_not_underscore in Ha. congruence.
    + done.
  - simpl. by rewrite <- IH.
Qed.

Lemma filter_lower_char s :
  List.filter is_lower_alnum (map lower_char s) = map lower_char (List.filter is_alnum s).
Proof.
  induction s as [|c rest IH]; simpl; [done|].
  rewrite lower_alnum_lower_char. destruct (is_alnum c); simpl; by rewrite IH.
Qed.

Lemma slug_of_alnum text :
  List.filter is_lower_alnum (slug_of text)
  = List.filter is_lower_alnum (lower (list_ascii_of_string (default EmptyString text))).
Proof.
  unfold slug_of, strip.
  by rewrite rstrip_alnum, lstrip_alnum, collapse_alnum, sub_runs_alnum.
Qed.

(** X11.  The slug keeps the letters and digits of the lowered text, in
    their order, and nothing else but underscores.  A text that has no
    letter or digit once lowered (the empty text, no text) gets the
    fallback [tourney_] followed by the number drawn.  For a text of
    ASCII the letters and digits of the lowered text are the letters and
    digits of the text, each lowered; beyond ASCII, U+0130 brings an [i]
    and U+212A a [k]. *)
Theorem slugify_keeps_alnum draw text :
  let chars := list_ascii_of_string (default EmptyString text) in
  (List.filter is_lower_alnum (lower chars) = [] ->
   _slugify draw text = "tourney_" ++ str draw) ∧
  (List.filter is_lower_alnum (lower chars) <> [] ->
   List.filter is_lower_alnum (list_ascii_of_string (_slugify draw text))
   = List.filter is_lower_alnum (lower chars) ∧
   Forall (fun c => is_lower_alnum c = true ∨ c = "_"%char)
     (list_ascii_of_string (_slugify draw text))) ∧
  (Forall (fun c => is_ascii c = true) chars ->
   List.filter is_lower_alnum (lower chars) = map lower_char (List.filter is_alnum chars)).
Proof.
  intros chars. pose proof (slug_of_alnum text) as Hal. fold chars in Hal.
  unfold _slugify. split; [|split].
  - intros Hnone. rewrite Hnone in Hal.
    destruct (slug_of text) as [|c s] eqn:Hs; [done|].
    assert (slug_shaped (c :: s)) as (_ & Hchars & Hhd & _)
      by (rewrite <- Hs; apply slug_of_shaped; by rewrite Hs).
    inversion Hchars as [|? ? Hc _]; subst.
    pose proof (slug_char_cases c Hc (Hhd c eq_refl)) as Ha.
    simpl in Hal. by rewrite Ha in Hal.
  - intros Hsome. destruct (slug_of text) as [|c s] eqn:Hs.
    { simpl in Hal. by rewrite <- Hal in Hsome. }
    rewrite list_ascii_of_string_of_list_ascii. split; [done|].
    assert (slug_shaped (c :: s)) as (_ & Hchars & _)
      by (rewrite <- Hs; apply slug_of_shaped; by rewrite Hs).
    eapply Forall_impl; [exact Hchars|]. intros x Hx. simpl in Hx.
    destruct (is_underscore x) eqn:Hu; [right; by apply is_underscore_eq|].
    left. by apply slug_char_cases.
  - intros Hascii. by rewrite lower_ascii, filter_lower_char.
Qed.

Lemma slugify_keeps_alnum_witness :
  List.filter is_lower_alnum (list_ascii_of_string "dex_cup_1")
  = List.filter is_lower_alnum (lower (list_ascii_of_string "Dex Cup #1")) ∧
  Forall (fun c => is_lower_alnum c = true ∨ c = "_"%char)
    (list_ascii_of_string "dex_cup_1").
Proof.
  apply (proj1 (proj2 (slugify_keeps_alnum 1234 (Some "Dex Cup #1")))).
  vm_compute. discriminate.
Defined.

(** Beyond ASCII: U+0130 followed by [stanbul] gives [i_stanbul], where
    the underscore stands for U+0307, and U+212A alone gives [k]. *)
Example slugify_beyond_ascii :
  _slugify 1234 (Some (String "196" (String "176" "stanbul"))) = "i_stanbul" ∧
  _slugify 1234 (Some (String "226" (String "132" (String "170" EmptyString)))) = "k" ∧
  _slugify 1234 (Some (String "195" (String "137" "t" ++ String "195" (String "169" EmptyString))))
  = "t".
Proof. repeat split; by vm_compute. Qed.

(** ** Matches *)

Example match_example :
  _simulate_match 5 steady
    (cup [entrant 1 "ann" [tball "A" 10 5]; entrant 2 "bob" [tball "B" 7 4];
          entrant 3 "cat" [tball "C" 9 9]]) 0 1
  = Done (Tournament.set_participants
            [entrant 1 "ann" [tball "A" 10 5];
             TournamentPlayer.set_eliminated true (entrant 2 "bob" [tball "B" 7 4]);
             entrant 3 "cat" [tball "C" 9 9]]
            (cup []),
          Some (MatchReport.mk 0 1
                  (BattleResult.mk "ann" 3
                     ["Turn 1: ann's A has dealt 5 damage to bob's B";
                      "Turn 2: bob's B has dealt 4 damage to ann's A";
                      "Turn 3: ann's A has killed bob's B"]))).
Proof. by vm_compute. Qed.

(** A battle that raises is caught: the match returns without a report
    and leaves the tournament as it is. *)
Example match_caught :
  _simulate_match 5 steady
    (cup [entrant 1 "ann" [tball "A" 10 (10 ^ 400)]; entrant 2 "bob" [tball "B" 7 4]]) 0 1
  = Done (cup [entrant 1 "ann" [tball "A" 10 (10 ^ 400)]; entrant 2 "bob" [tball "B" 7 4]],
          None).
Proof. by vm_compute. Qed.

(** What a match that returns with a report has done. *)
Lemma simulate_match_Done fuel rng tournament player1 player2 tournament' report :
  _simulate_match fuel rng tournament player1 player2 = Done (tournament', Some report) ->
  ∃ p1 p2 pos,
    Tournament.participants tournament !! player1 = Some p1 ∧
    Tournament.participants tournament !! player2 = Some p2 ∧
    simulate_tournament_battle fuel rng (TournamentPlayer.balls p1)
      (TournamentPlayer.balls p2)
      (Member.display_name (TournamentPlayer.user p1))
      (Member.display_name (TournamentPlayer.user p2))
    = Done (MatchReport.battle_result report, pos) ∧
    ((BattleResult.winner (MatchReport.battle_result report)
      = Member.display_name (TournamentPlayer.user p1) ∧
      MatchReport.winner report = player1 ∧ MatchReport.loser report = player2) ∨
     (BattleResult.winner (MatchReport.battle_result report)
      <> Member.display_name (TournamentPlayer.user p1) ∧
      MatchReport.winner report = player2 ∧ MatchReport.loser report = player1)) ∧
    Tournament.participants tournament'
    = alter (TournamentPlayer.set_eliminated true) (MatchReport.loser report)
        (Tournament.participants tournament) ∧
    Tournament.state tournament'
    = (if (length (active_players (Tournament.participants tournament')) =? 1)%nat
       then FINISHED else Tournament.state tournament).
Proof.
  unfold _simulate_match. intros H.
  destruct (Tournament.participants tournament !! player1) as [p1|] eqn:H1;
    [|discriminate].
  destruct (Tournament.participants tournament !! player2) as [p2|] eqn:H2;
    [|discriminate].
  destruct (simulate_tournament_battle fuel rng _ _ _ _) as [[res pos]| | |] eqn:Hs;
    simpl in H; try discriminate.
  exists p1, p2, pos. split; [done|]. split; [done|].
  destruct (String.eqb_spec (BattleResult.winner res)
              (Member.display_name (TournamentPlayer.user p1))) as [Heq | Hne];
    destruct (length (active_players _) =? 1)%nat eqn:Hlen;
    injection H as <- <-; simpl; rewrite ?Hlen; auto 10.
Qed.

(** X12.  A stalemate sends player 2 on: when no ball of either team has a
    positive attack, and the display name of player 1 is not empty, the
    match returns whatever the fuel and the random source, with player 2
    as winner and player 1 eliminated. *)
Theorem stalemate_advances_player2 fuel rng tournament player1 player2 p1 p2 :
  Tournament.participants tournament !! player1 = Some p1 ->
  Tournament.participants tournament !! player2 = Some p2 ->
  Forall (fun ball => TournamentBall.attack ball <= 0)
    (TournamentPlayer.balls p1 ++ TournamentPlayer.balls p2) ->
  Member.display_name (TournamentPlayer.user p1) <> EmptyString ->
  ∃ tournament',
    _simulate_match fuel rng tournament player1 player2
    = Done (tournament',
            Some (MatchReport.mk player2 player1
                    (BattleResult.mk EmptyString 0 [stalemate_line]))) ∧
    Tournament.participants tournament'
    = alter (TournamentPlayer.set_eliminated true) player1
        (Tournament.participants tournament).
Proof.
  intros H1 H2 Hall Hname. unfold _simulate_match. rewrite H1, H2.
  rewrite (stalemate_run _ _ _ _ _ _ Hall). simpl.
  destruct (Member.display_name (TournamentPlayer.user p1)); [done|].
  eexists. split; [reflexivity|]. by destruct (length (active_players _) =? 1)%nat.
Qed.

Lemma stalemate_advances_player2_witness :
  ∃ tournament',
    _simulate_match 0 always_miss
      (cup [entrant 1 "ann" [tball "A" 10 0]; entrant 2 "bob" [tball "B" 7 (-3)]]) 0 1
    = Done (tournament',
            Some (MatchReport.mk 1 0 (BattleResult.mk EmptyString 0 [stalemate_line]))) ∧
    Tournament.participants tournament'
    = alter (TournamentPlayer.set_eliminated true) 0%nat
        [entrant 1 "ann" [tball "A" 10 0]; entrant 2 "bob" [tball "B" 7 (-3)]].
Proof.
  apply (stalemate_advances_player2 0 always_miss
           (cup [entrant 1 "ann" [tball "A" 10 0]; entrant 2 "bob" [tball "B" 7 (-3)]])
           0 1 (entrant 1 "ann" [tball "A" 10 0]) (entrant 2 "bob" [tball "B" 7 (-3)])).
  - reflexivity.
  - reflexivity.
  - simpl. repeat constructor; simpl; lia.
  - simpl. discriminate.
Defined.

(** The label of the winner and the rosters at the end of the battle. *)
Lemma battle_survivor fuel rng player1_balls player2_balls n1 n2 res pos :
  simulate_tournament_battle fuel rng player1_balls player2_balls n1 n2 = Done (res, pos) ->
  Exists (fun ball => 0 < TournamentBall.attack ball) (player1_balls ++ player2_balls) ->
  ∃ battle',
    gen_battle fuel rng 0
      (BattleInstance.mk (map (to_battle_ball n1) player1_balls)
         (map (to_battle_ball n2) player2_balls) EmptyString 0)
    = Done (battle', BattleResult.battle_log res, pos) ∧
    ((BattleResult.winner res = n1 ∧
      all_dead (BattleInstance.p1_balls battle') = false ∧
      all_dead (BattleInstance.p2_balls battle') = true) ∨
     (BattleResult.winner res = n2 ∧
      all_dead (BattleInstance.p1_balls battle') = true ∧
      all_dead (BattleInstance.p2_balls battle') = false)).
Proof.
  intros H Hex. unfold simulate_tournament_battle in H.
  destruct (gen_battle fuel rng 0 _) as [[[battle' lines] pos']| | |] eqn:Hg;
    simpl in H; try discriminate.
  injection H as <- <-. simpl. exists battle'. split; [done|].
  assert (no_damage (BattleInstance.mk (map (to_battle_ball n1) player1_balls)
                       (map (to_battle_ball n2) player2_balls) EmptyString 0) = false)
    as Hnd.
  { apply not_true_is_false. intros Ht.
    unfold no_damage in Ht. simpl in Ht. rewrite forallb_forall in Ht.
    apply Exists_exists in Hex as (tb & Hin & Htb). apply elem_of_app in Hin.
    assert (∃ owner, In (to_battle_ball owner tb)
                       (map (to_battle_ball n1) player1_balls
                          ++ map (to_battle_ball n2) player2_balls)) as [owner Hin'].
    { destruct Hin as [Hin | Hin]; [exists n1 | exists n2];
        apply in_or_app; [left | right]; apply in_map; by apply list_elem_of_In. }
    apply Ht in Hin'. simpl in Hin'. apply Z.leb_le in Hin'. lia. }
  apply gen_battle_Done in Hg as (fr & Hw & -> & -> & _ & _ & _ & Hwin); [|done].
  simpl in Hw, Hwin.
  pose proof (while_loop_evolves _ _ _ _ Hw) as [He1 He2]. simpl in He1, He2.
  assert (both_alive (Frame.mk (map (to_battle_ball n1) player1_balls)
                        (map (to_battle_ball n2) player2_balls) 0 0 [])
          ∨ one_down (map (to_battle_ball n1) player1_balls)
              (map (to_battle_ball n2) player2_balls)) as Hstart.
  { destruct player1_balls as [|a1 r1], player2_balls as [|a2 r2].
    - by inversion Hex.
    - right. reflexivity.
    - right. reflexivity.
    - left. split; reflexivity. }
  pose proof (while_loop_one_down _ _ _ _ Hw Hstart) as Hod. unfold one_down in Hod.
  destruct (all_dead (Frame.p1_balls fr)) eqn:Hd1.
  - right. destruct (all_dead (Frame.p2_balls fr)); [discriminate|].
    split; [|done]. destruct (first_owner_evolves _ _ _ He2 Hwin) as (ball & Hh & ->).
    destruct player2_balls; simpl in Hh; [discriminate | by injection Hh as <-].
  - destruct (all_dead (Frame.p2_balls fr)) eqn:Hd2; [|discriminate].
    left. split; [|done]. destruct (first_owner_evolves _ _ _ He1 Hwin) as (ball & Hh & ->).
    destruct player1_balls; simpl in Hh; [discriminate | by injection Hh as <-].
Qed.

(** X13.  When the two players have different display names and some ball
    has a positive attack, the player that a match sends on is the one
    whose team has a living ball at the end of the battle, and the player
    it eliminates is the one whose balls are all dead. *)
Theorem match_winner_survives fuel rng tournament player1 player2 tournament' report
    p1 p2 :
  _simulate_match fuel rng tournament player1 player2 = Done (tournament', Some report) ->
  Tournament.participants tournament !! player1 = Some p1 ->
  Tournament.participants tournament !! player2 = Some p2 ->
  Member.display_name (TournamentPlayer.user p1)
  <> Member.display_name (TournamentPlayer.user p2) ->
  Exists (fun ball => 0 < TournamentBall.attack ball)
    (TournamentPlayer.balls p1 ++ TournamentPlayer.balls p2) ->
  ∃ battle' pos,
    gen_battle fuel rng 0
      (BattleInstance.mk
         (map (to_battle_ball (Member.display_name (TournamentPlayer.user p1)))
            (TournamentPlayer.balls p1))
         (map (to_battle_ball (Member.display_name (TournamentPlayer.user p2)))
            (TournamentPlayer.balls p2)) EmptyString 0)
    = Done (battle', BattleResult.battle_log (MatchReport.battle_result report), pos) ∧
    ((MatchReport.winner report = player1 ∧ MatchReport.loser report = player2 ∧
      all_dead (BattleInstance.p1_balls battle') = false ∧
      all_dead (BattleInstance.p2_balls battle') = true) ∨
     (MatchReport.winner report = player2 ∧ MatchReport.loser report = player1 ∧
      all_dead (BattleInstance.p1_balls battle') = true ∧
      all_dead (BattleInstance.p2_balls battle') = false)).
Proof.
  intros H H1 H2 Hnames Hex.
  apply simulate_match_Done in H
    as (p1' & p2' & pos & H1' & H2' & Hs & Hcases & _).
  rewrite H1 in H1'. rewrite H2 in H2'. injection H1' as <-. injection H2' as <-.
  destruct (battle_survivor _ _ _ _ _ _ _ _ Hs Hex) as (battle' & Hg & Hsurv).
  exists battle', pos. split; [done|].
  destruct Hsurv as [(Hw & Hd1 & Hd2) | (Hw & Hd1 & Hd2)];
    destruct Hcases as [(Hw' & -> & ->) | (Hw' & -> & ->)]; try tauto; congruence.
Qed.

Lemma match_winner_survives_witness :
  ∃ battle' pos,
    gen_battle 5 steady 0
      (BattleInstance.mk [bball "ann" "A" 10 5] [bball "bob" "B" 7 4] EmptyString 0)
    = Done (battle',
            ["Turn 1: ann's A has dealt 5 damage to bob's B";
             "Turn 2: bob's B has dealt 4 damage to ann's A";
             "Turn 3: ann's A has killed bob's B"], pos) ∧
    ((0%nat = 0%nat ∧ 1%nat = 1%nat ∧
      all_dead (BattleInstance.p1_balls battle') = false ∧
      all_dead (BattleInstance.p2_balls battle') = true) ∨
     (0%nat = 1%nat ∧ 1%nat = 0%nat ∧
      all_dead (BattleInstance.p1_balls battle') = true ∧
      all_dead (BattleInstance.p2_balls battle') = false)).
Proof.
  apply (match_winner_survives 5 steady
           (cup [entrant 1 "ann" [tball "A" 10 5]; entrant 2 "bob" [tball "B" 7 4];
                 entrant 3 "cat" [tball "C" 9 9]]) 0 1 _ _
           (entrant 1 "ann" [tball "A" 10 5]) (entrant 2 "bob" [tball "B" 7 4])
           match_example).
  - reflexivity.
  - reflexivity.
  - simpl. discriminate.
  - left. simpl. lia.
Defined.







(** ** The selection of the teams *)

Lemma group_add_notin G x :
  ball_id x ∉ G.*1 -> group_add G x = (G ++ [(ball_id x, [x])])%list.
Proof.
  induction G as [|[k g] G IH]; simpl; [done|]. intros Hnotin.
  rewrite not_elem_of_cons in Hnotin. destruct Hnotin as [Hne Hnotin].
  fold (ball_id x). destruct (Z.eqb_spec k (ball_id x)) as [->|_]; [done|].
  by rewrite IH.
Qed.

Lemma group_add_in G x :
  ball_id x ∈ G.*1 -> NoDup G.*1 ->
  group_add G x
  = (fun kg : Z * list BallInstance.t =>
       if kg.1 =? ball_id x then (kg.1, (kg.2 ++ [x])%list) else kg) <$> G.
Proof.
  induction G as [|[k g] G IH]; simpl; [by intros ?%elem_of_nil|].
  intros Hin Hnd. apply NoDup_cons in Hnd as [Hk Hnd].
  fold (ball_id x). destruct (Z.eqb_spec k (ball_id x)) as [->|Hne].
  - f_equal. clear IH Hin Hnd. induction G as [|[k' g'] G IH]; simpl; [done|].
    rewrite fmap_cons, not_elem_of_cons in Hk. destruct Hk as [Hne Hk]. simpl in Hne.
    destruct (Z.eqb_spec k' (ball_id x)) as [->|_]; [done|]. f_equal. by apply IH.
  - f_equal. apply IH; [|done]. apply elem_of_cons in Hin as [Heq | Hin]; [|done].
    simpl in Heq. congruence.
Qed.

Lemma filter_snoc {A : Type} (f : A -> bool) l x :
  List.filter f (l ++ [x]) = (List.filter f l ++ if f x then [x] else [])%list.
Proof. rewrite List.filter_app. simpl. by destruct (f x). Qed.

Lemma group_add_groups G l x : groups_of G l -> groups_of (group_add G x) (l ++ [x]).
Proof.
  intros (Hnd & Hall & Hcov).
  destruct (decide (ball_id x ∈ G.*1)) as [Hin | Hnotin].
  - rewrite group_add_in by done.
    assert (((fun kg : Z * list BallInstance.t =>
                if kg.1 =? ball_id x then (kg.1, (kg.2 ++ [x])%list) else kg) <$> G).*1
            = G.*1) as Hkeys.
    { rewrite <- list_fmap_compose. apply list_fmap_ext. intros i [k g] _. simpl.
      by destruct (k =? ball_id x). }
    split; [by rewrite Hkeys|]. split.
    + apply Forall_fmap. eapply Forall_impl; [exact Hall|].
      intros [k g] [Hg Hne]. unfold compose. cbn [fst snd] in *.
      destruct (Z.eqb_spec k (ball_id x)) as [->|Hkx]; cbn [fst snd];
        rewrite filter_snoc.
      * rewrite Z.eqb_refl, <- Hg. split; [done|]. by destruct g.
      * rewrite (proj2 (Z.eqb_neq (ball_id x) k)) by congruence.
        by rewrite app_nil_r.
    + rewrite Hkeys. intros y [Hy | ->%list_elem_of_singleton]%elem_of_app; auto.
  - rewrite group_add_notin by done. split; [|split].
    + rewrite fmap_app. simpl. apply NoDup_app. split; [done|]. split.
      * intros k Hk ->%list_elem_of_singleton. done.
      * apply NoDup_singleton.
    + apply Forall_app. split.
      * eapply Forall_impl; [exact Hall|]. intros [k g] [Hg Hne]. cbn [fst snd] in *.
        rewrite filter_snoc.
        destruct (Z.eqb_spec (ball_id x) k) as [Heq|_]; [|by rewrite app_nil_r].
        exfalso. apply Hnotin. rewrite Heq.
        destruct g as [|y g']; [done|].
        assert (y ∈ List.filter (fun x0 => ball_id x0 =? k) l) as Hy
          by (rewrite <- Hg; left).
        apply list_elem_of_In, filter_In in Hy as [Hy Hk%Z.eqb_eq].
        rewrite <- Hk. by apply Hcov, list_elem_of_In.
      * constructor; [|constructor]. simpl. split; [|done].
        rewrite filter_snoc, Z.eqb_refl.
        assert (List.filter (fun x0 => ball_id x0 =? ball_id x) l = []) as ->; [|done].
        destruct (List.filter _ l) as [|y r] eqn:Hf; [done|]. exfalso.
        assert (In y (List.filter (fun x0 => ball_id x0 =? ball_id x) l)) as Hy
          by (rewrite Hf; left; done).
        apply filter_In in Hy as [Hy Hk%Z.eqb_eq].
        apply Hnotin. rewrite <- Hk. by apply Hcov, list_elem_of_In.
    + rewrite fmap_app. simpl.
      intros y [Hy | ->%list_elem_of_singleton]%elem_of_app; apply elem_of_app;
        [left; auto | right; left].
Qed.

Lemma fold_group_add_groups l : groups_of (fold_left group_add l []) l.
Proof.
  induction l as [|x l IH] using rev_ind.
  - split; [constructor|]. split; [constructor|]. by intros x ?%elem_of_nil.
  - rewrite fold_left_app. simpl. by apply group_add_groups.
Qed.

Lemma max_from_spec key best rest :
  max_from key best rest ∈ best :: rest ∧
  forall y, y ∈ best :: rest -> key y <= key (max_from key best rest).
Proof.
  revert best. induction rest as [|x rest IH]; intros best; simpl.
  - split; [left|]. intros y ->%list_elem_of_singleton. lia.
  - destruct (Z.ltb_spec (key best) (key x)) as [Hlt | Hge].
    + destruct (IH x) as [Hin Hmax]. split; [by right|].
      intros y [-> | Hy]%elem_of_cons; [|by apply Hmax].
      specialize (Hmax x (list_elem_of_here _ _)). lia.
    + destruct (IH best) as [Hin Hmax]. split.
      * apply elem_of_cons in Hin as [-> | Hin]; [left | right; by right].
      * intros y [-> | [-> | Hy]%elem_of_cons]%elem_of_cons.
        -- apply Hmax. left.
        -- specialize (Hmax best (list_elem_of_here _ _)). lia.
        -- apply Hmax. by right.
Qed.

Lemma candidates_without_duplicates tournament ball_instances :
  Tournament.duplicates_allowed tournament = false ->
  ∃ selected,
    candidates tournament ball_instances = Some selected ∧
    NoDup (ball_id <$> selected) ∧
    (forall x, x ∈ selected ->
       x ∈ ball_instances ∧ eligible tournament x = true ∧
       forall y, y ∈ ball_instances -> eligible tournament y = true ->
                 ball_id y = ball_id x -> stats y <= stats x) ∧
    (forall y, y ∈ ball_instances -> eligible tournament y = true ->
               ∃ x, x ∈ selected ∧ ball_id x = ball_id y).
Proof.
  intros Hdup. unfold candidates. rewrite Hdup. simpl.
  set (el := List.filter (eligible tournament) ball_instances).
  destruct (fold_group_add_groups el) as (Hnd & Hall & Hcov).
  set (G := fold_left group_add el []) in *.
  assert (is_Some (mapM (fun group : Z * list BallInstance.t => py_max stats group.2) G))
    as [selected Hsel].
  { apply mapM_is_Some. eapply Forall_impl; [exact Hall|].
    intros [k g] [_ Hne]. simpl in *. destruct g; [done | by eexists]. }
  exists selected. split; [done|]. apply mapM_Some in Hsel.
  assert (Forall2 (fun (kg : Z * list BallInstance.t) x =>
                     x ∈ kg.2 ∧ ball_id x = kg.1 ∧
                     forall y, y ∈ kg.2 -> stats y <= stats x) G selected) as Hmax.
  { apply Forall2_same_length_lookup. split; [by eapply Forall2_length|].
    intros i [k g] x Hi Hx. simpl.
    pose proof (Forall2_lookup_lr _ _ _ _ _ _ Hsel Hi Hx) as Hpm. simpl in Hpm.
    rewrite Forall_forall in Hall.
    destruct (Hall (k, g)) as [Hg _]; [apply list_elem_of_lookup; eauto|]. simpl in Hg.
    destruct g as [|b rest]; [discriminate|]. injection Hpm as <-.
    destruct (max_from_spec stats b rest) as [Hin Hle]. split; [done|]. split; [|done].
    rewrite Hg in Hin. apply list_elem_of_In, filter_In in Hin as [_ Hk%Z.eqb_eq]. done. }
  assert (ball_id <$> selected = G.*1) as Hids.
  { apply list_eq_same_length with (length selected).
    - rewrite length_fmap. by eapply Forall2_length.
    - by rewrite length_fmap.
    - intros i a b _. rewrite !list_lookup_fmap.
      destruct (selected !! i) as [x|] eqn:Hx; [|done].
      destruct (G !! i) as [kg|] eqn:Hi; [|done]. simpl. intros [= <-] [= <-].
      by destruct (Forall2_lookup_lr _ _ _ _ _ _ Hmax Hi Hx) as (_ & ? & _). }
  split; [by rewrite Hids|]. split.
  - intros x Hx. apply list_elem_of_lookup in Hx as [i Hx].
    destruct (Forall2_lookup_r _ _ _ _ _ Hmax Hx) as ([k g] & Hi & Hin & Hk & Hle).
    simpl in *. rewrite Forall_forall in Hall.
    destruct (Hall (k, g)) as [Hg _]; [apply list_elem_of_lookup; eauto|]. simpl in Hg.
    assert (forall y, y ∈ g <-> y ∈ ball_instances ∧ eligible tournament y = true
                              ∧ ball_id y = k) as Hmem.
    { intros y. rewrite Hg. unfold el.
      rewrite !list_elem_of_In, !filter_In, Z.eqb_eq, <- list_elem_of_In. tauto. }
    apply Hmem in Hin as Hin'. destruct Hin' as (Hxin & Hxel & _).
    split; [done|]. split; [done|]. intros y Hy Hel Hid. apply Hle, Hmem. split; [done|].
    split; [done | congruence].
  - intros y Hy Hel.
    assert (ball_id y ∈ G.*1) as Hk.
    { apply Hcov. unfold el. apply list_elem_of_In, filter_In.
      split; [by apply list_elem_of_In | done]. }
    rewrite <- Hids in Hk. apply list_elem_of_fmap in Hk as (x & Hid & Hx). eauto.
Qed.

(** X16.  When duplicates are not allowed, the instances picked for a
    player are one for each kind of ball among its eligible instances:
    no two of them have the same ball id, each is an eligible instance
    of the player with the highest [health + attack] of its kind, and
    every kind of ball that has an eligible instance has one. *)
Theorem candidates_best_of_each_kind tournament ball_instances :
  Tournament.duplicates_allowed tournament = false ->
  ∃ selected,
    candidates tournament ball_instances = Some selected ∧
    NoDup (ball_id <$> selected) ∧
    (forall x, x ∈ selected ->
       x ∈ ball_instances ∧ eligible tournament x = true ∧
       forall y, y ∈ ball_instances -> eligible tournament y = true ->
                 ball_id y = ball_id x -> stats y <= stats x) ∧
    (forall y, y ∈ ball_instances -> eligible tournament y = true ->
               ∃ x, x ∈ selected ∧ ball_id x = ball_id y).
Proof. apply candidates_without_duplicates. Qed.

Lemma candidates_best_of_each_kind_witness :
  ∃ selected,
    candidates (cup [])
      [instance_of 1 "A" 10 5; instance_of 2 "B" 7 4; instance_of 1 "A" 12 5;
       instance_of 1 "A" 5 12; instance_of 2 "B" 1 1]
    = Some selected ∧
    NoDup (ball_id <$> selected) ∧
    (forall x, x ∈ selected ->
       x ∈ [instance_of 1 "A" 10 5; instance_of 2 "B" 7 4; instance_of 1 "A" 12 5;
            instance_of 1 "A" 5 12; instance_of 2 "B" 1 1] ∧
       eligible (cup []) x = true ∧
       forall y, y ∈ [instance_of 1 "A" 10 5; instance_of 2 "B" 7 4; instance_of 1 "A" 12 5;
                      instance_of 1 "A" 5 12; instance_of 2 "B" 1 1] ->
                 eligible (cup []) y = true ->
                 ball_id y = ball_id x -> stats y <= stats x) ∧
    (forall y, y ∈ [instance_of 1 "A" 10 5; instance_of 2 "B" 7 4; instance_of 1 "A" 12 5;
                    instance_of 1 "A" 5 12; instance_of 2 "B" 1 1] ->
               eligible (cup []) y = true ->
               ∃ x, x ∈ selected ∧ ball_id x = ball_id y).
Proof.
  apply (candidates_best_of_each_kind (cup [])). reflexivity.
Defined.

Example candidates_example :
  candidates (cup [])
    [instance_of 1 "A" 10 5; instance_of 2 "B" 7 4; instance_of 1 "A" 12 5;
     instance_of 1 "A" 5 12; instance_of 2 "B" 1 1]
  = Some [instance_of 1 "A" 12 5; instance_of 2 "B" 7 4].
Proof. by vm_compute. Qed.

(** The instances picked are eligible instances of the player. *)
Lemma candidates_eligible tournament ball_instances selected :
  candidates tournament ball_instances = Some selected ->
  forall x, x ∈ selected -> x ∈ ball_instances ∧ eligible tournament x = true.
Proof.
  intros H x Hx. destruct (Tournament.duplicates_allowed tournament) eqn:Hdup.
  - unfold candidates in H. rewrite Hdup in H. simpl in H. injection H as <-.
    apply list_elem_of_In, filter_In in Hx as [Hin Hel]. by apply list_elem_of_In in Hin.
  - destruct (candidates_without_duplicates tournament ball_instances Hdup)
      as (sel & Hsel & _ & Hall & _).
    rewrite H in Hsel. injection Hsel as <-. destruct (Hall x Hx) as (? & ? & _). done.
Qed.

Lemma balls_eqb_refl l : balls_eqb l l = true.
Proof.
  induction l as [|b l IH]; simpl; [done|]. unfold ball_eqb.
  by rewrite !String.eqb_refl, !Z.eqb_refl, IH.
Qed.

Lemma participant_eqb_refl p : participant_eqb p p = true.
Proof.
  unfold participant_eqb. rewrite !Z.eqb_refl, balls_eqb_refl.
  by destruct (TournamentPlayer.eliminated p).
Qed.

Lemma participant_eqb_user_id p q : participant_eqb p q = true -> user_id p = user_id q.
Proof.
  unfold participant_eqb. rewrite !andb_true_iff. intros (((H & _) & _) & _).
  by apply Z.eqb_eq in H.
Qed.

Lemma filter_other_ids (l : list TournamentPlayer.t) (u : Z) :
  u ∉ user_id <$> l ->
  List.filter (fun p => negb (user_id p =? u)) l = l.
Proof.
  induction l as [|p l IH]; [done|]. rewrite fmap_cons, not_elem_of_cons.
  intros [Hne Hnotin]. simpl.
  rewrite (proj2 (Z.eqb_neq (user_id p) u)) by congruence. simpl. by rewrite IH.
Qed.

Lemma remove_participant_filter l x :
  NoDup (user_id <$> l) -> x ∈ l ->
  remove_participant x l = List.filter (fun p => negb (user_id p =? user_id x)) l.
Proof.
  induction l as [|p l IH]; intros Hnd Hin; [by apply elem_of_nil in Hin|].
  rewrite fmap_cons in Hnd. apply NoDup_cons in Hnd as [Hp Hnd]. simpl.
  destruct (participant_eqb p x) eqn:Heq.
  - apply participant_eqb_user_id in Heq. rewrite Heq, Z.eqb_refl. simpl.
    rewrite <- Heq. by rewrite filter_other_ids.
  - apply elem_of_cons in Hin as [-> | Hin]; [by rewrite participant_eqb_refl in Heq|].
    assert (user_id p <> user_id x) as Hne.
    { intros Hux. apply Hp. rewrite Hux. apply list_elem_of_fmap. eauto. }
    rewrite (proj2 (Z.eqb_neq _ _) Hne). simpl. by rewrite IH.
Qed.

Lemma remove_failed_filter l f :
  NoDup (user_id <$> l) -> f.1 ∈ l ->
  remove_failed l f = List.filter (fun p => negb (user_id p =? user_id f.1)) l.
Proof.
  intros Hnd Hin. unfold remove_failed.
  assert (existsb (fun p => participant_eqb p f.1) l = true) as ->.
  { apply existsb_exists. exists f.1. split; [by apply list_elem_of_In|].
    apply participant_eqb_refl. }
  by apply remove_participant_filter.
Qed.

Lemma filter_NoDup_ids (g : TournamentPlayer.t -> bool) l :
  NoDup (user_id <$> l) -> NoDup (user_id <$> List.filter g l).
Proof.
  induction l as [|p l IH]; [done|]. rewrite fmap_cons.
  intros [Hp Hnd]%NoDup_cons. simpl. destruct (g p); [|by apply IH].
  rewrite fmap_cons. apply NoDup_cons. split; [|by apply IH].
  intros (q & Hq & Hin)%list_elem_of_fmap. apply Hp, list_elem_of_fmap.
  exists q. split; [done|]. by apply list_elem_of_In, filter_In in Hin as [?%list_elem_of_In _].
Qed.

Lemma fold_remove_failed F l :
  NoDup (user_id <$> l) -> NoDup ((fun f : TournamentPlayer.t * Z => user_id f.1) <$> F) ->
  (forall f, f ∈ F -> f.1 ∈ l) ->
  fold_left remove_failed F l
  = List.filter (fun p => negb (existsb (fun f : TournamentPlayer.t * Z =>
                                           user_id f.1 =? user_id p) F)) l.
Proof.
  revert l. induction F as [|f F IH]; intros l Hnd HndF Hsub; simpl.
  { induction l as [|p l IHl]; simpl; [done|]. f_equal. apply IHl.
    - rewrite fmap_cons in Hnd. by apply NoDup_cons in Hnd as [_ ?].
    - by intros f ?%elem_of_nil. }
  rewrite fmap_cons in HndF. apply NoDup_cons in HndF as [Hf HndF].
  rewrite remove_failed_filter by (try done; apply Hsub; left).
  rewrite IH; [| by apply filter_NoDup_ids | done |].
  - clear. induction l as [|p l IHl]; simpl; [done|].
    rewrite (Z.eqb_sym (user_id f.1) (user_id p)).
    destruct (user_id p =? user_id f.1); simpl; [done|].
    destruct (existsb _ F); simpl; by rewrite IHl.
  - intros f' Hf'. apply list_elem_of_In, filter_In. split.
    + apply list_elem_of_In, Hsub. by right.
    + apply negb_true_iff, Z.eqb_neq. intros Heq. apply Hf. rewrite <- Heq.
      apply list_elem_of_fmap. eauto.
Qed.

Lemma filter_kept (g : TournamentPlayer.t -> bool)
    (R : list (TournamentPlayer.t * option Z)) :
  (forall r, r ∈ R -> g r.1 = bool_decide (is_Some r.2)) ->
  List.filter (fun p => negb (g p)) (fst <$> R) = kept R.
Proof.
  unfold kept. induction R as [|[p o] R IH]; intros Hg; [done|].
  rewrite fmap_cons. simpl. pose proof (Hg (p, o) ltac:(left)) as Hp. simpl in Hp.
  rewrite Hp. destruct o as [n|]; simpl.
  - apply IH.
    intros r Hr. apply Hg. by right.
  - f_equal. apply IH.
    intros r Hr. apply Hg. by right.
Qed.

Lemma failed_of_ids_sublist (R : list (TournamentPlayer.t * option Z)) :
  ((fun f : TournamentPlayer.t * Z => user_id f.1) <$> failed_of R)
    `sublist_of` ((fun r : TournamentPlayer.t * option Z => user_id r.1) <$> R).
Proof.
  unfold failed_of. induction R as [|[p o] R IH]; [done|].
  rewrite fmap_cons. simpl. destruct o as [n|]; simpl.
  - by apply sublist_skip.
  - by apply sublist_cons.
Qed.

Lemma failed_of_elem (R : list (TournamentPlayer.t * option Z)) p n :
  (p, n) ∈ failed_of R <-> (p, Some n) ∈ R.
Proof.
  unfold failed_of. rewrite list_elem_of_omap. split.
  - intros ([q o] & Hin & Heq). simpl in Heq. destruct o as [m|]; [|done].
    simpl in Heq. by injection Heq as -> ->.
  - intros Hin. by exists (p, Some n).
Qed.

Lemma kept_elem (R : list (TournamentPlayer.t * option Z)) p :
  p ∈ kept R <-> (p, None) ∈ R.
Proof.
  unfold kept. rewrite list_elem_of_omap. split.
  - intros ([q o] & Hin & Heq). simpl in Heq. destruct o as [m|]; [done|].
    by injection Heq as ->.
  - intros Hin. by exists (p, None).
Qed.

Lemma kept_failed_length (R : list (TournamentPlayer.t * option Z)) :
  (length (kept R) + length (failed_of R) = length R)%nat.
Proof.
  unfold kept, failed_of, omap. induction R as [|[p [n|]] R IH]; simpl in *; lia.
Qed.

(** Under distinct users, the removals at the end leave the participants
    that got a team, in their order. *)
Lemma remove_all_failed (R : list (TournamentPlayer.t * option Z)) :
  NoDup ((fun r : TournamentPlayer.t * option Z => user_id r.1) <$> R) ->
  fold_left remove_failed (failed_of R) (fst <$> R) = kept R.
Proof.
  intros Hnd. rewrite fold_remove_failed.
  - apply (filter_kept (fun p => existsb (fun f : TournamentPlayer.t * Z =>
                                            user_id f.1 =? user_id p) (failed_of R))).
    intros r Hr. apply eq_true_iff_eq. rewrite bool_decide_eq_true, existsb_exists. split.
    + intros ([q n] & Hin & Heq%Z.eqb_eq). simpl in Heq.
      apply list_elem_of_In, failed_of_elem in Hin.
      assert (r = (q, Some n)) as ->; [|by eexists].
      apply list_elem_of_lookup in Hr as [i Hi]. apply list_elem_of_lookup in Hin as [j Hj].
      assert (i = j) as ->; [|congruence].
      eapply NoDup_lookup; [exact Hnd | |]; rewrite list_lookup_fmap.
      * by rewrite Hi.
      * rewrite Hj. simpl. by rewrite Heq.
    + intros [n Hn]. exists (r.1, n). split; [|apply Z.eqb_refl].
      apply list_elem_of_In, failed_of_elem. destruct r as [p o]. simpl in *. by subst.
  - rewrite <- list_fmap_compose. exact Hnd.
  - eapply sublist_NoDup; [exact Hnd | apply failed_of_ids_sublist].
  - intros [p n] Hf%failed_of_elem. simpl. apply list_elem_of_fmap. by exists (p, Some n).
Qed.

Lemma select_balls_user_id collection get_emoji shuffle tournament k p :
  user_id (select_balls collection get_emoji shuffle tournament k p).1 = user_id p.
Proof.
  unfold select_balls. destruct (collection _ _) as [l|]; [|done].
  destruct (candidates _ _) as [sel|]; [|done]. by destruct (_ <? _).
Qed.

Lemma select_balls_failed collection get_emoji shuffle tournament k p q n :
  select_balls collection get_emoji shuffle tournament k p = (q, Some n) ->
  q = p ∧ 0 <= n.
Proof.
  unfold select_balls. destruct (collection _ _) as [l|]; [|intros [= <- <-]; split; [done|lia]].
  destruct (candidates _ _) as [sel|]; [|intros [= <- <-]; split; [done|lia]].
  destruct (_ <? _); [|done]. intros [= <- <-]. split; [done|lia].
Qed.

Lemma slice_to_take {A} (n : Z) (l : list A) :
  0 <= n -> slice_to n l = take (Z.to_nat n) l.
Proof. intros Hn. unfold slice_to. by rewrite (proj2 (Z.leb_le 0 n)). Qed.

Lemma select_balls_team collection get_emoji shuffle tournament k p q :
  0 <= Tournament.balls_per_player tournament ->
  (forall k l, shuffle k l ≡ₚ l) ->
  select_balls collection get_emoji shuffle tournament k p = (q, None) ->
  ∃ ball_instances team,
    collection k (TournamentPlayer.player_id p) = Some ball_instances ∧
    q = TournamentPlayer.set_balls (tournament_ball get_emoji <$> team) p ∧
    Z.of_nat (length team) = Tournament.balls_per_player tournament ∧
    (forall x, x ∈ team -> x ∈ ball_instances ∧ eligible tournament x = true) ∧
    (Tournament.duplicates_allowed tournament = false -> NoDup (ball_id <$> team)).
Proof.
  intros Hn Hperm. unfold select_balls.
  destruct (collection _ _) as [l|] eqn:Hl; [|done].
  destruct (candidates _ _) as [sel|] eqn:Hsel; [|done].
  destruct (_ <? _) eqn:Hlt; [done|]. apply Z.ltb_ge in Hlt. intros [= <-].
  rewrite slice_to_take by done.
  set (team := take _ _).
  exists l, team. split; [done|]. split; [done|].
  assert (team `sublist_of` shuffle k sel) as Hsub by apply sublist_take.
  split; [|split].
  - unfold team. rewrite length_take, (Permutation_length (Hperm k sel)). lia.
  - intros x Hx. apply (candidates_eligible _ _ _ Hsel).
    rewrite <- (Hperm k sel). by eapply elem_of_sublist.
  - intros Hdup.
    destruct (candidates_without_duplicates tournament l Hdup) as (sel' & Hsel' & Hnd & _).
    rewrite Hsel in Hsel'. injection Hsel' as <-.
    eapply sublist_NoDup; [|by apply fmap_sublist]. by rewrite (Hperm k sel).
Qed.

Lemma imap_ids collection get_emoji shuffle tournament (l : list TournamentPlayer.t) :
  (fun r : TournamentPlayer.t * option Z => user_id r.1)
    <$> imap (select_balls collection get_emoji shuffle tournament) l
  = user_id <$> l.
Proof.
  apply list_eq. intros i. rewrite !list_lookup_fmap, list_lookup_imap.
  destruct (l !! i) as [p|]; [|done]. simpl. by rewrite select_balls_user_id.
Qed.

Lemma auto_select_result collection get_emoji shuffle tournament :
  NoDup (user_id <$> Tournament.participants tournament) ->
  let results := imap (select_balls collection get_emoji shuffle tournament)
                   (Tournament.participants tournament) in
  auto_select_balls_for_tournament collection get_emoji shuffle tournament
  = (Tournament.set_participants (kept results) tournament, failed_of results).
Proof.
  intros Hnd results. unfold auto_select_balls_for_tournament. fold results.
  fold (failed_of results). change (map fst results) with (fst <$> results).
  rewrite remove_all_failed; [done|]. unfold results. by rewrite imap_ids.
Qed.

(** X17.  When the users of the participants are distinct and
    [balls_per_player] is not negative, whatever the shuffle, every
    participant that [auto_select_balls_for_tournament] leaves in the
    tournament is a participant of before with a team of exactly
    [balls_per_player] balls, each made of an eligible instance that the
    database gave for this player, and of different kinds of ball when
    duplicates are not allowed. *)
Theorem auto_select_teams collection get_emoji shuffle tournament :
  0 <= Tournament.balls_per_player tournament ->
  (forall k l, shuffle k l ≡ₚ l) ->
  NoDup (user_id <$> Tournament.participants tournament) ->
  forall q,
    q ∈ Tournament.participants
          (auto_select_balls_for_tournament collection get_emoji shuffle tournament).1 ->
    ∃ k p ball_instances team,
      Tournament.participants tournament !! k = Some p ∧
      collection k (TournamentPlayer.player_id p) = Some ball_instances ∧
      q = TournamentPlayer.set_balls (tournament_ball get_emoji <$> team) p ∧
      Z.of_nat (length (TournamentPlayer.balls q))
        = Tournament.balls_per_player tournament ∧
      (forall x, x ∈ team -> x ∈ ball_instances ∧ eligible tournament x = true) ∧
      (Tournament.duplicates_allowed tournament = false -> NoDup (ball_id <$> team)).
Proof.
  intros Hn Hperm Hnd q. rewrite auto_select_result by done. simpl.
  rewrite kept_elem. intros Hq.
  apply list_elem_of_lookup in Hq as [k Hk]. rewrite list_lookup_imap in Hk.
  destruct (Tournament.participants tournament !! k) as [p|] eqn:Hp; [|done].
  simpl in Hk. injection Hk as Hk.
  destruct (select_balls_team _ _ _ _ _ _ _ Hn Hperm Hk)
    as (l & team & Hl & -> & Hlen & Hel & Hdup).
  exists k, p, l, team. repeat split; try done; try (by apply Hel).
  simpl. by rewrite length_fmap.
Qed.

(** X18.  When the users of the participants are distinct, each
    participant of before is either left in the tournament (with what the
    loop made of it) and not in the returned list, or in the returned
    list, unchanged and with a count that is not negative, and then no
    participant with its user is left in the tournament; the two lists
    together are as long as the list of participants was. *)
Theorem auto_select_failed_removed collection get_emoji shuffle tournament :
  NoDup (user_id <$> Tournament.participants tournament) ->
  let result := auto_select_balls_for_tournament collection get_emoji shuffle tournament in
  (length (Tournament.participants result.1) + length result.2
   = length (Tournament.participants tournament))%nat ∧
  forall k p, Tournament.participants tournament !! k = Some p ->
    match (select_balls collection get_emoji shuffle tournament k p).2 with
    | Some n =>
        (p, n) ∈ result.2 ∧ 0 <= n ∧
        forall q, q ∈ Tournament.participants result.1 -> user_id q <> user_id p
    | None =>
        (select_balls collection get_emoji shuffle tournament k p).1
          ∈ Tournament.participants result.1 ∧
        forall f, f ∈ result.2 -> user_id f.1 <> user_id p
    end.
Proof.
  intros Hnd result. unfold result. rewrite auto_select_result by done. simpl.
  set (R := imap _ _).
  assert (NoDup ((fun r : TournamentPlayer.t * option Z => user_id r.1) <$> R)) as HndR.
  { unfold R. by rewrite imap_ids. }
  split.
  { rewrite kept_failed_length. unfold R. apply length_imap. }
  intros k p Hp.
  assert (R !! k = Some (select_balls collection get_emoji shuffle tournament k p)) as Hk.
  { unfold R. rewrite list_lookup_imap, Hp. done. }
  assert (forall r, r ∈ R -> user_id r.1 = user_id p ->
                    r = select_balls collection get_emoji shuffle tournament k p) as Huniq.
  { intros r [j Hj]%list_elem_of_lookup Hid.
    assert (j = k) as ->; [|congruence].
    eapply NoDup_lookup; [exact HndR| |]; rewrite list_lookup_fmap.
    - by rewrite Hj.
    - rewrite Hk. simpl. by rewrite Hid, select_balls_user_id. }
  destruct (select_balls collection get_emoji shuffle tournament k p) as [q [n|]] eqn:Hs; simpl.
  - destruct (select_balls_failed _ _ _ _ _ _ _ _ Hs) as [-> Hn].
    split; [|split; [done|]].
    + apply failed_of_elem. by eapply list_elem_of_lookup_2.
    + intros q' Hq'%kept_elem Hid. by specialize (Huniq _ Hq' Hid).
  - split.
    + apply kept_elem. by eapply list_elem_of_lookup_2.
    + intros [q' m] Hf%failed_of_elem Hid. by specialize (Huniq _ Hf Hid).
Qed.

Example auto_select_example :
  auto_select_balls_for_tournament stock no_emoji (fun _ => reverse) league
  = (cup [entrant 1 "ann" [TournamentBall.mk "Spain" basketball 90 90]],
     [(entrant 2 "bob" [], 0)]).
Proof. vm_compute. reflexivity. Qed.

Lemma auto_select_teams_witness :
  ∃ k p ball_instances team,
    Tournament.participants league !! k = Some p ∧
    stock k (TournamentPlayer.player_id p) = Some ball_instances ∧
    entrant 1 "ann" [TournamentBall.mk "Spain" basketball 90 90]
      = TournamentPlayer.set_balls (tournament_ball no_emoji <$> team) p ∧
    Z.of_nat (length (TournamentPlayer.balls
                        (entrant 1 "ann" [TournamentBall.mk "Spain" basketball 90 90])))
      = Tournament.balls_per_player league ∧
    (forall x, x ∈ team -> x ∈ ball_instances ∧ eligible league x = true) ∧
    (Tournament.duplicates_allowed league = false -> NoDup (ball_id <$> team)).
Proof.
  apply (auto_select_teams stock no_emoji (fun _ => reverse) league).
  - vm_compute. discriminate.
  - intros k l. apply reverse_Permutation.
  - apply (bool_decide_unpack _). vm_compute. exact I.
  - rewrite auto_select_example. simpl. left.
Defined.

Lemma auto_select_failed_removed_witness :
  (length (Tournament.participants
             (auto_select_balls_for_tournament stock no_emoji (fun _ => reverse) league).1)
   + length (auto_select_balls_for_tournament stock no_emoji (fun _ => reverse) league).2
   = length (Tournament.participants league))%nat ∧
  forall k p, Tournament.participants league !! k = Some p ->
    match (select_balls stock no_emoji (fun _ => reverse) league k p).2 with
    | Some n =>
        (p, n) ∈ (auto_select_balls_for_tournament stock no_emoji (fun _ => reverse) league).2
        ∧ 0 <= n ∧
        forall q,
          q ∈ Tournament.participants
                (auto_select_balls_for_tournament stock no_emoji (fun _ => reverse) league).1 ->
          user_id q <> user_id p
    | None =>
        (select_balls stock no_emoji (fun _ => reverse) league k p).1
          ∈ Tournament.participants
              (auto_select_balls_for_tournament stock no_emoji (fun _ => reverse) league).1 ∧
        forall f,
          f ∈ (auto_select_balls_for_tournament stock no_emoji (fun _ => reverse) league).2 ->
          user_id f.1 <> user_id p
    end.
Proof.
  apply (auto_select_failed_removed stock no_emoji (fun _ => reverse) league).
  apply (bool_decide_unpack _). vm_compute. exact I.
Defined.

(** ** The registration view *)

Lemma find_first {A : Type} (f : A -> bool) (l1 : list A) (p : A) (l2 : list A) :
  (forall q, q ∈ l1 -> f q = false) -> f p = true ->
  List.find f (l1 ++ p :: l2) = Some p.
Proof.
  intros Hl1 Hp. induction l1 as [|q l1 IH]; simpl.
  - by rewrite Hp.
  - rewrite (Hl1 q) by left. apply IH. intros q' Hq'. apply Hl1. by right.
Qed.

Lemma find_none_ids (l : list TournamentPlayer.t) (u : Z) :
  List.find (fun participant => user_id participant =? u) l = None <-> u ∉ user_id <$> l.
Proof.
  induction l as [|q l IH].
  - split; [intros _ H; inversion H | done].
  - rewrite fmap_cons, not_elem_of_cons. simpl.
    destruct (Z.eqb_spec (user_id q) u) as [->|Hne].
    + split; [done | intros [? _]; done].
    + rewrite IH. split; [intros ?; split; congruence | by intros [_ ?]].
Qed.

Lemma existsb_ids (l : list TournamentPlayer.t) (u : Z) :
  existsb (fun participant => user_id participant =? u) l = false <-> u ∉ user_id <$> l.
Proof.
  induction l as [|q l IH].
  - split; [intros _ H; inversion H | done].
  - rewrite fmap_cons, not_elem_of_cons. simpl. rewrite orb_false_iff, IH, Z.eqb_neq. split.
    + intros [? ?]. split; congruence.
    + intros [? ?]. split; congruence.
Qed.

Lemma remove_participant_first l1 p l2 :
  (forall q, q ∈ l1 -> user_id q <> user_id p) ->
  remove_participant p (l1 ++ p :: l2) = (l1 ++ l2)%list.
Proof.
  intros Hl1. induction l1 as [|q l1 IH]; simpl.
  - by rewrite participant_eqb_refl.
  - destruct (participant_eqb q p) eqn:Heq.
    + apply participant_eqb_user_id in Heq. by destruct (Hl1 q ltac:(left)).
    + f_equal. apply IH. intros q' Hq'. apply Hl1. by right.
Qed.

Lemma remove_participant_sublist x l : remove_participant x l `sublist_of` l.
Proof.
  induction l as [|q l IH]; simpl; [done|]. destruct (participant_eqb q x).
  - by apply sublist_cons.
  - by apply sublist_skip.
Qed.

Lemma kept_sublist (R : list (TournamentPlayer.t * option Z)) :
  kept R `sublist_of` (fst <$> R).
Proof.
  unfold kept. induction R as [|[p [n|]] R IH]; simpl; [done| |].
  - by apply sublist_cons.
  - by apply sublist_skip.
Qed.

Lemma dict_get_del k d : dict_get k (dict_del k d) = None.
Proof.
  unfold dict_del. induction d as [|[k' v] d IH]; simpl; [done|].
  destruct (k' =? k) eqn:Hk; simpl; [done|]. by rewrite Hk.
Qed.

Lemma dict_get_set k v d : dict_get k (dict_set k v d) = Some v.
Proof.
  induction d as [|[k' v'] d IH]; simpl.
  - by rewrite Z.eqb_refl.
  - destruct (k' =? k) eqn:Hk; simpl; by rewrite Hk.
Qed.

Lemma is_registration_true s : is_registration s = true <-> s = REGISTRATION.
Proof. by destruct s. Qed.

Lemma auto_select_sublist collection get_emoji shuffle tournament :
  NoDup (user_id <$> Tournament.participants tournament) ->
  (user_id <$> Tournament.participants
                 (auto_select_balls_for_tournament collection get_emoji shuffle tournament).1)
    `sublist_of` (user_id <$> Tournament.participants tournament).
Proof.
  intros Hnd. rewrite auto_select_result by done. simpl.
  rewrite <- (imap_ids collection get_emoji shuffle tournament
                (Tournament.participants tournament)).
  set (R := imap _ _).
  change ((fun r : TournamentPlayer.t * option Z => user_id r.1) <$> R)
    with ((user_id ∘ fst) <$> R).
  rewrite list_fmap_compose. apply fmap_sublist, kept_sublist.
Qed.

Lemma auto_select_settings collection get_emoji shuffle tournament :
  let tournament' :=
    (auto_select_balls_for_tournament collection get_emoji shuffle tournament).1 in
  Tournament.max_participants tournament' = Tournament.max_participants tournament ∧
  Tournament.state tournament' = Tournament.state tournament.
Proof. done. Qed.

(** X19.  A user that leaves while the registration is open is taken out
    of the participants at its first entry, the other entries staying as
    they are and in their order; the entry of Challonge for the user goes
    when Challonge has destroyed its participant, and stays when that
    call has raised. *)
Theorem leave_removes_first_entry challonge_destroy tournament user l1 p l2 :
  Tournament.participants tournament = (l1 ++ p :: l2)%list ->
  user_id p = Member.id user ->
  (forall q, q ∈ l1 -> user_id q <> Member.id user) ->
  Tournament.state tournament = REGISTRATION ->
  let tournament' := (_handle_leave challonge_destroy tournament user).1 in
  Tournament.participants tournament' = (l1 ++ l2)%list ∧
  Tournament.state tournament' = REGISTRATION ∧
  dict_get (Member.id user) (Tournament.challonge_participants tournament')
  = (if challonge_destroy then None
     else dict_get (Member.id user) (Tournament.challonge_participants tournament)) ∧
  (_handle_leave challonge_destroy tournament user).2
  = send_message "❌ You have left the tournament!".
Proof.
  intros Hl Hp Hl1 Hst. unfold _handle_leave. rewrite Hl, Hst.
  rewrite (find_first _ l1 p l2).
  - simpl negb. cbv iota.
    rewrite remove_participant_first by (intros q Hq; rewrite Hp; by apply Hl1).
    cbn [Tournament.challonge_participants Tournament.set_participants].
    destruct (dict_get _ _) as [c|] eqn:Hc.
    + destruct challonge_destroy; simpl; [|by rewrite Hst].
      by rewrite dict_get_del, Hst.
    + simpl. rewrite Hst, Hc. by destruct challonge_destroy.
  - intros q Hq. apply Z.eqb_neq. by apply Hl1.
  - by apply Z.eqb_eq.
Qed.

Lemma leave_removes_first_entry_witness :
  Tournament.participants
    (_handle_leave true
       (presses (opened 4) [join_tournament (Member.mk 1 "ann") 11 (Some 101);
                            join_tournament (Member.mk 2 "bob") 12 (Some 102)])
       (Member.mk 2 "bob")).1
  = ([TournamentPlayer.mk (Member.mk 1 "ann") 11 [] false] ++ [])%list ∧
  Tournament.state
    (_handle_leave true
       (presses (opened 4) [join_tournament (Member.mk 1 "ann") 11 (Some 101);
                            join_tournament (Member.mk 2 "bob") 12 (Some 102)])
       (Member.mk 2 "bob")).1 = REGISTRATION ∧
  dict_get (Member.id (Member.mk 2 "bob"))
    (Tournament.challonge_participants
       (_handle_leave true
          (presses (opened 4) [join_tournament (Member.mk 1 "ann") 11 (Some 101);
                               join_tournament (Member.mk 2 "bob") 12 (Some 102)])
          (Member.mk 2 "bob")).1)
  = None ∧
  (_handle_leave true
     (presses (opened 4) [join_tournament (Member.mk 1 "ann") 11 (Some 101);
                          join_tournament (Member.mk 2 "bob") 12 (Some 102)])
     (Member.mk 2 "bob")).2
  = send_message "❌ You have left the tournament!".
Proof.
  apply (leave_removes_first_entry true
           (presses (opened 4) [join_tournament (Member.mk 1 "ann") 11 (Some 101);
                                join_tournament (Member.mk 2 "bob") 12 (Some 102)])
           (Member.mk 2 "bob")
           [TournamentPlayer.mk (Member.mk 1 "ann") 11 [] false]
           (TournamentPlayer.mk (Member.mk 2 "bob") 12 [] false) []).
  - reflexivity.
  - reflexivity.
  - intros q Hq. apply list_elem_of_singleton in Hq as ->. vm_compute. discriminate.
  - reflexivity.
Defined.

Lemma handle_sound tournament p :
  registration_sound tournament -> registration_sound (handle tournament p).1.
Proof.
  intros [Hnd Hlen]. unfold registration_sound.
  destruct p as [user pk c | user d | user collection get_emoji shuffle s | user]; simpl.
  - unfold _handle_join, join_checks.
    destruct (existsb _ _) eqn:Hex; [done|]. apply existsb_ids in Hex.
    destruct (_ <=? _) eqn:Hfull; [done|]. apply Z.leb_gt in Hfull.
    destruct (negb _); [done|].
    assert (Tournament.participants (join_append pk c tournament user).1
            = (Tournament.participants tournament
                 ++ [TournamentPlayer.mk user pk [] false])%list
            ∧ Tournament.max_participants (join_append pk c tournament user).1
              = Tournament.max_participants tournament) as [-> ->].
    { unfold join_append. by destruct c. }
    split.
    + rewrite fmap_app. apply NoDup_app. split; [done|]. split.
      * intros u Hu Hin. apply list_elem_of_singleton in Hin. simpl in Hin.
        unfold user_id in Hin at 1. simpl in Hin. congruence.
      * apply NoDup_singleton.
    + rewrite length_app. simpl. lia.
  - unfold _handle_leave. destruct (List.find _ _) as [q|]; [|done].
    destruct (negb _); [done|].
    set (l := remove_participant q (Tournament.participants tournament)).
    assert (l `sublist_of` Tournament.participants tournament) as Hsub
      by apply remove_participant_sublist.
    assert (NoDup (user_id <$> l) ∧
            Z.of_nat (length l) <= Tournament.max_participants tournament) as Hl.
    { split.
      - eapply sublist_NoDup; [exact Hnd | by apply fmap_sublist].
      - apply sublist_length in Hsub. lia. }
    cbn [Tournament.challonge_participants Tournament.set_participants].
    destruct (dict_get _ _); [destruct d|]; exact Hl.
  - unfold _handle_start. destruct (negb _); [done|].
    destruct (_ <? _)%nat; [done|]. destruct (negb _); [done|].
    pose proof (auto_select_sublist collection get_emoji shuffle tournament Hnd) as Hsub.
    set (t' := (auto_select_balls_for_tournament collection get_emoji shuffle tournament).1)
      in *.
    assert (Tournament.max_participants t' = Tournament.max_participants tournament) as Hmax
      by done.
    assert (NoDup (user_id <$> Tournament.participants t') ∧
            Z.of_nat (length (Tournament.participants t'))
            <= Tournament.max_participants t') as Hl.
    { split.
      - eapply sublist_NoDup; [exact Hnd | done].
      - apply sublist_length in Hsub. rewrite !length_fmap in Hsub. lia. }
    destruct s; exact Hl.
  - unfold _handle_cancel. by destruct (negb _).
Qed.

(** X20.  Registration keeps its invariant through any sequence of
    presses of the four buttons, by whatever users and whatever the
    services answer, when each handler runs to its end before the next
    one: no user is twice among the participants, and the participants
    are at most [max_participants]. *)
Theorem registration_stays_sound tournament l :
  registration_sound tournament -> registration_sound (presses tournament l).
Proof.
  unfold presses. revert tournament. induction l as [|p l IH]; intros tournament H; [done|].
  simpl. apply IH. by apply handle_sound.
Qed.

Lemma registration_stays_sound_witness :
  registration_sound (opened 2) ∧
  registration_sound
    (presses (opened 2)
       [join_tournament (Member.mk 1 "ann") 11 (Some 101);
        join_tournament (Member.mk 1 "ann") 11 (Some 103);
        join_tournament (Member.mk 2 "bob") 12 None;
        join_tournament (Member.mk 3 "cat") 13 (Some 104);
        leave_tournament (Member.mk 1 "ann") false;
        cancel_tournament (Member.mk 0 "org");
        join_tournament (Member.mk 3 "cat") 13 (Some 104)]).
Proof.
  assert (registration_sound (opened 2)) as H.
  { split; [apply NoDup_nil_2 | vm_compute; discriminate]. }
  split; [exact H|]. apply (registration_stays_sound (opened 2)). exact H.
Defined.

Example presses_example :
  Tournament.participants
    (presses (opened 2)
       [join_tournament (Member.mk 1 "ann") 11 (Some 101);
        join_tournament (Member.mk 1 "ann") 11 (Some 103);
        join_tournament (Member.mk 2 "bob") 12 None;
        join_tournament (Member.mk 3 "cat") 13 (Some 104);
        leave_tournament (Member.mk 1 "ann") false;
        cancel_tournament (Member.mk 0 "org");
        join_tournament (Member.mk 3 "cat") 13 (Some 104)])
  = [TournamentPlayer.mk (Member.mk 2 "bob") 12 [] false].
Proof. vm_compute. reflexivity. Qed.

(** X21.  The checks of [_handle_join] are made before the [await] of
    [Player.get_or_create] and not again after it: when two joins of the
    same user have both passed the checks before either of them appends,
    the user is twice among the participants, although the checks refuse
    the user once the first join has appended. *)
Theorem overlapping_joins_register_twice tournament user pk1 c1 pk2 c2 :
  join_checks tournament user = None ->
  let first := (join_append pk1 c1 tournament user).1 in
  let second := (join_append pk2 c2 first user).1 in
  join_checks first user = Some "You are already registered for this tournament!" ∧
  Tournament.participants second
  = (Tournament.participants tournament
       ++ [TournamentPlayer.mk user pk1 [] false; TournamentPlayer.mk user pk2 [] false])%list ∧
  ¬ NoDup (user_id <$> Tournament.participants second).
Proof.
  intros _ first second.
  assert (Tournament.participants first
          = (Tournament.participants tournament
               ++ [TournamentPlayer.mk user pk1 [] false])%list) as Hfirst.
  { unfold first, join_append. by destruct c1. }
  assert (Tournament.participants second
          = (Tournament.participants first
               ++ [TournamentPlayer.mk user pk2 [] false])%list) as Hsecond.
  { unfold second, join_append. by destruct c2. }
  split; [|split].
  - unfold join_checks. rewrite Hfirst, existsb_app. simpl.
    unfold user_id at 2. simpl. by rewrite Z.eqb_refl, orb_true_r.
  - by rewrite Hsecond, Hfirst, <- app_assoc.
  - rewrite Hsecond, Hfirst, <- app_assoc, fmap_app. simpl.
    intros [_ [_ Hnd]]%NoDup_app. apply NoDup_cons in Hnd as [Hnotin _].
    apply Hnotin. left.
Qed.

Lemma overlapping_joins_register_twice_witness :
  join_checks (join_append 11 (Some 101) (opened 1) (Member.mk 1 "ann")).1 (Member.mk 1 "ann")
  = Some "You are already registered for this tournament!" ∧
  Tournament.participants
    (join_append 11 (Some 102)
       (join_append 11 (Some 101) (opened 1) (Member.mk 1 "ann")).1 (Member.mk 1 "ann")).1
  = (Tournament.participants (opened 1)
       ++ [TournamentPlayer.mk (Member.mk 1 "ann") 11 [] false;
           TournamentPlayer.mk (Member.mk 1 "ann") 11 [] false])%list ∧
  ¬ NoDup (user_id <$> Tournament.participants
             (join_append 11 (Some 102)
                (join_append 11 (Some 101) (opened 1) (Member.mk 1 "ann")).1
                (Member.mk 1 "ann")).1).
Proof.
  apply (overlapping_joins_register_twice (opened 1) (Member.mk 1 "ann")
           11 (Some 101) 11 (Some 102)).
  reflexivity.
Defined.

Lemma handle_closed tournament p :
  Tournament.state tournament <> REGISTRATION ->
  Tournament.participants (handle tournament p).1 = Tournament.participants tournament ∧
  (Tournament.state (handle tournament p).1 = Tournament.state tournament ∨
   Tournament.state (handle tournament p).1 = CANCELLED).
Proof.
  intros Hst.
  assert (negb (is_registration (Tournament.state tournament)) = true) as Hneg.
  { by destruct (Tournament.state tournament). }
  destruct p as [user pk c | user d | user collection get_emoji shuffle s | user]; simpl.
  - unfold _handle_join, join_checks. rewrite Hneg.
    destruct (existsb _ _); [by split; [|left]|].
    destruct (_ <=? _); by split; [|left].
  - unfold _handle_leave. rewrite Hneg.
    destruct (List.find _ _); by split; [|left].
  - unfold _handle_start. rewrite Hneg. clear Hneg.
    destruct (negb (Member.id user =? _)); [by split; [|left]|].
    destruct (_ <? _)%nat; by split; [|left].
  - unfold _handle_cancel. clear Hneg.
    destruct (negb (Member.id user =? _)); [by split; [|left]|]. by split; [|right].
Qed.

(** X22.  Once the registration is closed, no press of a button changes
    the participants, whoever presses and in whatever order, and the
    registration is not opened again: the state stays as it is or
    becomes [CANCELLED]. *)
Theorem closed_registration_is_frozen tournament l :
  Tournament.state tournament <> REGISTRATION ->
  Tournament.participants (presses tournament l) = Tournament.participants tournament ∧
  (Tournament.state (presses tournament l) = Tournament.state tournament ∨
   Tournament.state (presses tournament l) = CANCELLED).
Proof.
  unfold presses. revert tournament. induction l as [|p l IH]; intros tournament Hst.
  { by split; [|left]. }
  simpl. destruct (handle_closed tournament p Hst) as [Hp Hs].
  destruct (IH (handle tournament p).1) as [Hp' Hs'].
  { destruct Hs as [-> | ->]; [done | discriminate]. }
  split; [congruence|].
  destruct Hs as [Hs | Hs]; rewrite Hs in Hs'; [done|]. right. by destruct Hs'.
Qed.

Lemma closed_registration_is_frozen_witness :
  Tournament.participants
    (presses (cup [entrant 1 "ann" []; entrant 2 "bob" []])
       [join_tournament (Member.mk 3 "cat") 13 (Some 104);
        leave_tournament (Member.mk 1 "ann") true;
        start_tournament (Member.mk 0 "org") stock no_emoji (fun _ => reverse) true])
  = Tournament.participants (cup [entrant 1 "ann" []; entrant 2 "bob" []]) ∧
  (Tournament.state
     (presses (cup [entrant 1 "ann" []; entrant 2 "bob" []])
        [join_tournament (Member.mk 3 "cat") 13 (Some 104);
         leave_tournament (Member.mk 1 "ann") true;
         start_tournament (Member.mk 0 "org") stock no_emoji (fun _ => reverse) true])
   = Tournament.state (cup [entrant 1 "ann" []; entrant 2 "bob" []]) ∨
   Tournament.state
     (presses (cup [entrant 1 "ann" []; entrant 2 "bob" []])
        [join_tournament (Member.mk 3 "cat") 13 (Some 104);
         leave_tournament (Member.mk 1 "ann") true;
         start_tournament (Member.mk 0 "org") stock no_emoji (fun _ => reverse) true])
   = CANCELLED).
Proof.
  apply (closed_registration_is_frozen (cup [entrant 1 "ann" []; entrant 2 "bob" []])).
  discriminate.
Defined.

Lemma kept_all_failed (R : list (TournamentPlayer.t * option Z)) :
  (forall r, r ∈ R -> r.2 <> None) -> kept R = [].
Proof.
  unfold kept. induction R as [|[p o] R IH]; intros H; [done|]. simpl.
  destruct o as [n|].
  - apply IH. intros r Hr. apply H. by right.
  - by destruct (H (p, None) ltac:(left)).
Qed.

(** X23.  [_handle_start] counts the participants before the teams are
    selected, and those that get no team are removed after the count: if
    the organizer starts an open tournament of at least two participants
    with distinct users and the selection fails for each of them, the
    tournament is left without any participant, and it is [ACTIVE] when
    Challonge has started it. *)
Theorem start_without_teams collection get_emoji shuffle challonge_start tournament user :
  Member.id user = Member.id (Tournament.organizer tournament) ->
  (2 <= length (Tournament.participants tournament))%nat ->
  Tournament.state tournament = REGISTRATION ->
  NoDup (user_id <$> Tournament.participants tournament) ->
  (forall k p, Tournament.participants tournament !! k = Some p ->
               (select_balls collection get_emoji shuffle tournament k p).2 <> None) ->
  let tournament' :=
    (_handle_start collection get_emoji shuffle challonge_start tournament user).1 in
  Tournament.participants tournament' = [] ∧
  Tournament.state tournament' = (if challonge_start then ACTIVE else REGISTRATION).
Proof.
  intros Huser Hlen Hst Hnd Hfail. unfold _handle_start.
  rewrite (proj2 (Z.eqb_eq _ _) Huser). simpl negb. cbv iota.
  rewrite (proj2 (Nat.ltb_ge _ _) Hlen), Hst. simpl negb. cbv iota.
  rewrite auto_select_result by done. cbn [fst].
  rewrite kept_all_failed.
  - destruct challonge_start; by simpl.
  - intros r [k Hk]%list_elem_of_lookup. rewrite list_lookup_imap in Hk.
    destruct (Tournament.participants tournament !! k) as [p|] eqn:Hp; [|done].
    simpl in Hk. injection Hk as <-. by eapply Hfail.
Qed.

Lemma start_without_teams_witness :
  Tournament.participants
    (_handle_start (fun _ _ => Some []) no_emoji (fun _ => reverse) true
       (presses (opened 4) [join_tournament (Member.mk 1 "ann") 11 (Some 101);
                            join_tournament (Member.mk 2 "bob") 12 (Some 102)])
       (Member.mk 0 "org")).1 = [] ∧
  Tournament.state
    (_handle_start (fun _ _ => Some []) no_emoji (fun _ => reverse) true
       (presses (opened 4) [join_tournament (Member.mk 1 "ann") 11 (Some 101);
                            join_tournament (Member.mk 2 "bob") 12 (Some 102)])
       (Member.mk 0 "org")).1 = ACTIVE.
Proof.
  apply (start_without_teams (fun _ _ => Some []) no_emoji (fun _ => reverse) true
           (presses (opened 4) [join_tournament (Member.mk 1 "ann") 11 (Some 101);
                                join_tournament (Member.mk 2 "bob") 12 (Some 102)])
           (Member.mk 0 "org")).
  - reflexivity.
  - vm_compute. lia.
  - reflexivity.
  - apply (bool_decide_unpack _). vm_compute. exact I.
  - intros [|[|k]] p Hp; vm_compute in Hp; [| |discriminate]; injection Hp as <-;
      vm_compute; discriminate.
Defined.

(** ** The processing of a tournament *)

Lemma find_players_from_spec d m (participants : list TournamentPlayer.t) :
  forall rest i player1 player2 r1 r2,
    (forall k q, rest !! k = Some q -> participants !! (i + k)%nat = Some q) ->
    (forall a, player1 = Some a ->
       (a < i)%nat ∧
       ∃ p c, participants !! a = Some p ∧ TournamentPlayer.eliminated p = false ∧
              dict_get (user_id p) d = Some c ∧ Match.player1_id m = Some c) ->
    (forall b, player2 = Some b ->
       (b < i)%nat ∧
       ∃ p c, participants !! b = Some p ∧ TournamentPlayer.eliminated p = false ∧
              dict_get (user_id p) d = Some c ∧ Match.player2_id m = Some c) ->
    (forall a b, player1 = Some a -> player2 = Some b -> a <> b) ->
    find_players_from d m i rest player1 player2 = (r1, r2) ->
    (forall a, r1 = Some a ->
       ∃ p c, participants !! a = Some p ∧ TournamentPlayer.eliminated p = false ∧
              dict_get (user_id p) d = Some c ∧ Match.player1_id m = Some c) ∧
    (forall b, r2 = Some b ->
       ∃ p c, participants !! b = Some p ∧ TournamentPlayer.eliminated p = false ∧
              dict_get (user_id p) d = Some c ∧ Match.player2_id m = Some c) ∧
    (forall a b, r1 = Some a -> r2 = Some b -> a <> b).
Proof.
  induction rest as [|q rest IH]; intros i player1 player2 r1 r2 Hrest H1 H2 Hne; simpl.
  { intros [= <- <-]. split; [|split; [|done]].
    - intros a Ha. by destruct (H1 a Ha).
    - intros b Hb. by destruct (H2 b Hb). }
  assert (participants !! i = Some q) as Hq.
  { rewrite <- (Hrest 0%nat q); [f_equal; lia | done]. }
  assert (forall k q', rest !! k = Some q' -> participants !! (S i + k)%nat = Some q')
    as Hrest'.
  { intros k q' Hk. rewrite <- (Hrest (S k) q' Hk). f_equal. lia. }
  assert (forall a, player1 = Some a ->
            (a < S i)%nat ∧
            ∃ p c, participants !! a = Some p ∧ TournamentPlayer.eliminated p = false ∧
                   dict_get (user_id p) d = Some c ∧ Match.player1_id m = Some c) as H1'.
  { intros a Ha. destruct (H1 a Ha) as [? ?]. split; [lia | done]. }
  assert (forall b, player2 = Some b ->
            (b < S i)%nat ∧
            ∃ p c, participants !! b = Some p ∧ TournamentPlayer.eliminated p = false ∧
                   dict_get (user_id p) d = Some c ∧ Match.player2_id m = Some c) as H2'.
  { intros b Hb. destruct (H2 b Hb) as [? ?]. split; [lia | done]. }
  destruct (TournamentPlayer.eliminated q) eqn:Hel; simpl; [by apply IH|].
  destruct (dict_get (user_id q) d) as [c|] eqn:Hc; [|by apply IH].
  destruct (bool_decide (Some c = Match.player1_id m)) eqn:Hp1.
  - apply bool_decide_eq_true in Hp1. apply IH; try done.
    + intros a [= <-]. split; [lia|]. by exists q, c.
    + intros a b [= <-] Hb. destruct (H2 b Hb) as [? _]. lia.
  - destruct (bool_decide (Some c = Match.player2_id m)) eqn:Hp2; [|by apply IH].
    apply bool_decide_eq_true in Hp2. apply IH; try done.
    + intros b [= <-]. split; [lia|]. by exists q, c.
    + intros a b Ha [= <-]. destruct (H1 a Ha) as [? _]. lia.
Qed.

Lemma find_players_found tournament m player1 player2 :
  find_players tournament m = (Some player1, Some player2) ->
  player1 <> player2 ∧
  ∃ p1 p2 c1 c2,
    Tournament.participants tournament !! player1 = Some p1 ∧
    Tournament.participants tournament !! player2 = Some p2 ∧
    TournamentPlayer.eliminated p1 = false ∧
    TournamentPlayer.eliminated p2 = false ∧
    dict_get (user_id p1) (Tournament.challonge_participants tournament) = Some c1 ∧
    dict_get (user_id p2) (Tournament.challonge_participants tournament) = Some c2 ∧
    Match.player1_id m = Some c1 ∧
    Match.player2_id m = Some c2.
Proof.
  intros H. unfold find_players in H.
  apply (find_players_from_spec _ _ (Tournament.participants tournament)) in H;
    [| done | done | done | done].
  destruct H as (H1 & H2 & Hne).
  destruct (H1 player1 eq_refl) as (p1 & c1 & ? & ? & ? & ?).
  destruct (H2 player2 eq_refl) as (p2 & c2 & ? & ? & ? & ?).
  split; [by apply Hne|]. by exists p1, p2, c1, c2.
Qed.

(** X24.  The two players that [_process_tournament] finds for a match
    are two different participants, neither of them eliminated, whose
    participants of Challonge are the first and the second player of the
    match. *)
Theorem find_players_distinct tournament m player1 player2 :
  find_players tournament m = (Some player1, Some player2) ->
  player1 <> player2 ∧
  ∃ p1 p2 c1 c2,
    Tournament.participants tournament !! player1 = Some p1 ∧
    Tournament.participants tournament !! player2 = Some p2 ∧
    TournamentPlayer.eliminated p1 = false ∧
    TournamentPlayer.eliminated p2 = false ∧
    dict_get (user_id p1) (Tournament.challonge_participants tournament) = Some c1 ∧
    dict_get (user_id p2) (Tournament.challonge_participants tournament) = Some c2 ∧
    Match.player1_id m = Some c1 ∧
    Match.player2_id m = Some c2.
Proof. apply find_players_found. Qed.

(** A match that returns without a report has changed nothing. *)
Lemma simulate_match_None fuel rng tournament player1 player2 tournament' :
  _simulate_match fuel rng tournament player1 player2 = Done (tournament', None) ->
  tournament' = tournament.
Proof.
  unfold _simulate_match. intros H.
  destruct (Tournament.participants tournament !! player1) as [p1|]; [|discriminate].
  destruct (Tournament.participants tournament !! player2) as [p2|]; [|discriminate].
  destruct (simulate_tournament_battle fuel rng _ _ _ _) as [[res pos]| | |];
    simpl in H; try discriminate.
  - destruct (String.eqb _ _); discriminate.
  - by injection H as <-.
Qed.

Lemma process_matches_Done fuel rng tournament matches tournament' :
  process_matches fuel rng tournament matches = Done tournament' ->
  tournament' = tournament ∨
  ∃ loser p,
    Tournament.participants tournament !! loser = Some p ∧
    TournamentPlayer.eliminated p = false ∧
    Tournament.participants tournament'
    = alter (TournamentPlayer.set_eliminated true) loser
        (Tournament.participants tournament) ∧
    Tournament.state tournament'
    = (if (length (active_players (Tournament.participants tournament')) =? 1)%nat
       then FINISHED else Tournament.state tournament).
Proof.
  induction matches as [|m rest IH]; simpl; [intros [= <-]; by left|].
  destruct (String.eqb _ _); [|done].
  destruct (find_players tournament m) as [[player1|] [player2|]] eqn:Hfind; try done.
  destruct (_simulate_match fuel rng tournament player1 player2)
    as [[t' [report|]]| | |] eqn:Hs; simpl; try done.
  2: { intros [= <-]. left. by eapply simulate_match_None. }
  intros [= <-]. right.
  destruct (find_players_found _ _ _ _ Hfind)
    as (_ & p1 & p2 & c1 & c2 & Hp1 & Hp2 & He1 & He2 & _).
  destruct (simulate_match_Done _ _ _ _ _ _ _ Hs)
    as (p1' & p2' & pos & Hp1' & Hp2' & _ & Hwin & Hparts & Hstate).
  exists (MatchReport.loser report).
  destruct Hwin as [(_ & _ & Hl) | (_ & _ & Hl)]; rewrite Hl in *.
  - by exists p2.
  - by exists p1.
Qed.

(** X25.  A pass of [_process_tournament] that returns plays at most one
    match: either it leaves the participants as they are, or it
    eliminates one participant that was still in and changes nothing
    else of the participants.  The state of the tournament stays as it
    is or becomes [FINISHED]. *)
Theorem process_plays_one_match fuel rng matches tournament_info finalize
    tournament tournament' :
  _process_tournament fuel rng matches tournament_info finalize tournament
  = Done tournament' ->
  (Tournament.participants tournament' = Tournament.participants tournament ∨
   ∃ loser p,
     Tournament.participants tournament !! loser = Some p ∧
     TournamentPlayer.eliminated p = false ∧
     Tournament.participants tournament'
     = alter (TournamentPlayer.set_eliminated true) loser
         (Tournament.participants tournament)) ∧
  (Tournament.state tournament' = Tournament.state tournament ∨
   Tournament.state tournament' = FINISHED).
Proof.
  unfold _process_tournament. destruct matches as [matches|].
  2: { intros [= <-]. split; by left. }
  destruct (process_matches fuel rng tournament matches) as [t1| | |] eqn:Hm; simpl;
    try done.
  intros Hfinal.
  assert (Tournament.participants tournament' = Tournament.participants t1 ∧
          (Tournament.state tournament' = Tournament.state t1 ∨
           Tournament.state tournament' = FINISHED)) as [Hp Hs].
  { destruct tournament_info as [state|]; [|injection Hfinal as <-; by split; [|left]].
    destruct (String.eqb state _); [|injection Hfinal as <-; by split; [|left]].
    destruct finalize; injection Hfinal as <-; [by split; [|right] | by split; [|left]]. }
  apply process_matches_Done in Hm as [-> | (loser & p & Hl & He & Hparts & Hstate)].
  - split; [by left | done].
  - split.
    + right. exists loser, p. by rewrite Hp.
    + destruct Hs as [Hs | Hs]; [|by right]. rewrite Hs, Hstate.
      destruct (_ =? _)%nat; [by right | by left].
Qed.

Lemma find_players_distinct_witness :
  1%nat <> 0%nat ∧
  ∃ p1 p2 c1 c2,
    Tournament.participants bracket !! 1%nat = Some p1 ∧
    Tournament.participants bracket !! 0%nat = Some p2 ∧
    TournamentPlayer.eliminated p1 = false ∧
    TournamentPlayer.eliminated p2 = false ∧
    dict_get (user_id p1) (Tournament.challonge_participants bracket) = Some c1 ∧
    dict_get (user_id p2) (Tournament.challonge_participants bracket) = Some c2 ∧
    Match.player1_id (Match.mk 9 "open" (Some 102) (Some 101)) = Some c1 ∧
    Match.player2_id (Match.mk 9 "open" (Some 102) (Some 101)) = Some c2.
Proof.
  apply (find_players_distinct bracket (Match.mk 9 "open" (Some 102) (Some 101)) 1 0).
  reflexivity.
Defined.

Example process_example :
  _process_tournament 5 steady
    (Some [Match.mk 8 "pending" None None; Match.mk 9 "open" (Some 101) (Some 102);
           Match.mk 10 "open" (Some 101) (Some 103)])
    (Some "underway") true bracket
  = Done (Tournament.set_participants
            [entrant 1 "ann" [tball "A" 10 5];
             TournamentPlayer.set_eliminated true (entrant 2 "bob" [tball "B" 7 4]);
             entrant 3 "cat" [tball "C" 9 9]]
            bracket).
Proof. by vm_compute. Qed.

Lemma process_plays_one_match_witness :
  (Tournament.participants
     (Tournament.set_participants
        [entrant 1 "ann" [tball "A" 10 5];
         TournamentPlayer.set_eliminated true (entrant 2 "bob" [tball "B" 7 4]);
         entrant 3 "cat" [tball "C" 9 9]]
        bracket)
   = Tournament.participants bracket ∨
   ∃ loser p,
     Tournament.participants bracket !! loser = Some p ∧
     TournamentPlayer.eliminated p = false ∧
     Tournament.participants
       (Tournament.set_participants
          [entrant 1 "ann" [tball "A" 10 5];
           TournamentPlayer.set_eliminated true (entrant 2 "bob" [tball "B" 7 4]);
           entrant 3 "cat" [tball "C" 9 9]]
          bracket)
     = alter (TournamentPlayer.set_eliminated true) loser
         (Tournament.participants bracket)) ∧
  (Tournament.state
     (Tournament.set_participants
        [entrant 1 "ann" [tball "A" 10 5];
         TournamentPlayer.set_eliminated true (entrant 2 "bob" [tball "B" 7 4]);
         entrant 3 "cat" [tball "C" 9 9]]
        bracket)
   = Tournament.state bracket ∨
   Tournament.state
     (Tournament.set_participants
        [entrant 1 "ann" [tball "A" 10 5];
         TournamentPlayer.set_eliminated true (entrant 2 "bob" [tball "B" 7 4]);
         entrant 3 "cat" [tball "C" 9 9]]
        bracket)
   = FINISHED).
Proof.
  apply (process_plays_one_match 5 steady
           (Some [Match.mk 8 "pending" None None; Match.mk 9 "open" (Some 101) (Some 102);
                  Match.mk 10 "open" (Some 101) (Some 103)])
           (Some "underway") true bracket).
  apply process_example.
Defined.
